(** * Deep B-spline activations: evaluation kernel, slope/coefficient
      conversion, sparsification and the Lipschitz bound

    A shallow embedding of [models/deepBspline_base.py] (the autograd
    function [DeepBSpline_Func] and the module [DeepBSplineBase]) and of the
    parts of [models/basemodel.py] that work on the activations and the
    parameters: regularisation ([weight_decay], [TV_BV],
    [lipschitz_bound]), sparsification ([sparsify_activations]), the sampled
    activations ([get_deepspline_activations]) and the parameter
    generators.

    Numbers.  The program computes on floating-point tensors; the embedding
    computes on the rationals [Q] (exact arithmetic), so every statement
    below is about the mathematical result and equality of numbers is [==].

    Tensors.  A contiguous 4-D tensor is its shape together with its data in
    row-major order, which is what [.view(-1)] exposes.  Element-wise
    operations are maps over the data; broadcasting of a per-channel vector
    [v.view(1,-1,1,1)] reads [v] at the channel of each position. *)

From Stdlib Require Import ZArith QArith Qround Qabs Qminmax Lia ZifyNat Lqa.

From Stdlib Require String.

From stdpp Require Import base list.

Import String.StringSyntax.

Delimit Scope string_scope with string.

Local Open Scope Q_scope.

(** [lia] and [nia] on [/] and [mod] (Python's [//] and the row/column of a
    position in a view) *)
Ltac Zify.zify_post_hook ::= Z.to_euclidean_division_equations.

(** * Part I: the embedding *)

(** ** Python errors and the error monad *)

Inductive PyError := AssertionError | IndexError | RuntimeError.

Inductive result (A : Type) : Type :=
| Ok (a : A)
| Raise (e : PyError).

Arguments Ok {A} a.

Arguments Raise {A} e.

#[global] Instance result_ret : MRet result := @Ok.

#[global] Instance result_bind : MBind result :=
  fun A B f m => match m with Ok a => f a | Raise e => Raise e end.

#[global] Instance Q_inhabited : Inhabited Q := populate 0.

(** ** Scalar operations of torch used by the kernel *)

(** [t.clamp(min=lo, max=hi)]: min(max(t, lo), hi); when [lo > hi] the
    result is [hi], as in torch. *)
Definition clamp (lo hi x : Q) : Q := Qmin (Qmax x lo) hi.

(** [t.clamp(max=hi)] and [t.clamp(min=lo)] *)
Definition clamp_max (hi x : Q) : Q := Qmin x hi.

Definition clamp_min (lo x : Q) : Q := Qmax x lo.

(** [torch.floor] keeps the floating type: the result is the integer
    [Qfloor x] as a number. *)
Definition floor (x : Q) : Q := inject_Z (Qfloor x).

(** [t.long()]: conversion to a 64-bit integer truncates toward zero. *)
Definition long (q : Q) : Z := Z.quot (Qnum q) (Z.pos (Qden q)).

(** ** The scalar kernel of [DeepBSpline_Func.forward]

    [size] is the number of coefficients of one activation and [grid] the
    knot spacing; [size//2] is Python's floor division. *)
Section Kernel.

Variable grid : Q.

Variable size : nat.

(** [size//2] and [size//2-1] as numbers *)
Definition half : Q := inject_Z (Z.of_nat (size / 2)).

Definition half_m1 : Q := inject_Z (Z.of_nat (size / 2) - 1).

(** [x.clamp(min = -(grid.item() * (size//2)), max = (grid.item() * (size//2-1)))] *)
Definition x_clamped (x : Q) : Q :=
  clamp (- (grid * half)) (grid * half_m1) x.

(** [floored_x = torch.floor(x_clamped/grid)] *)
Definition floored_x (x : Q) : Q := floor (x_clamped x / grid).

(** [fracs = x_clamped/grid - floored_x] *)
Definition fracs (x : Q) : Q := x_clamped x / grid - floored_x x.

(** [init_zero_knot_indexes]: entry [i] of
    [activation_arange*self.size + (self.size//2)] *)
Definition zero_knot_index (i : nat) : Z := Z.of_nat (i * size + size / 2).

(** [indexes = (zero_knot_indexes.view(1,-1,1,1) + floored_x).long()], at
    an element of channel [i] whose knot index is [zk] *)
Definition index_at (zk : Z) (x : Q) : Z := long (inject_Z zk + floored_x x).

Definition indexes (i : nat) (x : Q) : Z := index_at (zero_knot_index i) x.

(** The factors of the linear extrapolations:
    [(x.detach() + grid*(size//2)).clamp(max=0)] and
    [(x.detach() - grid*(size//2-1)).clamp(min=0)] *)
Definition left_excess (x : Q) : Q := clamp_max 0 (x + grid * half).

Definition right_excess (x : Q) : Q := clamp_min 0 (x - grid * half_m1).

End Kernel.

(** [init_zero_knot_indexes] as the tensor of length [num_activations] *)
Definition init_zero_knot_indexes (num_activations size : nat) : list Z :=
  fmap (zero_knot_index size) (seq 0 num_activations).

(** ** Tensors *)

(** A contiguous tensor of shape [(dimB, dimC, dimH, dimW)]; [data] is the
    row-major content, i.e. [t.view(-1)].  A fully-connected input of shape
    [(B, C)] is reshaped to [(B, C, 1, 1)] by the parent class before the
    code embedded here sees it. *)
Record Tensor := mkTensor {
  dimB : nat; dimC : nat; dimH : nat; dimW : nat;
  data : list Q
}.

Definition numel (t : Tensor) : nat := (dimB t * dimC t * dimH t * dimW t)%nat.

Definition wf_tensor (t : Tensor) : Prop := length (data t) = numel t.

(** The tensor of the same shape holding other data *)
Definition with_data (t : Tensor) (d : list Q) : Tensor :=
  {| dimB := dimB t; dimC := dimC t; dimH := dimH t; dimW := dimW t; data := d |}.


(** Index along dimension 1 of the element at flat position [k] *)
Definition channel_of (t : Tensor) (k : nat) : nat :=
  ((k / (dimH t * dimW t)) mod dimC t)%nat.

(** [v.view(1,-1,1,1)] broadcast against [t]: the entry of [v] for the
    channel of each position.  The vectors broadcast in this file have one
    entry per channel; any other length is a shape error. *)
Definition expand_channels {A} `{Inhabited A} (t : Tensor) (v : list A)
  : result (list A) :=
  if decide (length v = dimC t)
  then Ok (imap (fun k _ => v !!! channel_of t k) (data t))
  else Raise RuntimeError.

(** Python/torch index normalisation: [-n <= j < 0] counts from the end. *)
Definition norm_index (n : nat) (j : Z) : result nat :=
  if decide (0 <= j < Z.of_nat n)%Z then Ok (Z.to_nat j)
  else if decide (- Z.of_nat n <= j < 0)%Z then Ok (Z.to_nat (Z.of_nat n + j))
  else Raise IndexError.

(** [v[j]] for one index, and [v[indexes]] for a tensor of indexes *)
Definition getitem (v : list Q) (j : Z) : result Q :=
  k ← norm_index (length v) j; Ok (v !!! k).

Definition gather (v : list Q) (index : list Z) : result (list Q) :=
  mapM (getitem v) index.


(** [v.view(nrows, ncols)] exists only when the sizes agree; the view
    shares the storage [v]. *)
Definition view_check (v : list Q) (nrows ncols : nat) : result unit :=
  if decide (length v = (nrows * ncols)%nat) then Ok tt else Raise RuntimeError.

(** [coefficients[:, j]] on the [(nrows, ncols)] view of [v] *)
Definition column (v : list Q) (nrows ncols : nat) (j : Z) : result (list Q) :=
  c ← norm_index ncols j;
  Ok (fmap (fun r => v !!! (r * ncols + c)%nat) (seq 0 nrows)).

Definition sumQ (l : list Q) : Q := foldr Qplus 0 l.

(** ** [DeepBSpline_Func]: the autograd function *)

(** What [ctx.save_for_backward] keeps: fracs and indexes when
    [save_memory] is false, the input itself when it is true.  The flag
    saved first comes back from [ctx.saved_tensors] as the Python bool it
    was; it is the constructor here. *)
Inductive Ctx :=
| SavedFracs (fracs : list Q) (coefficients_vect : list Q)
             (indexes : list Z) (grid : Q)
| SavedInput (x : Tensor) (coefficients_vect : list Q) (grid : Q)
             (zero_knot_indexes : list Z) (size : nat).

(** [fracs] and [indexes] of a batch (computed in forward, and again in
    backward when [save_memory] is true) *)
Definition fracs_indexes (x : Tensor) (grid : Q) (zero_knot_indexes : list Z)
    (size : nat) : result (list Q * list Z) :=
  let fr := fmap (fracs grid size) (data x) in
  zk ← expand_channels x zero_knot_indexes;
  Ok (fr, zip_with (index_at grid size) zk (data x)).

(** [leftmost_slope] and [rightmost_slope], one entry per activation *)
Definition boundary_slopes (coefficients_vect : list Q)
    (num_activations size : nat) (grid : Q) : result (list Q * list Q) :=
  _ ← view_check coefficients_vect num_activations size;
  c1 ← column coefficients_vect num_activations size 1;
  c0 ← column coefficients_vect num_activations size 0;
  cm1 ← column coefficients_vect num_activations size (-1);
  cm2 ← column coefficients_vect num_activations size (-2);
  Ok (zip_with (fun a b => (a - b) / grid) c1 c0,
      zip_with (fun a b => (a - b) / grid) cm1 cm2).

(** [leftExtrapolations + rightExtrapolations] *)
Definition linearExtrapolations (x : Tensor) (grid : Q) (size : nat)
    (leftmost_slope rightmost_slope : list Q) : result (list Q) :=
  ls ← expand_channels x leftmost_slope;
  rs ← expand_channels x rightmost_slope;
  Ok (zip_with Qplus
        (zip_with Qmult (fmap (left_excess grid size) (data x)) ls)
        (zip_with Qmult (fmap (right_excess grid size) (data x)) rs)).

(** [DeepBSpline_Func.forward]: the output and the saved context *)
Definition Func_forward (x : Tensor) (coefficients_vect : list Q) (grid : Q)
    (zero_knot_indexes : list Z) (size : nat) (save_memory : bool)
  : result (list Q * Ctx) :=
  '(fr, indexes) ← fracs_indexes x grid zero_knot_indexes size;
  right ← gather coefficients_vect (fmap Z.succ indexes);
  left ← gather coefficients_vect indexes;
  let activation_output :=
    zip_with Qplus (zip_with Qmult right fr)
                   (zip_with (fun c f => c * (1 - f)) left fr) in
  if save_memory then
    let num_activations := dimC x in
    '(leftmost_slope, rightmost_slope) ←
        boundary_slopes coefficients_vect num_activations size grid;
    ext ← linearExtrapolations x grid size leftmost_slope rightmost_slope;
    Ok (zip_with Qplus activation_output ext,
        SavedInput x coefficients_vect grid zero_knot_indexes size)
  else
    Ok (activation_output, SavedFracs fr coefficients_vect indexes grid).


(** ** [DeepBSplineBase]: the module *)

(** The state of one activation layer.  [coefficients_vect_] is the stored
    (vectorised) coefficient parameter; [coefficients] is its
    [(num_activations, size)] view. *)
Record DeepBSplineBase := mkModule {
  num_activations : nat;
  size : nat;
  grid : Q;
  coefficients_vect_ : list Q;
  save_memory : bool
}.

(** [self.zero_knot_indexes], set once by [__init__] *)
Definition zero_knot_indexes (m : DeepBSplineBase) : list Z :=
  init_zero_knot_indexes (num_activations m) (size m).

(** Invariant I1 and the construction-time checks on [size] and [grid] *)
Record valid_state (m : DeepBSplineBase) : Prop := {
  valid_grid : 0 < grid m;
  valid_odd : (size m mod 2 = 1)%nat;
  valid_size : (3 <= size m)%nat;
  valid_length :
    length (coefficients_vect_ m) = (num_activations m * size m)%nat
}.

(** What autograd records for the operations [forward] performs outside the
    autograd function when [save_memory] is false: the two detached factors
    of the products with [leftmost_slope] and [rightmost_slope]. *)
Record Graph := mkGraph {
  func_ctx : Ctx;
  outside : option (list Q * list Q)
}.

(** [DeepBSplineBase.forward] on the reshaped input [x]: the output (before
    [reshape_back]) and the recorded graph. *)
Definition forward (m : DeepBSplineBase) (x : Tensor) : result (Tensor * Graph) :=
  if decide (dimC x = num_activations m) then
    '(output, ctx) ← Func_forward x (coefficients_vect_ m) (grid m)
                       (zero_knot_indexes m) (size m) (save_memory m);
    if save_memory m then Ok (with_data x output, mkGraph ctx None)
    else
      '(leftmost_slope, rightmost_slope) ←
          boundary_slopes (coefficients_vect_ m) (num_activations m) (size m)
            (grid m);
      ext ← linearExtrapolations x (grid m) (size m)
              leftmost_slope rightmost_slope;
      Ok (with_data x (zip_with Qplus output ext),
          mkGraph ctx (Some (fmap (left_excess (grid m) (size m)) (data x),
                             fmap (right_excess (grid m) (size m)) (data x))))
  else Raise AssertionError.

(** *** Reverse mode through the operations outside the autograd function *)





(** The output data of [forward], when it returns *)
Definition forward_data (m : DeepBSplineBase) (x : Tensor) : result (list Q) :=
  '(out, _) ← forward m x; Ok (data out).


(** ** Slopes and coefficients: the two parameterisations *)

(** Row [r] of the [(num_activations, size)] view of the storage *)
Definition row (cv : list Q) (size r : nat) : list Q :=
  (fun j => cv !!! (r * size + j)%nat) <$> seq 0 size.

(** [self.D2_filter = Tensor([1,-2,1]).view(1,1,3).div(self.grid)] *)
Definition D2_filter (grid : Q) : list Q := (fun w => w / grid) <$> [1; -2; 1].

(** [F.conv1d] of one row with one filter, no padding: the sliding dot
    product; an input shorter than the filter is a runtime error. *)
Definition conv1d (input weight : list Q) : result (list Q) :=
  if decide (length weight <= length input)%nat then
    Ok ((fun j => sumQ (imap (fun t w => w * input !!! (j + t)%nat) weight))
          <$> seq 0 (length input - length weight + 1))
  else Raise RuntimeError.

(** The property [relu_slopes]: one row of [size - 2] slopes per activation *)
Definition relu_slopes (m : DeepBSplineBase) : result (list (list Q)) :=
  _ ← view_check (coefficients_vect_ m) (num_activations m) (size m);
  mapM (fun r => conv1d (row (coefficients_vect_ m) (size m) r) (D2_filter (grid m)))
       (seq 0 (num_activations m)).

(** [coefficients[:, from::] = v] and [coefficients[:, i] = rhs], written
    through the view into the storage: position [k] of the storage is row
    [k / size], column [k mod size]. *)
Definition set_columns_from (cv : list Q) (size from : nat) (v : Q) : list Q :=
  imap (fun k old => if decide (from <= k mod size)%nat then v else old) cv.

Definition set_column (cv : list Q) (size i : nat) (rhs : list Q) : list Q :=
  imap (fun k old => if decide (k mod size = i)%nat then rhs !!! (k / size)%nat
                     else old) cv.

(** [relu_slopes[:, j]] of a tensor given by its rows *)
Definition slopes_column (relu_slopes : list (list Q)) (j : nat) : result (list Q) :=
  mapM (fun r : list Q => match r !! j with
                          | Some a => Ok a
                          | None => Raise IndexError
                          end) relu_slopes.

(** A [for] loop over a list of indexes, threading the state *)
Fixpoint for_each {S : Type} (body : S -> nat -> result S) (s : S) (l : list nat)
  : result S :=
  match l with
  | [] => Ok s
  | i :: l' => s' ← body s i; for_each body s' l'
  end.

(** One iteration of the loop of [iterative_relu_slopes_to_coefficients]:
    [coefficients[:, i] = (coefficients[:, i-1] - coefficients[:, i-2])
      + relu_slopes[:, i-2].mul(self.grid) + coefficients[:, i-1]].
    The slopes have one row per activation in every call of the program; any
    other number of rows is a shape error. *)
Definition iterative_step (n size : nat) (grid : Q) (relu_slopes : list (list Q))
    (cv : list Q) (i : nat) : result (list Q) :=
  c1 ← column cv n size (Z.of_nat (i - 1));
  c2 ← column cv n size (Z.of_nat (i - 2));
  s ← slopes_column relu_slopes (i - 2);
  if decide (length s = n) then
    Ok (set_column cv size i
          (zip_with Qplus
             (zip_with Qplus (zip_with Qminus c1 c2) ((fun a => a * grid) <$> s))
             c1))
  else Raise RuntimeError.

(** The module with its stored coefficient vector replaced *)
Definition set_coefficients (m : DeepBSplineBase) (cv : list Q) : DeepBSplineBase :=
  {| num_activations := num_activations m; size := size m; grid := grid m;
     coefficients_vect_ := cv; save_memory := save_memory m |}.

(** [iterative_relu_slopes_to_coefficients]: [coefficients] is a view of
    the stored vector, so the assignments write into the module's state.
    The result is the state after the call and the returned tensor (the
    content of that same storage).  The call is made under
    [torch.no_grad()], as [apply_threshold] does. *)
Definition iterative_relu_slopes_to_coefficients (m : DeepBSplineBase)
    (relu_slopes : list (list Q)) : result (DeepBSplineBase * list Q) :=
  _ ← view_check (coefficients_vect_ m) (num_activations m) (size m);
  let coefficients := set_columns_from (coefficients_vect_ m) (size m) 2 0 in
  coefficients ← for_each
      (iterative_step (num_activations m) (size m) (grid m) relu_slopes)
      coefficients (seq 2 (size m - 2));
  Ok (set_coefficients m coefficients, coefficients).

(** *** The sparsifier *)

Section Sparsifier.

(** [super().apply_threshold(threshold)]: the method of the parent class
    [DeepSplineBase], which returns the thresholded slopes; its file is not
    part of the sources, so it is a parameter here. *)
Variable super_apply_threshold : DeepBSplineBase -> Q -> result (list (list Q)).

(** [DeepBSplineBase.apply_threshold] *)
Definition apply_threshold (m : DeepBSplineBase) (threshold : Q)
  : result DeepBSplineBase :=
  new_relu_slopes ← super_apply_threshold m threshold;
  '(m', coefficients) ← iterative_relu_slopes_to_coefficients m new_relu_slopes;
  Ok (set_coefficients m' coefficients).

End Sparsifier.

(** The thresholding of one row of slopes, for [threshold_slopes] below *)
Definition threshold_row (threshold : Q) (r : list Q) : list Q :=
  (fun a => if Qlt_le_dec (Qabs a) threshold then 0 else a) <$> r.

(** Modelled from the spec: [DeepSplineBase.apply_threshold], the method of
    the parent class (not among the sources) that [super().apply_threshold]
    calls: "compute relu_slopes; zero every entry with absolute value below
    threshold". *)
Definition threshold_slopes (m : DeepBSplineBase) (threshold : Q)
  : result (list (list Q)) :=
  slopes ← relu_slopes m;
  Ok (threshold_row threshold <$> (slopes : list (list Q))).

(** ** Regularisation and the Lipschitz bound ([basemodel.py]) *)

(** The input that evaluates every activation of a layer at the point [v] *)
Definition constant_input (n : nat) (v : Q) : Tensor :=
  {| dimB := 1; dimC := n; dimH := 1; dimW := 1; data := replicate n v |}.

(** Modelled from the spec: [module.totalVariation()], a method of the
    parent class [DeepSplineBase] (not among the sources): "L1 norm of
    relu_slopes summed over knots, per activation unit"; the module
    docstring of deepBspline_base.py says the same, TV(2) = ||a||_1.  The
    keyword [mode] that [TV_BV] passes is not modelled. *)
Definition totalVariation (m : DeepBSplineBase) : result (list Q) :=
  slopes ← relu_slopes m;
  Ok ((fun r : list Q => sumQ (Qabs <$> r)) <$> (slopes : list (list Q))).

(** The sum [|f(a)| + |f(b)|] of every activation of a layer, [f] being
    evaluated by [forward] *)
Definition boundary_abs (a b : Q) (m : DeepBSplineBase) : result (list Q) :=
  fa ← forward_data m (constant_input (num_activations m) a);
  fb ← forward_data m (constant_input (num_activations m) b);
  Ok (zip_with (fun u v => Qabs u + Qabs v) fa fb).

(** [module.fZerofOneAbs()], a method of the parent class [DeepSplineBase]
    (not among the sources), modelled from its name and from the docstring
    of [lipschitz_bound]:
    [||s_l||_BV(2) = sum_n TV(2)(s_n) + |s_n(0)| + |s_n(1)|]. *)
Definition fZerofOneAbs (m : DeepBSplineBase) : result (list Q) :=
  boundary_abs 0 1 m.


(** The modules of a network that [self.modules()] visits *)
Inductive Module :=
| DeepSpline (m : DeepBSplineBase)
| Linear (weight : list Q)
| Conv2d (weight : list Q)
| OtherModule.

(** [weight.data.abs().max()]; [max] of an empty tensor is a runtime error *)
Definition abs_max (weight : list Q) : result Q :=
  match weight with
  | [] => Raise RuntimeError
  | a :: w => Ok (foldl Qmax (Qabs a) (Qabs <$> w))
  end.

(** The loop of [lipschitz_bound] over the modules *)
Fixpoint lipschitz_loop (modules : list Module) (bv_product max_weights_product : Q)
  : result (Q * Q) :=
  match modules with
  | [] => Ok (bv_product, max_weights_product)
  | DeepSpline m :: rest =>
      module_tv ← totalVariation m;
      module_fzero_fone ← fZerofOneAbs m;
      lipschitz_loop rest
        (bv_product * (sumQ module_tv + sumQ module_fzero_fone))
        max_weights_product
  | Linear weight :: rest | Conv2d weight :: rest =>
      mx ← abs_max weight;
      lipschitz_loop rest bv_product (max_weights_product * mx)
  | OtherModule :: rest => lipschitz_loop rest bv_product max_weights_product
  end.

Definition lipschitz_bound (modules : list Module) : result Q :=
  '(bv_product, max_weights_product) ← lipschitz_loop modules 1 1;
  Ok (max_weights_product * bv_product).

(** [t.norm(p=1)] *)
Definition norm1 (t : list Q) : Q := sumQ (Qabs <$> t).

(** The value [module_tv_bv] of one spline module in [TV_BV] *)
Definition module_tv_bv (lipschitz : bool) (m : DeepBSplineBase) : result (list Q) :=
  tv ← totalVariation m;
  if lipschitz then fz ← fZerofOneAbs m; Ok (zip_with Qplus tv fz) else Ok tv.

(** The loop of [TV_BV]: the weighted and the unweighted sum *)
Fixpoint TV_BV_loop (lipschitz : bool) (lmbda : Q) (modules : list Module)
    (tv_bv tv_bv_unweighted : Q) : result (Q * Q) :=
  match modules with
  | [] => Ok (tv_bv, tv_bv_unweighted)
  | DeepSpline m :: rest =>
      v ← module_tv_bv lipschitz m;
      TV_BV_loop lipschitz lmbda rest
        (tv_bv + lmbda * norm1 v) (tv_bv_unweighted + norm1 v)
  | _ :: rest => TV_BV_loop lipschitz lmbda rest tv_bv tv_bv_unweighted
  end.

Definition TV_BV (lipschitz : bool) (lmbda : Q) (modules : list Module)
  : result (Q * Q) :=
  TV_BV_loop lipschitz lmbda modules 0 0.

(** ** Evaluated forms, used to state what the kernel returns *)

(** Sum of [F k] over the positions [k < N] *)
Definition psum (N : nat) (F : nat -> Q) : Q := sumQ (F <$> seq 0 N).


(** The indexes of a batch, as a total function of the input *)
Definition idx_of (grid : Q) (size : nat) (x : Tensor) : list Z :=
  imap (fun k v => indexes grid size (channel_of x k) v) (data x).

(** The boundary slopes, as total functions of the state *)
Definition slopes_left (m : DeepBSplineBase) : list Q :=
  zip_with (fun a b => (a - b) / grid m)
    ((fun r => coefficients_vect_ m !!! (r * size m + 1)%nat)
       <$> seq 0 (num_activations m))
    ((fun r => coefficients_vect_ m !!! (r * size m + 0)%nat)
       <$> seq 0 (num_activations m)).

Definition slopes_right (m : DeepBSplineBase) : list Q :=
  zip_with (fun a b => (a - b) / grid m)
    ((fun r => coefficients_vect_ m !!! (r * size m + (size m - 1))%nat)
       <$> seq 0 (num_activations m))
    ((fun r => coefficients_vect_ m !!! (r * size m + (size m - 2))%nat)
       <$> seq 0 (num_activations m)).

(** The linear extrapolation term of every element *)
Definition ext_of (m : DeepBSplineBase) (x : Tensor) : list Q :=
  zip_with Qplus
    (zip_with Qmult (left_excess (grid m) (size m) <$> data x)
       (imap (fun k _ => slopes_left m !!! channel_of x k) (data x)))
    (zip_with Qmult (right_excess (grid m) (size m) <$> data x)
       (imap (fun k _ => slopes_right m !!! channel_of x k) (data x))).

(** The interpolated value of every element *)
Definition act_of (m : DeepBSplineBase) (x : Tensor) : list Q :=
  zip_with Qplus
    (zip_with Qmult
       ((fun j => coefficients_vect_ m !!! Z.to_nat j)
          <$> (Z.succ <$> idx_of (grid m) (size m) x))
       (fracs (grid m) (size m) <$> data x))
    (zip_with (fun c f => c * (1 - f))
       ((fun j => coefficients_vect_ m !!! Z.to_nat j) <$> idx_of (grid m) (size m) x)
       (fracs (grid m) (size m) <$> data x)).







(** The graph [forward] records *)
Definition graph_of (m : DeepBSplineBase) (x : Tensor) : Graph :=
  if save_memory m
  then mkGraph (SavedInput x (coefficients_vect_ m) (grid m)
                  (zero_knot_indexes m) (size m)) None
  else mkGraph (SavedFracs (fracs (grid m) (size m) <$> data x)
                  (coefficients_vect_ m) (idx_of (grid m) (size m) x) (grid m))
               (Some (left_excess (grid m) (size m) <$> data x,
                      right_excess (grid m) (size m) <$> data x)).



(** ** Statements about the conversion loop and the bounds *)

Definition slopes_shape (n size : nat) (slopes : list (list Q)) : Prop :=
  length slopes = n /\ Forall (fun r : list Q => length r = (size - 2)%nat) slopes.

(** The recurrence at row [r], column [c], exactly as the loop body
    computes it *)
Definition rec_eq (size : nat) (grid : Q) (slopes : list (list Q)) (cv : list Q)
    (r c : nat) : Prop :=
  cv !!! (r * size + c)%nat
  = (cv !!! (r * size + (c - 1))%nat - cv !!! (r * size + (c - 2))%nat)
    + (slopes !!! r) !!! (c - 2)%nat * grid
    + cv !!! (r * size + (c - 1))%nat.

(** The loop invariant before column [a] is written: [cv0] is the vector
    the loop started from *)
Definition loop_inv (n size : nat) (grid : Q) (slopes : list (list Q))
    (cv0 : list Q) (a : nat) (cv : list Q) : Prop :=
  length cv = (n * size)%nat /\
  (forall k, (k mod size < 2)%nat -> cv !! k = cv0 !! k) /\
  (forall r c, (r < n)%nat -> (2 <= c < a)%nat -> rec_eq size grid slopes cv r c).

(** Entry [j] of the slopes of row [r], as [conv1d] computes it *)
Definition slope_at (m : DeepBSplineBase) (r j : nat) : Q :=
  sumQ (imap (fun t w => w * row (coefficients_vect_ m) (size m) r !!! (j + t)%nat)
             (D2_filter (grid m))).

Definition slopes_of (m : DeepBSplineBase) : list (list Q) :=
  (fun r => slope_at m r <$> seq 0 (size m - 2)) <$> seq 0 (num_activations m).

(** A network whose weights have grown in magnitude, module by module *)
Inductive grown : Module -> Module -> Prop :=
| grown_same M : grown M M
| grown_linear w q v :
    (forall old, w !! q = Some old -> Qabs old <= Qabs v) ->
    grown (Linear w) (Linear (<[q := v]> w))
| grown_conv w q v :
    (forall old, w !! q = Some old -> Qabs old <= Qabs v) ->
    grown (Conv2d w) (Conv2d (<[q := v]> w)).

(** The weight tensors and the spline modules of a network, in order *)
Definition weights_of (modules : list Module) : list (list Q) :=
  omap (fun M => match M with
                 | Linear w | Conv2d w => Some w
                 | _ => None
                 end) modules.

Definition splines_of (modules : list Module) : list DeepBSplineBase :=
  omap (fun M => match M with DeepSpline m => Some m | _ => None end) modules.

(** A module on which [lipschitz_bound] can run: a valid spline state, a
    weight tensor with at least one entry *)
Definition module_ok (M : Module) : Prop :=
  match M with
  | DeepSpline m => valid_state m
  | Linear w | Conv2d w => w <> []
  | OtherModule => True
  end.

(** [module_tv.sum() + module_fzero_fone.sum()], the factor of one spline
    module in [lipschitz_bound] *)
Definition bv_sum (m : DeepBSplineBase) : result Q :=
  module_tv ← totalVariation m;
  module_fzero_fone ← fZerofOneAbs m;
  Ok (sumQ module_tv + sumQ module_fzero_fone).

Definition prodQ (l : list Q) : Q := foldr Qmult 1 l.

Definition no_assertion {A} (r : result A) : Prop := r <> Raise AssertionError.

Definition in_range (grid : Q) (size : nat) (v : Q) : Prop :=
  - (grid * half size) <= v <= grid * half_m1 size.

(** The weight entry [q] of the module at position [p], if that module is a
    linear or convolutional layer, and the network with that entry replaced *)
Definition weight_entry (modules : list Module) (p q : nat) : option Q :=
  match modules !! p with
  | Some (Linear w) | Some (Conv2d w) => w !! q
  | _ => None
  end.

Definition replace_weight (modules : list Module) (p q : nat) (v : Q)
  : list Module :=
  match modules !! p with
  | Some (Linear w) => <[p := Linear (<[q := v]> w)]> modules
  | Some (Conv2d w) => <[p := Conv2d (<[q := v]> w)]> modules
  | _ => modules
  end.

(** ** Worked examples *)

Definition example_module (save : bool) : DeepBSplineBase :=
  {| num_activations := 1; size := 5; grid := 1;
     coefficients_vect_ := [0; 1; 2; 3; 4]; save_memory := save |}.

Definition scalar_input (v : Q) : Tensor :=
  {| dimB := 1; dimC := 1; dimH := 1; dimW := 1; data := [v] |}.

(** A batch of two samples for a layer of one activation, and the same
    data declared with two channels *)
Definition batch_one_channel : Tensor :=
  {| dimB := 2; dimC := 1; dimH := 1; dimW := 1; data := [1 # 2; -10] |}.

Definition batch_two_channels : Tensor :=
  {| dimB := 1; dimC := 2; dimH := 1; dimW := 1; data := [1 # 2; -10] |}.

(** A layer of two activations with [size = 3], [grid = 1/2], and a batch
    of two samples reaching every case: left of the range, inside it,
    right of it, and on a knot *)
Definition two_unit_module : DeepBSplineBase :=
  {| num_activations := 2; size := 3; grid := 1 # 2;
     coefficients_vect_ := [1; -2; 4; 0; 3; -1]; save_memory := false |}.

Definition two_unit_batch : Tensor :=
  {| dimB := 2; dimC := 2; dimH := 1; dimW := 1;
     data := [-3; -1 # 4; 7; -1 # 2] |}.


(** A state whose third coefficient does not continue the line through the
    first two *)
Definition bent_module : DeepBSplineBase :=
  {| num_activations := 1; size := 3; grid := 1;
     coefficients_vect_ := [0; 1; 5]; save_memory := false |}.

(** A small network: a linear layer, a spline layer, a module without
    weights, a convolution *)
Definition example_network : list Module :=
  [Linear [1; -3; 2]; DeepSpline two_unit_module; OtherModule; Conv2d [1 # 2]].


(** ** The knot locations ([grid_tensor]) and the sampled activations *)

(** [torch.arange(lo, hi)] *)
Definition arange (lo hi : Z) : list Z :=
  (fun k => (lo + Z.of_nat k)%Z) <$> seq 0 (Z.to_nat (hi - lo)).

(** [v.expand((nrows, ncols))] of a 1-D tensor, as the list of the rows: the
    length of [v] has to be [ncols], or 1 (the single entry is then
    broadcast); any other length is a runtime error. *)
Definition expand_rows (v : list Q) (nrows ncols : nat) : result (list (list Q)) :=
  if decide (length v = ncols) then Ok (replicate nrows v)
  else if decide (length v = 1%nat)
       then Ok (replicate nrows (replicate ncols (v !!! 0%nat)))
       else Raise RuntimeError.

(** [get_grid_tensor]:
    [torch.arange(-(size_//2), (size_//2)+1).mul(grid_)] expanded to
    [(num_activations, size_)] *)
Definition get_grid_tensor (m : DeepBSplineBase) (size_ : nat) (grid_ : Q)
  : result (list (list Q)) :=
  let grid_arange :=
    (fun k => inject_Z k * grid_)
      <$> arange (- Z.of_nat (size_ / 2)) (Z.of_nat (size_ / 2) + 1) in
  expand_rows grid_arange (num_activations m) size_.

(** The property [grid_tensor] *)
Definition grid_tensor (m : DeepBSplineBase) : result (list (list Q)) :=
  get_grid_tensor m (size m) (grid m).

(** [t.transpose(0,1)] of a 2-D tensor of shape [(nrows, ncols)] given by
    its rows, as the input of a layer: shape [(ncols, nrows, 1, 1)], which
    is what [unsqueeze(-1).unsqueeze(-1)] gives for a convolutional layer and
    what the parent's [reshape_forward] gives for a fully-connected one. *)
Definition transposed_input (rows : list (list Q)) (nrows ncols : nat) : Tensor :=
  {| dimB := ncols; dimC := nrows; dimH := 1; dimW := 1;
     data := (fun k => (rows !!! (k mod nrows)%nat) !!! (k / nrows)%nat)
               <$> seq 0 (ncols * nrows) |}.

(** [output.transpose(0, 1)] (and the two [squeeze(-1)]): the rows of the
    [(dimC, dimB)] result *)
Definition transposed_output (t : Tensor) : list (list Q) :=
  (fun i => (fun s => data t !!! (s * dimC t + i)%nat) <$> seq 0 (dimB t))
    <$> seq 0 (dimC t).

(** The entries ['x'] and ['y'] that [get_deepspline_activations] records
    for one spline module: the knot locations and the module's output on
    them.  (The name and the sparsity mask of the entry come from the parent
    class, which is not among the sources.) *)
Definition deepspline_activation (m : DeepBSplineBase)
  : result (list (list Q) * list (list Q)) :=
  grid_tensor ← grid_tensor m;
  let input := transposed_input grid_tensor (num_activations m) (size m) in
  '(output, _) ← forward m input;
  Ok (grid_tensor, transposed_output output).

(** [get_deepspline_activations]: one entry per spline module, in order *)
Definition get_deepspline_activations (modules : list Module)
  : result (list (list (list Q) * list (list Q))) :=
  mapM deepspline_activation (splines_of modules).

(** ** The first-difference filter and the ReLU representation *)

(** [self.D1_filter = Tensor([-1,1]).view(1,1,2).div(self.grid)] *)
Definition D1_filter (grid : Q) : list Q := (fun w => w / grid) <$> [-1; 1].

(** [ReLU] *)
Definition relu (q : Q) : Q := Qmax q 0.

(** The location of knot [s] of an activation: [grid * (s - size//2)] *)
Definition knot (grid : Q) (size s : nat) : Q :=
  grid * (inject_Z (Z.of_nat s) - half size).

(** The ReLU representation of the module docstring,
    [sum_k a_k * ReLU(x - kT) + (b1*x + b0)], for slopes [a] placed on the
    interior knots and the linear term through the first two coefficients
    [c0], [c1] *)
Definition relu_expansion (grid : Q) (size : nat) (c0 c1 : Q) (a : list Q)
    (v : Q) : Q :=
  c0 + (c1 - c0) / grid * (v - knot grid size 0)
  + psum (size - 2) (fun j => a !!! j * relu (v - knot grid size (j + 1))).

(** ** Sparsification of a network ([basemodel.py]) *)

Section Sparsify.

Variable super_apply_threshold : DeepBSplineBase -> Q -> result (list (list Q)).

(** [sparsify_activations]: [module.apply_threshold(slope_diff_threshold)]
    on every spline module, in the order of [self.modules()]; the result is
    the network after the calls. *)
Fixpoint sparsify_activations (slope_diff_threshold : Q) (modules : list Module)
  : result (list Module) :=
  match modules with
  | [] => Ok []
  | DeepSpline m :: rest =>
      m' ← apply_threshold super_apply_threshold m slope_diff_threshold;
      rest' ← sparsify_activations slope_diff_threshold rest;
      Ok (DeepSpline m' :: rest')
  | M :: rest =>
      rest' ← sparsify_activations slope_diff_threshold rest;
      Ok (M :: rest')
  end.

End Sparsify.

(** What [apply_threshold] keeps of a spline module *)
Definition same_linear_term (m m' : DeepBSplineBase) : Prop :=
  num_activations m' = num_activations m /\ size m' = size m /\
  grid m' = grid m /\
  length (coefficients_vect_ m') = length (coefficients_vect_ m) /\
  forall r s, (s < 2)%nat -> (2 <= size m)%nat ->
    coefficients_vect_ m' !! (r * size m + s)%nat
    = coefficients_vect_ m !! (r * size m + s)%nat.

(** ** Parameters of the network ([basemodel.py]) *)

(** Errors raised by the methods of [BaseModel] below *)
Inductive ModelError := AttributeError.

(** A generator consumed to its end: the values it yielded, or the error
    that stopped it.  In the generators below an error can only arise at
    the first element, before anything is yielded. *)
Inductive outcome (A : Type) : Type :=
| Yields (a : A)
| Fails (e : ModelError).

Arguments Yields {A} a.

Arguments Fails {A} e.

(** [name.endswith(param_name)] *)
Definition endswith (name param_name : String.string) : bool :=
  (String.length param_name <=? String.length name)%nat &&
  String.eqb
    (String.substring (String.length name - String.length param_name)
       (String.length param_name) name)
    param_name.

(** The flag [deepspline_param] after the loop over
    [self.deepspline.parameter_names()] *)
Definition deepspline_param (parameter_names : list String.string)
    (name : String.string) : bool :=
  foldl (fun flag param_name => if endswith name param_name then true else flag)
        false parameter_names.

(** A named parameter: its name and its data.  [deepspline] below is
    [None] when [self.deepspline] is [None], and otherwise the list that the
    class method [parameter_names()] of the activation class returns (the
    activation classes are not among the sources). *)
Definition NamedParameter : Type := String.string * list Q.

(** [named_parameters_no_deepspline] *)
Fixpoint named_parameters_no_deepspline (deepspline : option (list String.string))
    (named_parameters : list NamedParameter) : outcome (list NamedParameter) :=
  match named_parameters with
  | [] => Yields []
  | (name, param) :: rest =>
      let flag := match deepspline with
                  | Some parameter_names => deepspline_param parameter_names name
                  | None => false
                  end in
      match named_parameters_no_deepspline deepspline rest with
      | Yields rest' =>
          Yields (if flag then rest' else (name, param) :: rest')
      | Fails e => Fails e
      end
  end.

(** [named_parameters_deepspline]: [self.deepspline.parameter_names()] is
    evaluated for every parameter, which is an [AttributeError] when
    [self.deepspline] is [None]; the handler prints and re-raises. *)
Fixpoint named_parameters_deepspline (deepspline : option (list String.string))
    (named_parameters : list NamedParameter) : outcome (list NamedParameter) :=
  match named_parameters with
  | [] => Yields []
  | (name, param) :: rest =>
      match deepspline with
      | None => Fails AttributeError
      | Some parameter_names =>
          match named_parameters_deepspline deepspline rest with
          | Yields rest' =>
              Yields (if deepspline_param parameter_names name
                      then (name, param) :: rest' else rest')
          | Fails e => Fails e
          end
      end
  end.

(** [get_num_params] over a list of named parameters: the sum of
    [torch.numel(param)] *)
Definition get_num_params (named_parameters : list NamedParameter) : nat :=
  foldl (fun num_params p => (num_params + length p.2)%nat) 0%nat named_parameters.

(** The parameters that [weight_decay] looks at in one module:
    [module.weight] and [module.bias] when the attribute exists and is an
    [nn.Parameter], [None] otherwise *)
Record Penalised := mkPenalised {
  weight : option (list Q);
  bias : option (list Q)
}.

(** [t.pow(2).sum()] *)
Definition pow2_sum (t : list Q) : Q := sumQ ((fun w => w * w) <$> t).

(** The loop of [weight_decay]; [weight_decay] is
    [self.params['weight_decay']] *)
Fixpoint weight_decay_loop (weight_decay : Q) (modules : list Penalised) (wd : Q)
  : Q :=
  match modules with
  | [] => wd
  | M :: rest =>
      let wd := match weight M with
                | Some w => wd + weight_decay / 2 * pow2_sum w
                | None => wd
                end in
      let wd := match bias M with
                | Some b => wd + weight_decay / 2 * pow2_sum b
                | None => wd
                end in
      weight_decay_loop weight_decay rest wd
  end.

Definition weight_decay (params_weight_decay : Q) (modules : list Penalised) : Q :=
  weight_decay_loop params_weight_decay modules 0.

(** All the entries [weight_decay] penalises, in order *)
Definition penalised_entries (modules : list Penalised) : list Q :=
  modules ≫= (fun M => default [] (weight M) ++ default [] (bias M)).

(** ** Evaluated forms of the parts above *)

(** [coefficients[r, s]] on the [(num_activations, size)] view *)
Definition coefficient (m : DeepBSplineBase) (r s : nat) : Q :=
  coefficients_vect_ m !!! (r * size m + s)%nat.

(** The output of [forward] at an element [v] of channel [i]: the
    interpolation between the two coefficients read, plus the two
    extrapolation products *)
Definition spline_at (m : DeepBSplineBase) (i : nat) (v : Q) : Q :=
  let I := indexes (grid m) (size m) i v in
  let fr := fracs (grid m) (size m) v in
  coefficients_vect_ m !!! Z.to_nat (Z.succ I) * fr
  + coefficients_vect_ m !!! Z.to_nat I * (1 - fr)
  + (left_excess (grid m) (size m) v * slopes_left m !!! i
     + right_excess (grid m) (size m) v * slopes_right m !!! i).

(** The knot locations of one activation, and the evaluated form of
    [deepspline_activation] *)
Definition knot_row (size : nat) (grid : Q) : list Q :=
  (fun k => inject_Z k * grid)
    <$> arange (- Z.of_nat (size / 2)) (Z.of_nat (size / 2) + 1).

Definition knots_input (m : DeepBSplineBase) : Tensor :=
  transposed_input (replicate (num_activations m) (knot_row (size m) (grid m)))
    (num_activations m) (size m).

Definition sampled (m : DeepBSplineBase) : list (list Q) * list (list Q) :=
  (replicate (num_activations m) (knot_row (size m) (grid m)),
   transposed_output
     (with_data (knots_input m)
        (zip_with Qplus (act_of m (knots_input m)) (ext_of m (knots_input m))))).


(** ** Further worked examples *)

(** A layer with an even number of coefficients *)
Definition even_module : DeepBSplineBase :=
  {| num_activations := 1; size := 4; grid := 1;
     coefficients_vect_ := [0; 1; 2; 3]; save_memory := false |}.

(** A state with the coefficients of [bent_module] shifted by a linear term *)
Definition tilted_module : DeepBSplineBase :=
  {| num_activations := 1; size := 3; grid := 1;
     coefficients_vect_ := [7; 5; 6]; save_memory := false |}.

(** States outside the invariant: a vector one entry short, and a layer
    with two coefficients per activation *)
Definition short_module : DeepBSplineBase :=
  {| num_activations := 1; size := 3; grid := 1;
     coefficients_vect_ := [0; 1]; save_memory := false |}.

Definition two_knot_module : DeepBSplineBase :=
  {| num_activations := 1; size := 2; grid := 1;
     coefficients_vect_ := [0; 1]; save_memory := false |}.

(** A convolution with bias, a layer without parameters, a linear layer
    without bias *)
Definition example_penalised : list Penalised :=
  [mkPenalised (Some [1; -2]) (Some [3]); mkPenalised None None;
   mkPenalised (Some [1 # 2]) None].

(** The named parameters of a small network with one spline activation *)
Definition example_named_parameters : list NamedParameter :=
  [("conv1.weight"%string, [1; -2]);
   ("activations.0.coefficients_vect"%string, [0; 1; 2]);
   ("fc.bias"%string, [3])].

(** * Part II: supporting lemmas *)

(** ** Facts about the scalar operations *)

Lemma clamp_cases lo hi x :
  lo <= hi ->
  (x <= lo /\ clamp lo hi x == lo) \/
  (lo <= x <= hi /\ clamp lo hi x == x) \/
  (hi <= x /\ clamp lo hi x == hi).
Proof.
  intros Hlh. unfold clamp.
  destruct (Q.max_spec x lo) as [[H1 E1]|[H1 E1]];
    destruct (Q.min_spec (Qmax x lo) hi) as [[H2 E2]|[H2 E2]];
    rewrite E1 in *; rewrite E2.
  - left; split; [lra | reflexivity].
  - left. split; [lra |]. apply Qle_antisym; lra.
  - right; left. split; [lra | reflexivity].
  - right; right. split; [lra | reflexivity].
Qed.

Lemma clamp_max_cases hi x :
  (x <= hi /\ clamp_max hi x == x) \/ (hi <= x /\ clamp_max hi x == hi).
Proof.
  unfold clamp_max. destruct (Q.min_spec x hi) as [[H E]|[H E]]; rewrite E.
  - left; split; [lra | reflexivity].
  - right; split; [lra | reflexivity].
Qed.

Lemma clamp_min_cases lo x :
  (lo <= x /\ clamp_min lo x == x) \/ (x <= lo /\ clamp_min lo x == lo).
Proof.
  unfold clamp_min. destruct (Q.max_spec x lo) as [[H E]|[H E]]; rewrite E.
  - right; split; [lra | reflexivity].
  - left; split; [lra | reflexivity].
Qed.

Lemma long_integer q z : q == inject_Z z -> long q = z.
Proof.
  unfold long, Qeq; simpl. intros H.
  assert (Qnum q = z * Z.pos (Qden q))%Z as -> by lia.
  apply Z.quot_mul. discriminate.
Qed.

Lemma inject_Z_sub a b : inject_Z (a - b) == inject_Z a - inject_Z b.
Proof. unfold Z.sub. rewrite inject_Z_plus, inject_Z_opp. reflexivity. Qed.

Section KernelFacts.

Variable grid : Q.

Variable size : nat.

Hypothesis grid_pos : 0 < grid.

Hypothesis size_odd : (size mod 2 = 1)%nat.

Hypothesis size_ge3 : (3 <= size)%nat.

Let h : Z := Z.of_nat (size / 2).

Lemma half_m1_eq : half_m1 size == half size - 1.
Proof. unfold half_m1, half. rewrite inject_Z_sub. reflexivity. Qed.

Lemma half_ge1 : 1 <= half size.
Proof.
  unfold half. change 1 with (inject_Z 1). rewrite <- Zle_Qle. lia.
Qed.

Lemma grid_half_nonneg : 0 <= grid * (half size - 1).
Proof. pose proof half_ge1. apply Qmult_le_0_compat; lra. Qed.

Lemma clamp_range_ordered : - (grid * half size) <= grid * half_m1 size.
Proof. rewrite half_m1_eq. pose proof grid_half_nonneg. lra. Qed.

(** The clamped value, in grid units, lies between the first and the
    second-to-last knot. *)
Lemma x_clamped_bounds x :
  - half size <= x_clamped grid size x / grid <= half size - 1.
Proof.
  unfold x_clamped.
  destruct (clamp_cases _ _ x clamp_range_ordered) as [[H E]|[[H E]|[H E]]];
    rewrite E; rewrite ?half_m1_eq in *.
  - split.
    + apply Qle_shift_div_l; [done | lra].
    + apply Qle_shift_div_r; [done |]. pose proof grid_half_nonneg. lra.
  - split.
    + apply Qle_shift_div_l; [done | lra].
    + apply Qle_shift_div_r; [done | lra].
  - split.
    + apply Qle_shift_div_l; [done |]. pose proof grid_half_nonneg. lra.
    + apply Qle_shift_div_r; [done | lra].
Qed.

Lemma floored_x_int x :
  floored_x grid size x = inject_Z (Qfloor (x_clamped grid size x / grid)).
Proof. reflexivity. Qed.

Lemma Qfloor_x_bounds x :
  (- h <= Qfloor (x_clamped grid size x / grid) <= h - 1)%Z.
Proof.
  destruct (x_clamped_bounds x) as [Hlo Hhi]. split.
  - rewrite <- (Qfloor_Z (- h)). apply Qfloor_resp_le.
    rewrite inject_Z_opp. exact Hlo.
  - rewrite <- (Qfloor_Z (h - 1)). apply Qfloor_resp_le.
    rewrite inject_Z_sub. exact Hhi.
Qed.

Lemma index_at_eq zk x :
  index_at grid size zk x = (zk + Qfloor (x_clamped grid size x / grid))%Z.
Proof.
  unfold index_at. apply long_integer.
  rewrite floored_x_int, inject_Z_plus. reflexivity.
Qed.

Lemma indexes_eq i x :
  indexes grid size i x =
  (Z.of_nat (i * size) + h + Qfloor (x_clamped grid size x / grid))%Z.
Proof.
  unfold indexes. rewrite index_at_eq. unfold zero_knot_index, h. lia.
Qed.

Lemma indexes_bounds i x :
  (Z.of_nat (i * size) <= indexes grid size i x
   <= Z.of_nat (i * size) + Z.of_nat size - 2)%Z.
Proof.
  rewrite indexes_eq. pose proof (Qfloor_x_bounds x) as Hf.
  assert (2 * h + 1 = Z.of_nat size)%Z by (unfold h; lia).
  lia.
Qed.

Lemma fracs_range x : 0 <= fracs grid size x < 1.
Proof.
  unfold fracs. rewrite floored_x_int.
  pose proof (Qfloor_le (x_clamped grid size x / grid)).
  pose proof (Qlt_floor (x_clamped grid size x / grid)) as Hlt.
  rewrite inject_Z_plus in Hlt. change (inject_Z 1) with 1 in Hlt.
  split; lra.
Qed.

End KernelFacts.

(** ** Generic facts: the monad, sums, gather and scatter *)

Lemma bind_Ok {A B} (a : A) (f : A -> result B) : (Ok a ≫= f) = f a.
Proof. reflexivity. Qed.

Lemma norm_index_nonneg n (k : nat) :
  (k < n)%nat -> norm_index n (Z.of_nat k) = Ok k.
Proof.
  intros Hk. unfold norm_index.
  destruct (decide _) as [_|Hn]; [| lia]. by rewrite Nat2Z.id.
Qed.

Lemma norm_index_neg n (k : nat) :
  (0 < k <= n)%nat -> norm_index n (- Z.of_nat k) = Ok (n - k)%nat.
Proof.
  intros Hk. unfold norm_index.
  destruct (decide _) as [?|_]; [lia |].
  destruct (decide _) as [_|?]; [| lia]. f_equal. lia.
Qed.

Lemma getitem_in_range v j :
  (0 <= j < Z.of_nat (length v))%Z -> getitem v j = Ok (v !!! Z.to_nat j).
Proof.
  intros Hj. unfold getitem.
  replace j with (Z.of_nat (Z.to_nat j)) at 1 by lia.
  rewrite norm_index_nonneg by lia. reflexivity.
Qed.

Lemma gather_in_range v index :
  Forall (fun j => 0 <= j < Z.of_nat (length v))%Z index ->
  gather v index = Ok (fmap (fun j => v !!! Z.to_nat j) index).
Proof.
  unfold gather. induction 1 as [|j index Hj _ IH]; [reflexivity |].
  cbn [mapM]. rewrite (getitem_in_range _ _ Hj), bind_Ok.
  rewrite IH. reflexivity.
Qed.

Lemma sumQ_nil : sumQ [] = 0.
Proof. reflexivity. Qed.

Lemma sumQ_cons a l : sumQ (a :: l) = a + sumQ l.
Proof. reflexivity. Qed.

Lemma sumQ_Forall2 l1 l2 : Forall2 Qeq l1 l2 -> sumQ l1 == sumQ l2.
Proof.
  induction 1 as [|a b l1 l2 Hab _ IH]; [reflexivity |].
  simpl. rewrite Hab, IH. reflexivity.
Qed.

Lemma sumQ_seq_ext F G s N :
  (forall k, (s <= k < s + N)%nat -> F k == G k) ->
  sumQ (F <$> seq s N) == sumQ (G <$> seq s N).
Proof.
  revert s. induction N as [|N IH]; intros s HFG; [reflexivity |].
  cbn [seq]. rewrite !fmap_cons, !sumQ_cons.
  rewrite (HFG s) by lia. rewrite (IH (S s)); [reflexivity |].
  intros k Hk. apply HFG. lia.
Qed.

Lemma psum_ext N F G :
  (forall k, (k < N)%nat -> F k == G k) -> psum N F == psum N G.
Proof. intros H. apply sumQ_seq_ext. intros k Hk. apply H. lia. Qed.

Lemma sumQ_seq_plus F G s N :
  sumQ ((fun k => F k + G k) <$> seq s N)
  == sumQ (F <$> seq s N) + sumQ (G <$> seq s N).
Proof.
  revert s. induction N as [|N IH]; intros s; cbn [seq];
    rewrite ?fmap_nil, ?fmap_cons, ?sumQ_nil, ?sumQ_cons; [lra |].
  rewrite IH. lra.
Qed.

Lemma psum_plus N F G : psum N (fun k => F k + G k) == psum N F + psum N G.
Proof. apply sumQ_seq_plus. Qed.

Lemma sumQ_seq_scale F c s N :
  sumQ ((fun k => F k * c) <$> seq s N) == sumQ (F <$> seq s N) * c.
Proof.
  revert s. induction N as [|N IH]; intros s; cbn [seq];
    rewrite ?fmap_nil, ?fmap_cons, ?sumQ_nil, ?sumQ_cons; [lra |].
  rewrite IH. lra.
Qed.

Lemma psum_scale N F c : psum N (fun k => F k * c) == psum N F * c.
Proof. apply sumQ_seq_scale. Qed.

Lemma sumQ_seq_zero s N : sumQ ((fun _ => 0) <$> seq s N) == 0.
Proof.
  revert s. induction N as [|N IH]; intros s; cbn [seq];
    rewrite ?fmap_nil, ?fmap_cons, ?sumQ_nil, ?sumQ_cons; [reflexivity |].
  rewrite IH. lra.
Qed.

Lemma psum_zero N F : (forall k, (k < N)%nat -> F k == 0) -> psum N F == 0.
Proof.
  intros H. rewrite (psum_ext N F (fun _ => 0) H). apply sumQ_seq_zero.
Qed.

(** A list of length [N] whose entries are [F k] has sum [psum N F]. *)
Lemma sumQ_psum (l : list Q) N F :
  length l = N -> (forall k, (k < N)%nat -> l !!! k == F k) ->
  sumQ l == psum N F.
Proof.
  intros Hlen Hl. apply sumQ_Forall2, Forall2_lookup. intros k.
  rewrite list_lookup_fmap.
  destruct (decide (k < N)%nat) as [Hk|Hk].
  - rewrite (list_lookup_lookup_total_lt l k) by lia.
    rewrite lookup_seq_lt by done. simpl. constructor. by apply Hl.
  - rewrite (lookup_ge_None_2 l k) by lia.
    rewrite lookup_seq_ge by lia. constructor.
Qed.


Lemma zip_with_total `{Inhabited A, Inhabited B, Inhabited C}
    (f : A -> B -> C) (l : list A) (k : list B) (i : nat) :
  (i < length l)%nat -> (i < length k)%nat ->
  zip_with f l k !!! i = f (l !!! i) (k !!! i).
Proof. apply lookup_total_zip_with. Qed.

Lemma fmap_total `{Inhabited A, Inhabited B} (f : A -> B) (l : list A) i :
  (i < length l)%nat -> (f <$> l) !!! i = f (l !!! i).
Proof. apply list_lookup_total_fmap. Qed.

Lemma imap_total `{Inhabited A, Inhabited B} (f : nat -> A -> B) (l : list A) i :
  (i < length l)%nat -> imap f l !!! i = f i (l !!! i).
Proof. apply list_lookup_total_imap. Qed.


(** ** Evaluation of the kernel on a well-formed state *)

Ltac ok_step H := rewrite H, bind_Ok; cbv beta iota.

Lemma channel_of_lt x k :
  wf_tensor x -> (k < length (data x))%nat -> (channel_of x k < dimC x)%nat.
Proof.
  unfold wf_tensor, numel, channel_of. intros Hwf Hk.
  apply Nat.mod_upper_bound. intros HC. rewrite HC in Hwf. nia.
Qed.

Lemma init_zero_knot_indexes_length n size :
  length (init_zero_knot_indexes n size) = n.
Proof. unfold init_zero_knot_indexes. by rewrite length_fmap, length_seq. Qed.

Lemma init_zero_knot_indexes_lookup n size c :
  (c < n)%nat -> init_zero_knot_indexes n size !!! c = zero_knot_index size c.
Proof.
  intros Hc. unfold init_zero_knot_indexes.
  rewrite fmap_total by (by rewrite length_seq).
  by rewrite lookup_total_seq_lt.
Qed.

Lemma idx_of_length grid size x : length (idx_of grid size x) = length (data x).
Proof. apply length_imap. Qed.

Lemma idx_of_lookup grid size x k :
  (k < length (data x))%nat ->
  idx_of grid size x !!! k = indexes grid size (channel_of x k) (data x !!! k).
Proof. intros Hk. unfold idx_of. by rewrite imap_total. Qed.

Lemma fracs_indexes_eval grid size n x :
  wf_tensor x -> dimC x = n ->
  fracs_indexes x grid (init_zero_knot_indexes n size) size
  = Ok (fracs grid size <$> data x, idx_of grid size x).
Proof.
  intros Hwf HC. unfold fracs_indexes, expand_channels.
  rewrite init_zero_knot_indexes_length.
  destruct (decide (n = dimC x)) as [_|?]; [| congruence].
  rewrite bind_Ok. do 2 f_equal. apply list_eq. intros k.
  unfold idx_of. rewrite lookup_zip_with, !list_lookup_imap.
  destruct (data x !! k) as [v|] eqn:Hv; [| reflexivity]. simpl.
  unfold indexes. rewrite init_zero_knot_indexes_lookup; [reflexivity |].
  rewrite <- HC. apply channel_of_lt; [done |]. by eapply lookup_lt_Some.
Qed.

Section Evaluation.

Variable m : DeepBSplineBase.

Hypothesis Hvalid : valid_state m.

Variable x : Tensor.

Hypothesis Hwf : wf_tensor x.

Hypothesis HC : dimC x = num_activations m.

Let n := num_activations m.

Let sz := size m.

Let gr := grid m.

Let cv := coefficients_vect_ m.

Lemma idx_of_range k :
  (k < length (data x))%nat ->
  (0 <= idx_of gr sz x !!! k /\
   idx_of gr sz x !!! k + 1 < Z.of_nat (length cv))%Z.
Proof.
  intros Hk. rewrite idx_of_lookup by done.
  destruct Hvalid as [Hg Ho Hs Hl].
  pose proof (indexes_bounds gr sz Hg Ho Hs (channel_of x k) (data x !!! k))
    as Hb.
  pose proof (channel_of_lt x k Hwf Hk) as Hc.
  unfold cv. rewrite Hl. fold n sz. rewrite HC in Hc. fold n in Hc.
  split; [lia |]. nia.
Qed.

Lemma idx_of_in_range :
  Forall (fun j => 0 <= j < Z.of_nat (length cv))%Z (idx_of gr sz x).
Proof.
  apply Forall_lookup. intros k j Hj.
  pose proof (lookup_lt_Some _ _ _ Hj) as Hk. rewrite idx_of_length in Hk.
  apply list_lookup_total_correct in Hj. subst j.
  pose proof (idx_of_range k Hk). lia.
Qed.

Lemma idx_of_succ_in_range :
  Forall (fun j => 0 <= j < Z.of_nat (length cv))%Z (Z.succ <$> idx_of gr sz x).
Proof.
  apply Forall_fmap, Forall_lookup. intros k j Hj.
  pose proof (lookup_lt_Some _ _ _ Hj) as Hk. rewrite idx_of_length in Hk.
  apply list_lookup_total_correct in Hj. subst j.
  pose proof (idx_of_range k Hk). simpl. lia.
Qed.

Lemma boundary_slopes_eval :
  boundary_slopes cv n sz gr = Ok (slopes_left m, slopes_right m).
Proof.
  destruct Hvalid as [Hg Ho Hs Hl].
  unfold boundary_slopes, view_check, column.
  destruct (decide _) as [_|Hn]; [| by destruct Hn].
  rewrite bind_Ok.
  change 1%Z with (Z.of_nat 1). change 0%Z with (Z.of_nat 0).
  change (-1)%Z with (- Z.of_nat 1)%Z. change (-2)%Z with (- Z.of_nat 2)%Z.
  rewrite !norm_index_nonneg by (fold sz in Hs; lia).
  rewrite !norm_index_neg by (fold sz in Hs; lia).
  reflexivity.
Qed.

Lemma slopes_left_length : length (slopes_left m) = n.
Proof.
  unfold slopes_left. rewrite length_zip_with, !length_fmap, length_seq.
  unfold n. lia.
Qed.

Lemma slopes_right_length : length (slopes_right m) = n.
Proof.
  unfold slopes_right. rewrite length_zip_with, !length_fmap, length_seq.
  unfold n. lia.
Qed.

Lemma linearExtrapolations_eval :
  linearExtrapolations x gr sz (slopes_left m) (slopes_right m)
  = Ok (ext_of m x).
Proof.
  unfold linearExtrapolations, expand_channels.
  rewrite slopes_left_length, slopes_right_length.
  destruct (decide _) as [_|Hn]; [| by destruct Hn].
  reflexivity.
Qed.

Lemma Func_forward_eval (save : bool) :
  Func_forward x cv gr (init_zero_knot_indexes n sz) sz save
  = Ok (if save then zip_with Qplus (act_of m x) (ext_of m x) else act_of m x,
        if save then SavedInput x cv gr (init_zero_knot_indexes n sz) sz
        else SavedFracs (fracs gr sz <$> data x) cv (idx_of gr sz x) gr).
Proof.
  unfold Func_forward.
  ok_step (fracs_indexes_eval gr sz n x Hwf HC).
  ok_step (gather_in_range _ _ idx_of_succ_in_range).
  ok_step (gather_in_range _ _ idx_of_in_range).
  destruct save; [| reflexivity].
  rewrite HC. fold n.
  ok_step boundary_slopes_eval.
  ok_step linearExtrapolations_eval.
  reflexivity.
Qed.

End Evaluation.

(** ** Outside the clamping range *)


Section ExcessFacts.

Variable grid : Q.

Variable size : nat.

Hypothesis grid_pos : 0 < grid.

Hypothesis size_odd : (size mod 2 = 1)%nat.

Hypothesis size_ge3 : (3 <= size)%nat.

Lemma indexes_of_clamped i v (z : Z) :
  x_clamped grid size v == grid * inject_Z z ->
  indexes grid size i v = (zero_knot_index size i + z)%Z.
Proof.
  intros E. unfold indexes. rewrite (index_at_eq grid size).
  f_equal. rewrite <- (Qfloor_Z z). apply Qfloor_comp.
  rewrite E. field. lra.
Qed.



End ExcessFacts.

(** ** The two backward passes, position by position *)

Ltac len :=
  rewrite ?length_zip_with, ?length_fmap, ?length_imap, ?idx_of_length,
    ?length_seq, ?length_replicate in *; lia.


Lemma psum_opp N F : - psum N F == psum N (fun k => - F k).
Proof.
  rewrite (psum_ext N (fun k => - F k) (fun k => F k * (-1 # 1))).
  - rewrite psum_scale. ring.
  - intros k _. ring.
Qed.

Section Gradients.

Variable m : DeepBSplineBase.

Hypothesis Hvalid : valid_state m.

Variable x : Tensor.

Hypothesis Hwf : wf_tensor x.

Hypothesis HC : dimC x = num_activations m.

Variable go : list Q.

Hypothesis Hgo : length go = length (data x).

Let n := num_activations m.

Let sz := size m.

Let gr := grid m.

Let cv := coefficients_vect_ m.

Let N := length (data x).


























End Gradients.

(** ** The module, evaluated *)


Lemma Forall2_Qeq_lookup (l1 l2 : list Q) :
  length l1 = length l2 ->
  (forall j, (j < length l1)%nat -> l1 !!! j == l2 !!! j) ->
  Forall2 Qeq l1 l2.
Proof.
  intros Hl Hv. apply Forall2_lookup. intros j.
  destruct (decide (j < length l1)%nat) as [Hj|Hj].
  - rewrite (list_lookup_lookup_total_lt l1 j) by lia.
    rewrite (list_lookup_lookup_total_lt l2 j) by lia.
    constructor. by apply Hv.
  - rewrite (lookup_ge_None_2 l1 j) by lia.
    rewrite (lookup_ge_None_2 l2 j) by lia. constructor.
Qed.

Section ModuleEvaluation.

Variable m : DeepBSplineBase.

Hypothesis Hvalid : valid_state m.

Variable x : Tensor.

Hypothesis Hwf : wf_tensor x.

Hypothesis HC : dimC x = num_activations m.

Lemma forward_eval :
  forward m x
  = Ok (with_data x (zip_with Qplus (act_of m x) (ext_of m x)), graph_of m x).
Proof.
  unfold forward, graph_of, zero_knot_indexes.
  destruct (decide _) as [_|Hn]; [| by destruct Hn].
  ok_step (Func_forward_eval m Hvalid x Hwf HC (save_memory m)).
  destruct (save_memory m); [reflexivity |].
  ok_step (boundary_slopes_eval m Hvalid x HC).
  ok_step (linearExtrapolations_eval m x HC).
  reflexivity.
Qed.

Variable grad_out : Tensor.

Hypothesis Hgo : length (data grad_out) = length (data x).


End ModuleEvaluation.

(** ** Facts about the conversion *)

Lemma bind_Ok_inv {A B} (c : result A) (f : A -> result B) b :
  (c ≫= f) = Ok b -> exists a, c = Ok a /\ f a = Ok b.
Proof. destruct c as [a|e]; [by exists a | discriminate]. Qed.

Lemma mapM_Ok {A B} (f : A -> result B) (g : A -> B) (l : list A) :
  (forall a, a ∈ l -> f a = Ok (g a)) -> mapM f l = Ok (g <$> l).
Proof.
  induction l as [|a l IH]; intros H; [reflexivity |].
  cbn [mapM]. rewrite (H a) by left. rewrite bind_Ok.
  rewrite IH; [reflexivity |]. intros a' Ha'. apply H. by right.
Qed.

Lemma set_column_length cv size i rhs : length (set_column cv size i rhs) = length cv.
Proof. apply length_imap. Qed.

Lemma set_column_lookup cv size i rhs k :
  (k < length cv)%nat ->
  set_column cv size i rhs !!! k
  = if decide (k mod size = i)%nat then rhs !!! (k / size)%nat else cv !!! k.
Proof. intros Hk. unfold set_column. by rewrite imap_total. Qed.

Lemma set_column_other cv size i rhs k :
  (k mod size <> i)%nat -> set_column cv size i rhs !! k = cv !! k.
Proof.
  intros Hk. unfold set_column. rewrite list_lookup_imap.
  destruct (cv !! k); [| reflexivity]. simpl.
  destruct (decide _); [done | reflexivity].
Qed.

Lemma set_columns_from_length cv size from v :
  length (set_columns_from cv size from v) = length cv.
Proof. apply length_imap. Qed.

Lemma set_columns_from_other cv size from v k :
  (k mod size < from)%nat -> set_columns_from cv size from v !! k = cv !! k.
Proof.
  intros Hk. unfold set_columns_from. rewrite list_lookup_imap.
  destruct (cv !! k); [| reflexivity]. simpl.
  destruct (decide _); [lia | reflexivity].
Qed.

(** Whatever the slopes are, a step that returns has written column [i]
    and nothing else. *)
Lemma iterative_step_writes n size grid slopes cv i cv' :
  iterative_step n size grid slopes cv i = Ok cv' ->
  exists rhs, cv' = set_column cv size i rhs.
Proof.
  unfold iterative_step. intros H.
  apply bind_Ok_inv in H as (c1 & _ & H).
  apply bind_Ok_inv in H as (c2 & _ & H).
  apply bind_Ok_inv in H as (s & _ & H).
  destruct (decide _); [| discriminate]. inversion H. by eexists.
Qed.

(** The loop leaves the first two columns of every row alone. *)
Lemma for_each_step_frame n size grid slopes l : forall cv cv',
  Forall (fun i => 2 <= i)%nat l ->
  for_each (iterative_step n size grid slopes) cv l = Ok cv' ->
  length cv' = length cv /\
  forall k, (k mod size < 2)%nat -> cv' !! k = cv !! k.
Proof.
  induction l as [|i l IH]; intros cv cv' Hl H.
  - inversion H. by split.
  - inversion Hl as [|? ? Hi Hl']; subst.
    cbn [for_each] in H. apply bind_Ok_inv in H as (cv1 & H1 & H).
    apply iterative_step_writes in H1 as (rhs & ->).
    destruct (IH _ _ Hl' H) as (Hlen & Hfr). split.
    + by rewrite Hlen, set_column_length.
    + intros k Hk. rewrite Hfr by done. apply set_column_other. lia.
Qed.

Lemma iterative_frame m slopes m' c :
  iterative_relu_slopes_to_coefficients m slopes = Ok (m', c) ->
  m' = set_coefficients m c /\
  length c = length (coefficients_vect_ m) /\
  forall k, (k mod size m < 2)%nat -> c !! k = coefficients_vect_ m !! k.
Proof.
  unfold iterative_relu_slopes_to_coefficients. intros H.
  apply bind_Ok_inv in H as (_ & _ & H). cbv zeta in H.
  apply bind_Ok_inv in H as (cv' & Hloop & H). inversion H; subst.
  split; [reflexivity |].
  apply for_each_step_frame in Hloop as (Hlen & Hfr).
  - split.
    + by rewrite Hlen, set_columns_from_length.
    + intros k Hk. rewrite Hfr by done. apply set_columns_from_other. lia.
  - apply Forall_forall. intros i Hi. apply elem_of_seq in Hi. lia.
Qed.

(** *** The loop on slopes of the right shape *)

Section Loop.

Variables (n size : nat) (grid : Q) (slopes : list (list Q)) (cv0 : list Q).

Hypothesis Hshape : slopes_shape n size slopes.

Lemma slopes_column_eval j :
  (j < size - 2)%nat ->
  slopes_column slopes j = Ok ((fun r : list Q => r !!! j) <$> slopes).
Proof.
  intros Hj. unfold slopes_column. apply mapM_Ok. intros r Hr.
  destruct Hshape as [_ Hrows].
  rewrite Forall_forall in Hrows. specialize (Hrows r Hr).
  rewrite (list_lookup_lookup_total_lt r j) by lia. reflexivity.
Qed.

Lemma column_eval cv (c : nat) :
  (c < size)%nat ->
  column cv n size (Z.of_nat c)
  = Ok ((fun r => cv !!! (r * size + c)%nat) <$> seq 0 n).
Proof. intros Hc. unfold column. by rewrite norm_index_nonneg. Qed.

Lemma iterative_step_inv a cv :
  (2 <= a < size)%nat -> loop_inv n size grid slopes cv0 a cv ->
  exists cv', iterative_step n size grid slopes cv a = Ok cv' /\ loop_inv n size grid slopes cv0 (S a) cv'.
Proof.
  intros Ha (Hlen & Hfr & Hrec). destruct Hshape as [Hrows _].
  unfold iterative_step.
  rewrite (column_eval cv (a - 1)) by lia. rewrite bind_Ok.
  rewrite (column_eval cv (a - 2)) by lia. rewrite bind_Ok.
  rewrite (slopes_column_eval (a - 2)) by lia. rewrite bind_Ok.
  rewrite length_fmap.
  destruct (decide _) as [_|Hn]; [| by destruct Hn].
  eexists. split; [reflexivity |].
  set (rhs := zip_with Qplus _ _).
  assert (Hpos : forall r c, (r < n)%nat -> (c < size)%nat ->
            (r * size + c < length cv)%nat) by (intros; rewrite Hlen; nia).
  assert (Hmod : forall r c, (c < size)%nat -> ((r * size + c) mod size = c)%nat).
  { intros r c Hc. rewrite Nat.add_comm, Nat.Div0.mod_add.
    apply Nat.mod_small; lia. }
  assert (Hdiv : forall r c, (c < size)%nat -> ((r * size + c) / size = r)%nat).
  { intros r c Hc. rewrite Nat.div_add_l by lia. rewrite Nat.div_small; lia. }
  assert (Hother : forall r c, (r < n)%nat -> (c < size)%nat -> c <> a ->
            set_column cv size a rhs !!! (r * size + c)%nat
            = cv !!! (r * size + c)%nat).
  { intros r c Hr Hc Hca. rewrite set_column_lookup by auto.
    rewrite Hmod by done. destruct (decide _); [done | reflexivity]. }
  assert (Hrhs : forall r, (r < n)%nat ->
            rhs !!! r
            = (cv !!! (r * size + (a - 1))%nat - cv !!! (r * size + (a - 2))%nat)
              + (slopes !!! r) !!! (a - 2)%nat * grid
              + cv !!! (r * size + (a - 1))%nat).
  { intros r Hr. unfold rhs.
    rewrite !zip_with_total by len. rewrite !fmap_total by len.
    by rewrite lookup_total_seq_lt. }
  split; [| split].
  - by rewrite set_column_length.
  - intros k Hk. rewrite set_column_other by lia. by apply Hfr.
  - intros r c Hr Hc. unfold rec_eq.
    destruct (decide (c = a)) as [->|Hca].
    + rewrite (set_column_lookup cv size a rhs) by (apply Hpos; lia).
      rewrite Hmod, Hdiv by lia.
      destruct (decide _) as [_|Hn]; [| by destruct Hn].
      rewrite !Hother by lia. by apply Hrhs.
    + rewrite !Hother by lia. apply Hrec; [done | lia].
Qed.

Lemma for_each_inv t : forall a cv,
  (2 <= a)%nat -> (a + t <= size)%nat -> loop_inv n size grid slopes cv0 a cv ->
  exists cv', for_each (iterative_step n size grid slopes) cv (seq a t) = Ok cv'
              /\ loop_inv n size grid slopes cv0 (a + t) cv'.
Proof.
  induction t as [|t IH]; intros a cv Ha Hat Hinv.
  - exists cv. split; [reflexivity |]. by rewrite Nat.add_0_r.
  - cbn [seq for_each].
    destruct (iterative_step_inv a cv) as (cv1 & E1 & Hinv1); [lia | done |].
    rewrite E1, bind_Ok.
    destruct (IH (S a) cv1) as (cv' & E & Hinv'); [lia | lia | done |].
    exists cv'. split; [done |]. by rewrite <- Nat.add_succ_comm.
Qed.

End Loop.

Lemma iterative_total m slopes :
  length (coefficients_vect_ m) = (num_activations m * size m)%nat ->
  (2 <= size m)%nat ->
  slopes_shape (num_activations m) (size m) slopes ->
  exists c,
    iterative_relu_slopes_to_coefficients m slopes = Ok (set_coefficients m c, c) /\
    loop_inv (num_activations m) (size m) (grid m) slopes (coefficients_vect_ m)
      (size m) c.
Proof.
  intros Hlen Hsz Hshape. unfold iterative_relu_slopes_to_coefficients, view_check.
  destruct (decide _) as [_|Hn]; [| by destruct Hn]. rewrite bind_Ok. cbv zeta.
  destruct (for_each_inv (num_activations m) (size m) (grid m) slopes
              (coefficients_vect_ m) Hshape (size m - 2) 2
              (set_columns_from (coefficients_vect_ m) (size m) 2 0))
    as (c & E & Hinv); [lia | lia | |].
  - split; [| split].
    + by rewrite set_columns_from_length.
    + intros k Hk. by apply set_columns_from_other.
    + intros r c _ Hc. lia.
  - exists c. rewrite E, bind_Ok. split; [reflexivity |].
    by replace (2 + (size m - 2))%nat with (size m) in Hinv by lia.
Qed.

(** *** The slopes of a valid state *)

Lemma relu_slopes_eval m :
  valid_state m -> relu_slopes m = Ok (slopes_of m).
Proof.
  intros [Hg Ho Hs Hl]. unfold relu_slopes, view_check.
  destruct (decide _) as [_|Hn]; [| by destruct Hn]. rewrite bind_Ok.
  apply mapM_Ok. intros r _. unfold conv1d, row.
  rewrite length_fmap, length_seq. cbn [D2_filter fmap list_fmap length].
  destruct (decide _) as [_|?]; [| lia].
  by replace (size m - 3 + 1)%nat with (size m - 2)%nat by lia.
Qed.

Lemma slopes_of_shape m : slopes_shape (num_activations m) (size m) (slopes_of m).
Proof.
  unfold slopes_shape, slopes_of. split.
  - by rewrite length_fmap, length_seq.
  - apply Forall_fmap, Forall_forall. intros r _. simpl.
    by rewrite length_fmap, length_seq.
Qed.

Lemma slopes_of_lookup m r j :
  (r < num_activations m)%nat -> (j < size m - 2)%nat ->
  (slopes_of m !!! r) !!! j
  == (coefficients_vect_ m !!! (r * size m + j)%nat
      - 2 * coefficients_vect_ m !!! (r * size m + (j + 1))%nat
      + coefficients_vect_ m !!! (r * size m + (j + 2))%nat) / grid m.
Proof.
  intros Hr Hj. unfold slopes_of.
  rewrite fmap_total by (by rewrite length_seq).
  rewrite lookup_total_seq_lt by done.
  rewrite fmap_total by (by rewrite length_seq).
  rewrite lookup_total_seq_lt by done. simpl.
  unfold slope_at, row, D2_filter.
  change ((fun w => w / grid m) <$> [1; -2; 1])
    with [1 / grid m; -2 / grid m; 1 / grid m].
  cbn [imap]. unfold compose. rewrite !sumQ_cons, sumQ_nil.
  rewrite !fmap_total by (rewrite length_seq; lia).
  rewrite !lookup_total_seq_lt by lia. cbn [Nat.add].
  replace (j + 0)%nat with j by lia.
  unfold Qdiv. ring.
Qed.

Lemma threshold_slopes_shape m threshold :
  valid_state m ->
  exists s, threshold_slopes m threshold = Ok s /\
            slopes_shape (num_activations m) (size m) s.
Proof.
  intros Hv. unfold threshold_slopes. rewrite (relu_slopes_eval m Hv), bind_Ok.
  eexists. split; [reflexivity |].
  destruct (slopes_of_shape m) as [Hn Hrows]. split.
  - by rewrite length_fmap.
  - apply Forall_fmap. eapply Forall_impl; [exact Hrows |].
    intros r Hr. simpl. unfold threshold_row. by rewrite length_fmap.
Qed.

(** Forward then inverse, with nothing changed in between: every
    reconstructed coefficient equals the original one. *)
Lemma round_trip_columns m c :
  valid_state m ->
  loop_inv (num_activations m) (size m) (grid m) (slopes_of m)
    (coefficients_vect_ m) (size m) c ->
  forall r, (r < num_activations m)%nat ->
  forall t col, (col <= t)%nat -> (col < size m)%nat ->
    c !!! (r * size m + col)%nat == coefficients_vect_ m !!! (r * size m + col)%nat.
Proof.
  intros [Hg Ho Hs Hl] (Hlen & Hfr & Hrec) r Hr.
  assert (Hmod : forall col, (col < size m)%nat ->
            ((r * size m + col) mod size m = col)%nat).
  { intros col Hc. rewrite Nat.add_comm, Nat.Div0.mod_add.
    apply Nat.mod_small; lia. }
  assert (Hlow : forall col, (col < 2)%nat ->
            c !!! (r * size m + col)%nat
            = coefficients_vect_ m !!! (r * size m + col)%nat).
  { intros col Hc. rewrite !list_lookup_total_alt.
    rewrite Hfr; [reflexivity |]. rewrite Hmod by lia. lia. }
  induction t as [|t IH]; intros col Hct Hcol.
  - rewrite Hlow by lia. reflexivity.
  - destruct (decide (col < 2)%nat) as [Hc2|Hc2].
    + rewrite Hlow by lia. reflexivity.
    + rewrite (Hrec r col Hr) by lia.
      rewrite (IH (col - 1)%nat) by lia. rewrite (IH (col - 2)%nat) by lia.
      rewrite (slopes_of_lookup m r (col - 2)) by lia.
      replace (col - 2 + 1)%nat with (col - 1)%nat by lia.
      replace (col - 2 + 2)%nat with col by lia.
      field. lra.
Qed.

(** ** Facts about the Lipschitz bound *)

Lemma sumQ_nonneg l : Forall (fun a => 0 <= a) l -> 0 <= sumQ l.
Proof.
  induction 1 as [|a l Ha _ IH]; [rewrite sumQ_nil; lra |].
  rewrite sumQ_cons. lra.
Qed.

Lemma sumQ_abs_nonneg (l : list Q) : 0 <= sumQ (Qabs <$> l).
Proof.
  apply sumQ_nonneg, Forall_fmap, Forall_forall. intros a _. apply Qabs_nonneg.
Qed.

Lemma totalVariation_nonneg m tv : totalVariation m = Ok tv -> 0 <= sumQ tv.
Proof.
  unfold totalVariation. intros H.
  apply bind_Ok_inv in H as (s & _ & H). inversion H; subst.
  apply sumQ_nonneg, Forall_fmap, Forall_forall. intros r _. simpl.
  apply sumQ_abs_nonneg.
Qed.

Lemma boundary_abs_nonneg a b m fz :
  boundary_abs a b m = Ok fz -> Forall (fun v => 0 <= v) fz.
Proof.
  unfold boundary_abs. intros H.
  apply bind_Ok_inv in H as (fa & _ & H).
  apply bind_Ok_inv in H as (fb & _ & H). inversion H; subst.
  apply Forall_lookup. intros i v Hv.
  apply lookup_zip_with_Some in Hv as (u & w & -> & _ & _).
  pose proof (Qabs_nonneg u). pose proof (Qabs_nonneg w). lra.
Qed.

Lemma foldl_Qmax_spec (l : list Q) : forall a0,
  a0 <= foldl Qmax a0 l /\
  Forall (fun a => a <= foldl Qmax a0 l) l /\
  (foldl Qmax a0 l == a0 \/ exists a, a ∈ l /\ foldl Qmax a0 l == a).
Proof.
  induction l as [|b l IH]; intros a0; simpl.
  - split; [lra |]. split; [constructor | by left].
  - destruct (IH (Qmax a0 b)) as (Hge & Hall & Hmem).
    pose proof (Q.le_max_l a0 b). pose proof (Q.le_max_r a0 b).
    split; [lra |]. split; [constructor; [lra | done] |].
    destruct Hmem as [E|(a & Ha & E)].
    + destruct (Q.max_spec a0 b) as [[_ E']|[_ E']].
      * right. exists b. split; [left |]. by rewrite E.
      * left. by rewrite E.
    + right. exists a. split; [by right | done].
Qed.

(** [abs_max] returns an upper bound of the magnitudes that one entry
    attains. *)
Lemma abs_max_spec w M :
  abs_max w = Ok M ->
  (forall i a, w !! i = Some a -> Qabs a <= M) /\
  (exists i a, w !! i = Some a /\ M == Qabs a).
Proof.
  destruct w as [|a0 w]; [discriminate |]. simpl. intros H. inversion H; subst.
  destruct (foldl_Qmax_spec (Qabs <$> w) (Qabs a0)) as (Hge & Hall & Hmem).
  split.
  - intros [|i] a Ha; simpl in Ha.
    + by inversion Ha; subst.
    + rewrite Forall_fmap, Forall_lookup in Hall. by apply (Hall i a).
  - destruct Hmem as [E|(b & Hb & E)].
    + exists 0%nat, a0. by split.
    + apply list_elem_of_fmap in Hb as (a & -> & Ha).
      apply list_elem_of_lookup in Ha as (i & Hi).
      exists (S i), a. by split.
Qed.

Lemma abs_max_nonneg w M : abs_max w = Ok M -> 0 <= M.
Proof.
  intros H. destruct (abs_max_spec w M H) as (_ & i & a & _ & E).
  rewrite E. apply Qabs_nonneg.
Qed.

(** Replacing one entry by one of at least its magnitude does not lower
    the maximum. *)
Lemma abs_max_insert w q v M :
  abs_max w = Ok M ->
  (forall old, w !! q = Some old -> Qabs old <= Qabs v) ->
  exists M', abs_max (<[q := v]> w) = Ok M' /\ M <= M'.
Proof.
  intros HM Hold.
  assert (exists M', abs_max (<[q := v]> w) = Ok M') as (M' & HM').
  { destruct w as [|a0 w]; [discriminate |]. destruct q; simpl; by eexists. }
  exists M'. split; [done |].
  destruct (abs_max_spec _ _ HM) as (_ & i & a & Hi & E).
  destruct (abs_max_spec _ _ HM') as (Hub & _).
  rewrite E. destruct (decide (i = q)) as [->|Hne].
  - apply Qle_trans with (Qabs v); [by apply Hold |].
    apply (Hub q). apply list_lookup_insert_eq. by eapply lookup_lt_Some.
  - apply (Hub i). by rewrite list_lookup_insert_ne.
Qed.

Lemma lipschitz_loop_mono net net' :
  Forall2 grown net net' ->
  forall bv mw mw' B M,
    0 <= bv -> 0 <= mw <= mw' ->
    lipschitz_loop net bv mw = Ok (B, M) ->
    exists M', lipschitz_loop net' bv mw' = Ok (B, M') /\ 0 <= B /\ 0 <= M <= M'.
Proof.
  induction 1 as [|M1 M2 net net' HM _ IH]; intros bv mw mw' B M Hbv Hmw H.
  - inversion H; subst. exists mw'. by split.
  - assert (Hweights : forall w w' rest rest',
      (forall mx, abs_max w = Ok mx -> exists mx', abs_max w' = Ok mx' /\ mx <= mx') ->
      (forall bv mw mw' B M, 0 <= bv -> 0 <= mw <= mw' ->
         lipschitz_loop rest bv mw = Ok (B, M) ->
         exists M', lipschitz_loop rest' bv mw' = Ok (B, M') /\ 0 <= B /\ 0 <= M <= M') ->
      (mx ← abs_max w; lipschitz_loop rest bv (mw * mx)) = Ok (B, M) ->
      exists M', (mx ← abs_max w'; lipschitz_loop rest' bv (mw' * mx)) = Ok (B, M')
                 /\ 0 <= B /\ 0 <= M <= M').
    { intros w w' rest rest' Hw Hrest Hrun.
      apply bind_Ok_inv in Hrun as (mx & Hmx & Hrun).
      destruct (Hw mx Hmx) as (mx' & Hmx' & Hle).
      pose proof (abs_max_nonneg _ _ Hmx) as Hnn.
      rewrite Hmx', bind_Ok.
      apply (Hrest bv (mw * mx) (mw' * mx') B M); [done | | done].
      split; [apply Qmult_le_0_compat; lra |].
      apply Qle_trans with (mw * mx').
      - rewrite !(Qmult_comm mw). apply Qmult_le_compat_r; lra.
      - apply Qmult_le_compat_r; lra. }
    destruct HM as [[m|w|w|]|w q v Hold|w q v Hold]; cbn [lipschitz_loop] in *.
    + apply bind_Ok_inv in H as (tv & Htv & H).
      apply bind_Ok_inv in H as (fz & Hfz & H).
      rewrite Htv, bind_Ok, Hfz, bind_Ok.
      apply (IH _ mw mw' B M); [| done | done].
      pose proof (totalVariation_nonneg _ _ Htv).
      pose proof (sumQ_nonneg _ (boundary_abs_nonneg _ _ _ _ Hfz)).
      apply Qmult_le_0_compat; lra.
    + apply (Hweights w w net net'); [| exact IH | exact H].
      intros mx Hmx. exists mx. split; [done | lra].
    + apply (Hweights w w net net'); [| exact IH | exact H].
      intros mx Hmx. exists mx. split; [done | lra].
    + by apply (IH bv mw mw' B M).
    + apply (Hweights w (<[q:=v]> w) net net'); [| exact IH | exact H].
      intros mx Hmx. by apply abs_max_insert.
    + apply (Hweights w (<[q:=v]> w) net net'); [| exact IH | exact H].
      intros mx Hmx. by apply abs_max_insert.
Qed.

Lemma prodQ_cons a l : prodQ (a :: l) = a * prodQ l.
Proof. reflexivity. Qed.

Lemma lipschitz_loop_product net : forall bv mw B M,
  lipschitz_loop net bv mw = Ok (B, M) ->
  exists ws bvs,
    mapM abs_max (weights_of net) = Ok ws /\
    mapM bv_sum (splines_of net) = Ok bvs /\
    B == bv * prodQ bvs /\ M == mw * prodQ ws.
Proof.
  induction net as [|[m|w|w|] net IH]; intros bv mw B M H;
    cbn [lipschitz_loop weights_of splines_of omap list_omap] in *.
  - inversion H; subst. exists [], []. unfold prodQ. cbn. repeat split; ring.
  - apply bind_Ok_inv in H as (tv & Htv & H).
    apply bind_Ok_inv in H as (fz & Hfz & H).
    destruct (IH _ _ _ _ H) as (ws & bvs & E1 & E2 & EB & EM).
    exists ws, (sumQ tv + sumQ fz :: bvs). split; [done |]. split.
    + assert (Hbv : bv_sum m = Ok (sumQ tv + sumQ fz))
        by (unfold bv_sum; rewrite Htv, bind_Ok, Hfz; reflexivity).
      cbn [mapM]. rewrite Hbv, bind_Ok.
      fold (splines_of net). rewrite E2. reflexivity.
    + split; [| done]. rewrite EB, prodQ_cons. ring.
  - apply bind_Ok_inv in H as (mx & Hmx & H).
    destruct (IH _ _ _ _ H) as (ws & bvs & E1 & E2 & EB & EM).
    exists (mx :: ws), bvs. split.
    + cbn [mapM]. rewrite Hmx, bind_Ok. fold (weights_of net). rewrite E1.
      reflexivity.
    + split; [done |]. split; [done |]. rewrite EM, prodQ_cons. ring.
  - apply bind_Ok_inv in H as (mx & Hmx & H).
    destruct (IH _ _ _ _ H) as (ws & bvs & E1 & E2 & EB & EM).
    exists (mx :: ws), bvs. split.
    + cbn [mapM]. rewrite Hmx, bind_Ok. fold (weights_of net). rewrite E1.
      reflexivity.
    + split; [done |]. split; [done |]. rewrite EM, prodQ_cons. ring.
  - by apply IH.
Qed.

(** ** Which errors the kernel can raise *)

Lemma no_assertion_Ok {A} (a : A) : no_assertion (Ok a).
Proof. discriminate. Qed.

Lemma no_assertion_bind {A B} (c : result A) (f : A -> result B) :
  no_assertion c -> (forall a, no_assertion (f a)) -> no_assertion (c ≫= f).
Proof.
  destruct c as [a|e]; intros Hc Hf; [apply Hf |].
  intros H. apply Hc. inversion H. reflexivity.
Qed.

Lemma no_assertion_mapM {A B} (f : A -> result B) (l : list A) :
  (forall a, no_assertion (f a)) -> no_assertion (mapM f l).
Proof.
  intros Hf. induction l as [|a l IH]; [apply no_assertion_Ok |].
  cbn [mapM]. apply no_assertion_bind; [apply Hf |]. intros b.
  apply no_assertion_bind; [exact IH |]. intros k. apply no_assertion_Ok.
Qed.

Lemma no_assertion_norm_index n j : no_assertion (norm_index n j).
Proof. unfold norm_index. repeat destruct (decide _); discriminate. Qed.

Lemma no_assertion_gather v index : no_assertion (gather v index).
Proof.
  apply no_assertion_mapM. intros j. unfold getitem.
  apply no_assertion_bind; [apply no_assertion_norm_index |].
  intros k. apply no_assertion_Ok.
Qed.

Lemma no_assertion_expand {A} `{Inhabited A} (t : Tensor) (v : list A) :
  no_assertion (expand_channels t v).
Proof. unfold expand_channels. destruct (decide _); discriminate. Qed.

Lemma no_assertion_column v nrows ncols j : no_assertion (column v nrows ncols j).
Proof.
  unfold column. apply no_assertion_bind; [apply no_assertion_norm_index |].
  intros c. apply no_assertion_Ok.
Qed.

Lemma no_assertion_boundary_slopes cv n size grid :
  no_assertion (boundary_slopes cv n size grid).
Proof.
  unfold boundary_slopes, view_check.
  apply no_assertion_bind; [destruct (decide _); discriminate |]. intros _.
  repeat (apply no_assertion_bind; [apply no_assertion_column |]; intros ?).
  apply no_assertion_Ok.
Qed.

Lemma no_assertion_linearExtrapolations x grid size ls rs :
  no_assertion (linearExtrapolations x grid size ls rs).
Proof.
  unfold linearExtrapolations.
  repeat (apply no_assertion_bind; [apply no_assertion_expand |]; intros ?).
  apply no_assertion_Ok.
Qed.

Lemma no_assertion_Func_forward x cv grid zk size save :
  no_assertion (Func_forward x cv grid zk size save).
Proof.
  unfold Func_forward, fracs_indexes.
  apply no_assertion_bind.
  { apply no_assertion_bind; [apply no_assertion_expand |].
    intros ?. apply no_assertion_Ok. }
  intros [fr idx].
  repeat (apply no_assertion_bind; [apply no_assertion_gather |]; intros ?).
  destruct save; [| apply no_assertion_Ok].
  apply no_assertion_bind; [apply no_assertion_boundary_slopes |]. intros [ls rs].
  apply no_assertion_bind; [apply no_assertion_linearExtrapolations |]. intros ?.
  apply no_assertion_Ok.
Qed.

(** ** Elements inside the clamping range *)

Lemma in_range_no_excess grid size v :
  in_range grid size v ->
  left_excess grid size v == 0 /\ right_excess grid size v == 0.
Proof.
  intros [Hlo Hhi]. unfold left_excess, right_excess. split.
  - destruct (clamp_max_cases 0 (v + grid * half size)) as [[H E]|[H E]];
      rewrite E; lra.
  - destruct (clamp_min_cases 0 (v - grid * half_m1 size)) as [[H E]|[H E]];
      rewrite E; lra.
Qed.




(** ** Networks with grown weights, and evaluation of the regularisers *)

Lemma grown_refl net : Forall2 grown net net.
Proof. induction net; constructor; [apply grown_same | done]. Qed.

Lemma grown_replace_weight net p q v :
  (forall old, weight_entry net p q = Some old -> Qabs old <= Qabs v) ->
  Forall2 grown net (replace_weight net p q v).
Proof.
  unfold weight_entry, replace_weight. intros Hold.
  destruct (net !! p) as [[m|w|w|]|] eqn:E; try apply grown_refl.
  - rewrite <- (list_insert_id net p (Linear w) E) at 1.
    apply Forall2_insert; [apply grown_refl | by constructor].
  - rewrite <- (list_insert_id net p (Conv2d w) E) at 1.
    apply Forall2_insert; [apply grown_refl | by constructor].
Qed.

Lemma act_of_length m x : length (act_of m x) = length (data x).
Proof. unfold act_of. len. Qed.

Lemma ext_of_length m x : length (ext_of m x) = length (data x).
Proof. unfold ext_of. len. Qed.

Lemma forward_data_eval m x :
  valid_state m -> wf_tensor x -> dimC x = num_activations m ->
  exists y, forward_data m x = Ok y /\ length y = length (data x).
Proof.
  intros Hv Hwf HC. unfold forward_data.
  rewrite (forward_eval m Hv x Hwf HC), bind_Ok. cbv beta iota.
  eexists. split; [reflexivity |]. simpl.
  rewrite length_zip_with, act_of_length, ext_of_length. lia.
Qed.

Lemma constant_input_wf n v : wf_tensor (constant_input n v).
Proof. unfold wf_tensor, numel. simpl. rewrite length_replicate. lia. Qed.

Lemma totalVariation_eval m :
  valid_state m ->
  exists tv, totalVariation m = Ok tv /\ length tv = num_activations m /\
             Forall (fun a => 0 <= a) tv.
Proof.
  intros Hv. unfold totalVariation. rewrite (relu_slopes_eval m Hv), bind_Ok.
  eexists. split; [reflexivity |]. split.
  - unfold slopes_of. by rewrite !length_fmap, length_seq.
  - apply Forall_fmap, Forall_forall. intros r _. apply sumQ_abs_nonneg.
Qed.


Lemma fZerofOneAbs_returns m : valid_state m -> exists fz, fZerofOneAbs m = Ok fz.
Proof.
  intros Hv. unfold fZerofOneAbs, boundary_abs.
  destruct (forward_data_eval m (constant_input (num_activations m) 0) Hv
              (constant_input_wf _ _) eq_refl) as (f0 & E0 & _).
  destruct (forward_data_eval m (constant_input (num_activations m) 1) Hv
              (constant_input_wf _ _) eq_refl) as (f1 & E1 & _).
  rewrite E0, bind_Ok, E1, bind_Ok. by eexists.
Qed.

(** On a network of valid modules the bound is computed. *)
Lemma lipschitz_loop_returns net :
  Forall module_ok net ->
  forall bv mw, exists B M, lipschitz_loop net bv mw = Ok (B, M).
Proof.
  induction 1 as [|[m|w|w|] net HM _ IH]; intros bv mw; cbn [lipschitz_loop].
  - by eexists _, _.
  - destruct (totalVariation_eval m HM) as (tv & Etv & _).
    destruct (fZerofOneAbs_returns m HM) as (fz & Efz).
    rewrite Etv, bind_Ok, Efz, bind_Ok. apply IH.
  - destruct w as [|a w]; [by destruct HM |]. cbn [abs_max]. rewrite bind_Ok.
    apply IH.
  - destruct w as [|a w]; [by destruct HM |]. cbn [abs_max]. rewrite bind_Ok.
    apply IH.
  - apply IH.
Qed.

Lemma lipschitz_bound_returns net :
  Forall module_ok net -> exists b, lipschitz_bound net = Ok b.
Proof.
  intros H. destruct (lipschitz_loop_returns net H 1 1) as (B & M & E).
  unfold lipschitz_bound. rewrite E, bind_Ok. by eexists.
Qed.

(** ** The worked examples are valid states *)

Lemma example_module_valid b : valid_state (example_module b).
Proof. constructor; simpl; [lra | reflexivity | lia | reflexivity]. Qed.

Lemma two_unit_module_valid : valid_state two_unit_module.
Proof. constructor; simpl; [lra | reflexivity | lia | reflexivity]. Qed.


(** * Part III: the properties of the specification *)



(** C2.  Round trip of the converter: on every valid state ([grid > 0],
    odd [size >= 3]) the slopes are the valid convolution of the
    coefficients with [1,-2,1]/grid, and running the inverse recurrence
    [c[i] = (c[i-1] - c[i-2]) + relu_slopes[i-2]*grid + c[i-1]] for
    [i = 2..size-1] on them, seeded with the unchanged first two
    coefficients of every row, reproduces the original coefficient vector
    (exact arithmetic). *)
Theorem slopes_round_trip (m : DeepBSplineBase) :
  valid_state m ->
  exists slopes c,
    relu_slopes m = Ok slopes /\
    (forall r j, (r < num_activations m)%nat -> (j < size m - 2)%nat ->
       (slopes !!! r) !!! j
       == (coefficients_vect_ m !!! (r * size m + j)%nat
           - 2 * coefficients_vect_ m !!! (r * size m + (j + 1))%nat
           + coefficients_vect_ m !!! (r * size m + (j + 2))%nat) / grid m) /\
    iterative_relu_slopes_to_coefficients m slopes = Ok (set_coefficients m c, c) /\
    (forall r i, (r < num_activations m)%nat -> (2 <= i < size m)%nat ->
       rec_eq (size m) (grid m) slopes c r i) /\
    (forall r i, (r < num_activations m)%nat -> (i < 2)%nat ->
       c !!! (r * size m + i)%nat = coefficients_vect_ m !!! (r * size m + i)%nat) /\
    Forall2 Qeq c (coefficients_vect_ m).
Proof.
  intros Hv. pose proof Hv as [Hg Ho Hs Hl].
  destruct (iterative_total m (slopes_of m) Hl ltac:(lia) (slopes_of_shape m))
    as (c & E & Hinv).
  exists (slopes_of m), c.
  split; [by apply relu_slopes_eval |].
  split; [apply slopes_of_lookup |]. split; [exact E |].
  pose proof Hinv as (Hlen & Hfr & Hrec).
  split; [exact Hrec |]. split.
  - intros r i Hr Hi. rewrite !list_lookup_total_alt. rewrite Hfr; [done |].
    rewrite Nat.add_comm, Nat.Div0.mod_add. rewrite Nat.mod_small; lia.
  - apply Forall2_Qeq_lookup; [by rewrite Hlen, Hl |].
    intros k Hk. rewrite Hlen in Hk.
    assert (Hr : (k / size m < num_activations m)%nat)
      by (apply Nat.Div0.div_lt_upper_bound; lia).
    assert (Hc : (k mod size m < size m)%nat)
      by (apply Nat.mod_upper_bound; lia).
    pose proof (round_trip_columns m c Hv Hinv (k / size m) Hr
                  (k mod size m) (k mod size m) (Nat.le_refl _) Hc) as Hrt.
    replace (k / size m * size m + k mod size m)%nat with k in Hrt; [done |].
    pose proof (Nat.div_mod_eq k (size m)). lia.
Qed.

(** On the layer of two activations *)
Lemma slopes_round_trip_witness :
  exists slopes c,
    relu_slopes two_unit_module = Ok slopes /\
    iterative_relu_slopes_to_coefficients two_unit_module slopes
      = Ok (set_coefficients two_unit_module c, c) /\
    Forall2 Qeq c (coefficients_vect_ two_unit_module).
Proof.
  destruct (slopes_round_trip two_unit_module two_unit_module_valid)
    as (slopes & c & H1 & _ & H2 & _ & _ & H3).
  exists slopes, c. split; [exact H1 |]. split; [exact H2 | exact H3].
Defined.



(** C4.  Boundary continuity on the worked example ([size = 5],
    [grid = 1], coefficients [0,1,2,3,4]), in both memory modes: at
    [x = -10] the output is [coefficients[0] + leftSlope * (x - (-grid *
    (size//2)))] with [leftSlope = (c[1] - c[0]) / grid], and at [x = 0] it
    is [coefficients[size//2] = 2]. *)
Theorem boundary_continuity_example (save : bool) :
  let m := example_module save in
  let c := coefficients_vect_ m in
  let leftSlope := (c !!! 1%nat - c !!! 0%nat) / grid m in
  (exists y, forward_data m (scalar_input (-10)) = Ok [y] /\
     y == c !!! 0%nat + leftSlope * (-10 - - (grid m * half (size m)))) /\
  (exists y, forward_data m (scalar_input 0) = Ok [y] /\
     y == c !!! (size m / 2)%nat /\ y == 2).
Proof.
  destruct save; cbv zeta; split; eexists;
    (split; [vm_compute; reflexivity |]); try split; reflexivity.
Qed.

(** C5.  Invariant I3: whatever thresholded slopes the parent class
    returns, [apply_threshold] leaves the coefficients at indices 0 and 1
    of every spline exactly as they were (and the shape data and the
    length of the vector); only indices [>= 2] may differ.  On a valid
    state, with slopes of shape [(num_activations, size - 2)], the call
    returns. *)
Theorem apply_threshold_keeps_first_two
    (super_apply_threshold : DeepBSplineBase -> Q -> result (list (list Q)))
    (m : DeepBSplineBase) (threshold : Q) :
  (forall m', apply_threshold super_apply_threshold m threshold = Ok m' ->
     num_activations m' = num_activations m /\ size m' = size m /\
     grid m' = grid m /\
     length (coefficients_vect_ m') = length (coefficients_vect_ m) /\
     forall r i, (i < 2)%nat -> (2 <= size m)%nat ->
       coefficients_vect_ m' !! (r * size m + i)%nat
       = coefficients_vect_ m !! (r * size m + i)%nat) /\
  (valid_state m ->
   (exists s, super_apply_threshold m threshold = Ok s /\
              slopes_shape (num_activations m) (size m) s) ->
   exists m', apply_threshold super_apply_threshold m threshold = Ok m').
Proof.
  split.
  - intros m' H. unfold apply_threshold in H.
    apply bind_Ok_inv in H as (s & _ & H).
    apply bind_Ok_inv in H as ([m1 c] & Hit & H). inversion H; subst.
    apply iterative_frame in Hit as (-> & Hlen & Hfr).
    cbn [set_coefficients num_activations size grid coefficients_vect_].
    repeat (split; [done |]).
    intros r i Hi Hs. apply Hfr.
    rewrite Nat.add_comm, Nat.Div0.mod_add. rewrite Nat.mod_small; lia.
  - intros [Hg Ho Hs Hl] (s & Es & Hshape). unfold apply_threshold.
    rewrite Es, bind_Ok.
    destruct (iterative_total m s Hl ltac:(lia) Hshape) as (c & E & _).
    rewrite E, bind_Ok. by eexists.
Qed.

(** With the thresholding the specification describes for the parent
    class, at threshold 5 *)
Lemma apply_threshold_keeps_first_two_witness :
  exists m', apply_threshold threshold_slopes two_unit_module 5 = Ok m' /\
    forall r i, (i < 2)%nat ->
      coefficients_vect_ m' !! (r * 3 + i)%nat
      = coefficients_vect_ two_unit_module !! (r * 3 + i)%nat.
Proof.
  destruct (apply_threshold_keeps_first_two threshold_slopes two_unit_module 5)
    as [Hframe Hret].
  destruct (Hret two_unit_module_valid
              (threshold_slopes_shape two_unit_module 5 two_unit_module_valid))
    as (m' & E).
  exists m'. split; [exact E |].
  destruct (Hframe m' E) as (_ & _ & _ & _ & H).
  intros r i Hi. apply (H r i Hi). simpl. lia.
Defined.



(** C7.  [lipschitz_bound] returns the product, over the linear and
    convolutional layers, of the maximum absolute weight entry, times the
    product, over the spline modules, of (sum of the per-unit TV(2) values +
    sum of the per-unit boundary terms); and replacing any single weight
    entry by one of at least its magnitude, all activations being kept,
    never lowers the returned value. *)
Theorem lipschitz_bound_product_monotone (modules : list Module) (b : Q) :
  lipschitz_bound modules = Ok b ->
  (exists ws bvs,
     mapM abs_max (weights_of modules) = Ok ws /\
     mapM bv_sum (splines_of modules) = Ok bvs /\
     b == prodQ ws * prodQ bvs) /\
  (forall p q v,
     (forall old, weight_entry modules p q = Some old -> Qabs old <= Qabs v) ->
     exists b', lipschitz_bound (replace_weight modules p q v) = Ok b' /\ b <= b').
Proof.
  unfold lipschitz_bound. intros H.
  apply bind_Ok_inv in H as ([B M] & Hloop & H). inversion H; subst. split.
  - destruct (lipschitz_loop_product _ _ _ _ _ Hloop)
      as (ws & bvs & E1 & E2 & EB & EM).
    exists ws, bvs. split; [done |]. split; [done |]. rewrite EB, EM. ring.
  - intros p q v Hold.
    destruct (lipschitz_loop_mono modules (replace_weight modules p q v)
                (grown_replace_weight modules p q v Hold) 1 1 1 B M)
      as (M' & E & HB & HM); [lra | lra | done |].
    exists (M' * B). rewrite E, bind_Ok. split; [reflexivity |].
    apply Qmult_le_compat_r; lra.
Qed.

(** On the small network: the bound is 78, and it is at least that after
    the weight 2 of the linear layer becomes -5 *)
Lemma lipschitz_bound_product_monotone_witness :
  lipschitz_bound example_network = Ok (39936 # 512) /\
  exists b', lipschitz_bound (replace_weight example_network 0 2 (-5)) = Ok b' /\
             39936 # 512 <= b'.
Proof.
  assert (E : lipschitz_bound example_network = Ok (39936 # 512))
    by (vm_compute; reflexivity).
  split; [exact E |].
  destruct (lipschitz_bound_product_monotone example_network _ E) as [_ H].
  apply (H 0%nat 2%nat (-5)).
  intros old Hold. vm_compute in Hold. inversion Hold; subst.
  vm_compute. discriminate.
Defined.




(** C9 as stated fails: the conversion is not free of side effects on the
    stored coefficient vector.  On [bent_module] with the slope [0] the
    call leaves [0, 1, 2] in the storage, which held [0, 1, 5]. *)
Lemma iterative_conversion_mutates_storage :
  ~ (forall m slopes m' c,
       iterative_relu_slopes_to_coefficients m slopes = Ok (m', c) ->
       Forall2 Qeq (coefficients_vect_ m') (coefficients_vect_ m)).
Proof.
  intros H.
  assert (E : iterative_relu_slopes_to_coefficients bent_module [[0]]
              = Ok (set_coefficients bent_module [0; 1; 2], [0; 1; 2])).
  2: { apply H in E. simpl in E.
       inversion E as [|? ? ? ? _ E1]; subst.
       inversion E1 as [|? ? ? ? _ E2]; subst.
       inversion E2 as [|? ? ? ? E3 _]; subst.
       vm_compute in E3. discriminate. }
  vm_compute. reflexivity.
Qed.

(** C9, amended.  The conversion works in place: a call that returns has
    stored the returned tensor in the module ([coefficients] is a view of
    [coefficients_vect_]), leaving the first two coefficients of every row
    and the length of the vector unchanged; with slopes of shape
    [(num_activations, size - 2)] it returns, and every coefficient at
    index [>= 2] then holds the value of the recurrence. *)
Theorem iterative_conversion_in_place (m : DeepBSplineBase)
    (slopes : list (list Q)) :
  (forall m' c,
     iterative_relu_slopes_to_coefficients m slopes = Ok (m', c) ->
     m' = set_coefficients m c /\ coefficients_vect_ m' = c /\
     length c = length (coefficients_vect_ m) /\
     forall k, (k mod size m < 2)%nat -> c !! k = coefficients_vect_ m !! k) /\
  (length (coefficients_vect_ m) = (num_activations m * size m)%nat ->
   (2 <= size m)%nat ->
   slopes_shape (num_activations m) (size m) slopes ->
   exists c,
     iterative_relu_slopes_to_coefficients m slopes = Ok (set_coefficients m c, c) /\
     forall r i, (r < num_activations m)%nat -> (2 <= i < size m)%nat ->
       rec_eq (size m) (grid m) slopes c r i).
Proof.
  split.
  - intros m' c H. apply iterative_frame in H as (-> & Hlen & Hfr).
    by repeat split.
  - intros Hl Hs Hshape.
    destruct (iterative_total m slopes Hl Hs Hshape) as (c & E & _ & _ & Hrec).
    by exists c.
Qed.

(** On the state [0, 1, 5] with the slope 0 *)
Lemma iterative_conversion_in_place_witness :
  exists c,
    iterative_relu_slopes_to_coefficients bent_module [[0]]
      = Ok (set_coefficients bent_module c, c) /\
    forall r i, (r < 1)%nat -> (2 <= i < 3)%nat ->
      rec_eq 3 1 [[0]] c r i.
Proof.
  destruct (iterative_conversion_in_place bent_module [[0]]) as [_ H].
  apply H; [reflexivity | simpl; lia |].
  split; [reflexivity |]. by repeat constructor.
Defined.

(** C10.  [forward] checks the unit dimension first: an input whose
    [x.size(1)] differs from [num_activations] raises the assertion error
    whatever the state is (no spline computation is attempted), and an input
    whose unit dimension matches never raises it; on a valid state and a
    well-formed input the evaluation then returns. *)
Theorem forward_shape_check (m : DeepBSplineBase) (x : Tensor) :
  (dimC x <> num_activations m -> forward m x = Raise AssertionError) /\
  (dimC x = num_activations m -> forward m x <> Raise AssertionError) /\
  (dimC x = num_activations m -> valid_state m -> wf_tensor x ->
   exists out g, forward m x = Ok (out, g)).
Proof.
  split; [| split].
  - intros Hne. unfold forward. destruct (decide _); [done | reflexivity].
  - intros HC. unfold forward. destruct (decide _) as [_|?]; [| done].
    apply no_assertion_bind; [apply no_assertion_Func_forward |].
    intros [out ctx]. destruct (save_memory m); [apply no_assertion_Ok |].
    apply no_assertion_bind; [apply no_assertion_boundary_slopes |].
    intros [ls rs].
    apply no_assertion_bind; [apply no_assertion_linearExtrapolations |].
    intros ext. apply no_assertion_Ok.
  - intros HC Hv Hwf. rewrite (forward_eval m Hv x Hwf HC). by eexists _, _.
Qed.

(** The same data with one and with two channels, for a layer of one
    activation *)
Lemma forward_shape_check_witness :
  forward (example_module false) batch_two_channels = Raise AssertionError /\
  forward (example_module false) batch_one_channel <> Raise AssertionError /\
  exists out g, forward (example_module false) batch_one_channel = Ok (out, g).
Proof.
  destruct (forward_shape_check (example_module false) batch_two_channels)
    as (H1 & _ & _).
  destruct (forward_shape_check (example_module false) batch_one_channel)
    as (_ & H2 & H3).
  split; [apply H1; simpl; lia |]. split; [apply H2; reflexivity |].
  apply H3; [reflexivity | apply example_module_valid | reflexivity].
Defined.

(** * Part IV: further properties of the code *)

(** ** The value of one element: interpolation and extrapolation *)

Lemma forward_lookup m x k :
  (k < length (data x))%nat ->
  zip_with Qplus (act_of m x) (ext_of m x) !!! k
  = spline_at m (channel_of x k) (data x !!! k).
Proof.
  intros Hk. unfold act_of, ext_of, spline_at.
  repeat (rewrite zip_with_total by len).
  repeat (rewrite fmap_total by len).
  repeat (rewrite imap_total by len).
  rewrite idx_of_lookup by done. reflexivity.
Qed.

Lemma forward_data_lookup m x :
  valid_state m -> wf_tensor x -> dimC x = num_activations m ->
  exists y, forward_data m x = Ok y /\ length y = length (data x) /\
    forall k, (k < length (data x))%nat ->
      y !!! k = spline_at m (channel_of x k) (data x !!! k).
Proof.
  intros Hv Hwf HC. unfold forward_data.
  rewrite (forward_eval m Hv x Hwf HC), bind_Ok. cbv beta iota.
  eexists. split; [reflexivity |]. simpl. split.
  - rewrite length_zip_with, act_of_length, ext_of_length. lia.
  - intros k Hk. by apply forward_lookup.
Qed.

Lemma slopes_left_lookup m i :
  (i < num_activations m)%nat ->
  slopes_left m !!! i = (coefficient m i 1 - coefficient m i 0) / grid m.
Proof.
  intros Hi. unfold slopes_left, coefficient.
  rewrite zip_with_total by len. rewrite !fmap_total by len.
  rewrite lookup_total_seq_lt by done. reflexivity.
Qed.

Lemma slopes_right_lookup m i :
  (i < num_activations m)%nat ->
  slopes_right m !!! i
  = (coefficient m i (size m - 1) - coefficient m i (size m - 2)) / grid m.
Proof.
  intros Hi. unfold slopes_right, coefficient.
  rewrite zip_with_total by len. rewrite !fmap_total by len.
  rewrite lookup_total_seq_lt by done. reflexivity.
Qed.

Section Clamping.

Variable grid : Q.

Variable size : nat.

Hypothesis grid_pos : 0 < grid.

Hypothesis size_odd : (size mod 2 = 1)%nat.

Hypothesis size_ge3 : (3 <= size)%nat.

(** Left of the range, inside it, right of it: the clamped value and the
    two excess factors *)
Lemma clamped_cases v :
  (v <= - (grid * half size) /\
   x_clamped grid size v == - (grid * half size) /\
   left_excess grid size v == v + grid * half size /\
   right_excess grid size v == 0) \/
  (in_range grid size v /\
   x_clamped grid size v == v /\
   left_excess grid size v == 0 /\ right_excess grid size v == 0) \/
  (grid * half_m1 size <= v /\
   x_clamped grid size v == grid * half_m1 size /\
   left_excess grid size v == 0 /\
   right_excess grid size v == v - grid * half_m1 size).
Proof.
  pose proof (clamp_range_ordered grid size grid_pos size_odd size_ge3) as Hord.
  unfold x_clamped, left_excess, right_excess, in_range.
  destruct (clamp_cases _ _ v Hord) as [[H E]|[[H E]|[H E]]];
    destruct (clamp_max_cases 0 (v + grid * half size)) as [[Hl El]|[Hl El]];
    destruct (clamp_min_cases 0 (v - grid * half_m1 size)) as [[Hr Er]|[Hr Er]];
    rewrite E, El, Er.
  all: try (left; repeat split; lra).
  all: try (right; left; repeat split; lra).
  all: try (right; right; repeat split; lra).
Qed.

(** On a knot the fractional part vanishes. *)
Lemma fracs_of_clamped v (z : Z) :
  x_clamped grid size v == grid * inject_Z z -> fracs grid size v == 0.
Proof.
  intros E. unfold fracs. rewrite floored_x_int.
  assert (Ez : x_clamped grid size v / grid == inject_Z z)
    by (rewrite E; field; lra).
  rewrite (Qfloor_comp _ _ Ez), Qfloor_Z, Ez. ring.
Qed.

(** The column read by an element, as a natural number *)
Lemma indexes_column i v :
  exists col : nat,
    (col <= size - 2)%nat /\
    indexes grid size i v = Z.of_nat (i * size + col) /\
    floored_x grid size v == inject_Z (Z.of_nat col) - half size.
Proof.
  pose proof (Qfloor_x_bounds grid size grid_pos size_odd size_ge3 v) as Hb.
  exists (Z.to_nat (Z.of_nat (size / 2) + Qfloor (x_clamped grid size v / grid))).
  split; [lia |]. split.
  - rewrite (indexes_eq grid size size_odd size_ge3). lia.
  - rewrite floored_x_int. unfold half.
    rewrite Z2Nat.id by lia. rewrite inject_Z_plus. ring.
Qed.

End Clamping.

Lemma lookup_succ_of_nat (cv : list Q) (a : nat) :
  cv !!! Z.to_nat (Z.succ (Z.of_nat a)) = cv !!! (a + 1)%nat.
Proof. f_equal. lia. Qed.

Lemma lookup_of_nat (cv : list Q) (a : nat) :
  cv !!! Z.to_nat (Z.of_nat a) = cv !!! a.
Proof. f_equal. lia. Qed.

Section Element.

Variable m : DeepBSplineBase.

Hypothesis Hvalid : valid_state m.

Variable i : nat.

Hypothesis Hi : (i < num_activations m)%nat.

(** The value of an element through the column it reads *)
Lemma spline_at_column v :
  exists col : nat,
    (col <= size m - 2)%nat /\
    indexes (grid m) (size m) i v = Z.of_nat (i * size m + col) /\
    floored_x (grid m) (size m) v == inject_Z (Z.of_nat col) - half (size m) /\
    spline_at m i v
    == coefficient m i (col + 1) * fracs (grid m) (size m) v
       + coefficient m i col * (1 - fracs (grid m) (size m) v)
       + (left_excess (grid m) (size m) v
            * ((coefficient m i 1 - coefficient m i 0) / grid m)
          + right_excess (grid m) (size m) v
            * ((coefficient m i (size m - 1) - coefficient m i (size m - 2))
               / grid m)).
Proof.
  destruct Hvalid as [Hg Ho Hs Hl].
  destruct (indexes_column (grid m) (size m) Hg Ho Hs i v) as (col & Hc & EI & Ef).
  exists col. split; [done |]. split; [done |]. split; [done |].
  unfold spline_at. cbv zeta.
  rewrite EI, lookup_succ_of_nat, lookup_of_nat.
  rewrite slopes_left_lookup, slopes_right_lookup by done.
  unfold coefficient. rewrite <- Nat.add_assoc. reflexivity.
Qed.

(** An element whose clamped value is the knot [z] reads coefficient
    [size//2 + z] with fractional part 0. *)
Lemma spline_at_clamped_knot v (z : Z) :
  x_clamped (grid m) (size m) v == grid m * inject_Z z ->
  (0 <= Z.of_nat (size m / 2) + z <= Z.of_nat (size m) - 2)%Z /\
  spline_at m i v
  == coefficient m i (Z.to_nat (Z.of_nat (size m / 2) + z))
     + (left_excess (grid m) (size m) v
          * ((coefficient m i 1 - coefficient m i 0) / grid m)
        + right_excess (grid m) (size m) v
          * ((coefficient m i (size m - 1) - coefficient m i (size m - 2))
             / grid m)).
Proof.
  intros E. pose proof Hvalid as [Hg Ho Hs Hl].
  destruct (spline_at_column v) as (col & Hc & EI & Ef & ->).
  pose proof (fracs_of_clamped (grid m) (size m) Hg v _ E) as Efr.
  pose proof (indexes_of_clamped (grid m) (size m) Hg i v _ E) as EI'.
  assert (Z.of_nat col = Z.of_nat (size m / 2) + z)%Z
    by (unfold zero_knot_index in EI'; lia).
  split; [lia |].
  replace (Z.to_nat (Z.of_nat (size m / 2) + z)) with col by lia.
  rewrite Efr. ring.
Qed.

(** Left of the range: the line through the first two coefficients *)
Lemma spline_at_left v :
  v <= - (grid m * half (size m)) ->
  spline_at m i v
  == coefficient m i 0
     + (coefficient m i 1 - coefficient m i 0) / grid m
       * (v + grid m * half (size m)).
Proof.
  intros Hv. pose proof Hvalid as [Hg Ho Hs Hl].
  pose proof (clamp_range_ordered (grid m) (size m) Hg Ho Hs) as Hord.
  assert (E : x_clamped (grid m) (size m) v
              == grid m * inject_Z (- Z.of_nat (size m / 2))).
  { rewrite inject_Z_opp. fold (half (size m)). unfold x_clamped.
    destruct (clamp_cases _ _ v Hord) as [[H E]|[[H E]|[H E]]]; rewrite E; lra. }
  destruct (spline_at_clamped_knot v _ E) as [_ ->].
  replace (Z.to_nat (Z.of_nat (size m / 2) + - Z.of_nat (size m / 2)))
    with 0%nat by lia.
  assert (El : left_excess (grid m) (size m) v == v + grid m * half (size m)).
  { unfold left_excess.
    destruct (clamp_max_cases 0 (v + grid m * half (size m))) as [[H1 H2]|[H1 H2]];
      rewrite H2; lra. }
  assert (Er : right_excess (grid m) (size m) v == 0).
  { unfold right_excess.
    destruct (clamp_min_cases 0 (v - grid m * half_m1 (size m))) as [[H1 H2]|[H1 H2]];
      rewrite H2; lra. }
  rewrite El, Er. field. lra.
Qed.

(** Right of the second-to-last knot: the line through the last two
    coefficients *)
Lemma spline_at_right v :
  grid m * half_m1 (size m) <= v ->
  spline_at m i v
  == coefficient m i (size m - 2)
     + (coefficient m i (size m - 1) - coefficient m i (size m - 2)) / grid m
       * (v - grid m * half_m1 (size m)).
Proof.
  intros Hv. pose proof Hvalid as [Hg Ho Hs Hl].
  pose proof (clamp_range_ordered (grid m) (size m) Hg Ho Hs) as Hord.
  assert (E : x_clamped (grid m) (size m) v
              == grid m * inject_Z (Z.of_nat (size m / 2) - 1)).
  { fold (half_m1 (size m)). unfold x_clamped.
    destruct (clamp_cases _ _ v Hord) as [[H E]|[[H E]|[H E]]]; rewrite E; lra. }
  destruct (spline_at_clamped_knot v _ E) as [_ ->].
  replace (Z.to_nat (Z.of_nat (size m / 2) + (Z.of_nat (size m / 2) - 1)))
    with (size m - 2)%nat by lia.
  assert (El : left_excess (grid m) (size m) v == 0).
  { unfold left_excess.
    destruct (clamp_max_cases 0 (v + grid m * half (size m))) as [[H1 H2]|[H1 H2]];
      rewrite H2; lra. }
  assert (Er : right_excess (grid m) (size m) v == v - grid m * half_m1 (size m)).
  { unfold right_excess.
    destruct (clamp_min_cases 0 (v - grid m * half_m1 (size m))) as [[H1 H2]|[H1 H2]];
      rewrite H2; lra. }
  rewrite El, Er. field. lra.
Qed.

(** Inside the range: the interpolation between the two coefficients read *)
Lemma spline_at_inside v :
  in_range (grid m) (size m) v ->
  exists col : nat,
    (col <= size m - 2)%nat /\
    indexes (grid m) (size m) i v = Z.of_nat (i * size m + col) /\
    v == grid m * (inject_Z (Z.of_nat col) - half (size m)
                   + fracs (grid m) (size m) v) /\
    spline_at m i v
    == coefficient m i col
       + (coefficient m i (col + 1) - coefficient m i col)
         * fracs (grid m) (size m) v.
Proof.
  intros Hin. pose proof Hvalid as [Hg Ho Hs Hl].
  destruct (spline_at_column v) as (col & Hc & EI & Ef & Esp).
  exists col. split; [done |]. split; [done |].
  destruct (in_range_no_excess _ _ _ Hin) as [El Er].
  pose proof (clamp_range_ordered (grid m) (size m) Hg Ho Hs) as Hord.
  assert (E : x_clamped (grid m) (size m) v == v).
  { unfold x_clamped. destruct Hin.
    destruct (clamp_cases _ _ v Hord) as [[H' E]|[[H' E]|[H' E]]]; rewrite E; lra. }
  split.
  - unfold fracs. rewrite Ef, E. field. lra.
  - rewrite Esp, El, Er. ring.
Qed.

(** On the knot [z * grid], for [-(size//2) <= z <= size//2], the value is
    the coefficient of that knot. *)
Lemma spline_at_knot (z : Z) :
  (- Z.of_nat (size m / 2) <= z <= Z.of_nat (size m / 2))%Z ->
  spline_at m i (inject_Z z * grid m)
  == coefficient m i (Z.to_nat (Z.of_nat (size m / 2) + z)).
Proof.
  intros Hz. pose proof Hvalid as [Hg Ho Hs Hl].
  pose proof (clamp_range_ordered (grid m) (size m) Hg Ho Hs) as Hord.
  destruct (decide (z = Z.of_nat (size m / 2))) as [->|Hne].
  - rewrite spline_at_right.
    + replace (Z.to_nat (Z.of_nat (size m / 2) + Z.of_nat (size m / 2)))
        with (size m - 1)%nat by lia.
      rewrite half_m1_eq. unfold half. field. lra.
    + rewrite half_m1_eq. unfold half. lra.
  - assert (Hlo : - half (size m) <= inject_Z z).
    { unfold half. rewrite <- inject_Z_opp, <- Zle_Qle. lia. }
    assert (Hhi : inject_Z z <= half_m1 (size m)).
    { unfold half_m1. rewrite <- Zle_Qle. lia. }
    assert (Hin : in_range (grid m) (size m) (inject_Z z * grid m)).
    { unfold in_range. split; nra. }
    assert (E : x_clamped (grid m) (size m) (inject_Z z * grid m)
                == grid m * inject_Z z).
    { unfold x_clamped. destruct Hin.
      destruct (clamp_cases _ _ (inject_Z z * grid m) Hord)
        as [[H' E]|[[H' E]|[H' E]]]; rewrite E; lra. }
    destruct (spline_at_clamped_knot _ _ E) as [_ ->].
    destruct (in_range_no_excess _ _ _ Hin) as [-> ->]. ring.
Qed.

(** Every element lies on the line of the segment it reads: the line
    through the coefficients [col] and [col + 1], whose knots are
    [grid * (col - size//2)] and one grid step further. *)
Lemma spline_at_segment v :
  exists col : nat,
    (col <= size m - 2)%nat /\
    indexes (grid m) (size m) i v = Z.of_nat (i * size m + col) /\
    spline_at m i v
    == coefficient m i col
       + (coefficient m i (col + 1) - coefficient m i col) / grid m
         * (v - grid m * (inject_Z (Z.of_nat col) - half (size m))).
Proof.
  pose proof Hvalid as [Hg Ho Hs Hl].
  destruct (spline_at_column v) as (col & Hc & EI & Ef & Esp).
  exists col. split; [done |]. split; [done |].
  destruct (clamped_cases (grid m) (size m) Hg Ho Hs v)
    as [(Hv & E & El & Er)|[(Hin & E & El & Er)|(Hv & E & El & Er)]].
  - assert (E' : x_clamped (grid m) (size m) v
                 == grid m * inject_Z (- Z.of_nat (size m / 2)))
      by (rewrite E, inject_Z_opp; unfold half; ring).
    pose proof (indexes_of_clamped (grid m) (size m) Hg i v _ E') as EI'.
    assert (col = 0%nat) as -> by (unfold zero_knot_index in EI'; lia).
    rewrite spline_at_left by done. simpl (inject_Z (Z.of_nat 0)).
    change (0 + 1)%nat with 1%nat. field. lra.
  - rewrite Esp, El, Er. unfold fracs. rewrite Ef, E. field. lra.
  - assert (E' : x_clamped (grid m) (size m) v
                 == grid m * inject_Z (Z.of_nat (size m / 2) - 1))
      by (rewrite E; reflexivity).
    pose proof (indexes_of_clamped (grid m) (size m) Hg i v _ E') as EI'.
    assert (col = (size m - 2)%nat) as ->
      by (unfold zero_knot_index in EI'; lia).
    rewrite spline_at_right by done.
    replace (size m - 2 + 1)%nat with (size m - 1)%nat by lia.
    assert (Ek : inject_Z (Z.of_nat (size m - 2)) - half (size m)
                 == half_m1 (size m)).
    { unfold half, half_m1. rewrite <- inject_Z_sub.
      replace (Z.of_nat (size m - 2) - Z.of_nat (size m / 2))%Z
        with (Z.of_nat (size m / 2) - 1)%Z by lia.
      reflexivity. }
    rewrite Ek. reflexivity.
Qed.

End Element.


(** X1.  Outside the range the activation is the linear extrapolation the
    module docstring describes: for an element [v] of channel [i] at or left
    of the first knot [-grid*(size//2)], the output is [c[i,0] + (c[i,1] -
    c[i,0])/grid * (v + grid*(size//2))]; at or right of the second-to-last
    knot [grid*(size//2-1)], it is [c[i,size-2] + (c[i,size-1] -
    c[i,size-2])/grid * (v - grid*(size//2-1))]. *)
Theorem forward_linear_extrapolation (m : DeepBSplineBase) (x : Tensor) :
  valid_state m -> wf_tensor x -> dimC x = num_activations m ->
  exists y,
    forward_data m x = Ok y /\ length y = length (data x) /\
    forall k, (k < length (data x))%nat ->
      let v := data x !!! k in
      let i := channel_of x k in
      (v <= - (grid m * half (size m)) ->
       y !!! k == coefficient m i 0
                  + (coefficient m i 1 - coefficient m i 0) / grid m
                    * (v + grid m * half (size m))) /\
      (grid m * half_m1 (size m) <= v ->
       y !!! k == coefficient m i (size m - 2)
                  + (coefficient m i (size m - 1) - coefficient m i (size m - 2))
                    / grid m * (v - grid m * half_m1 (size m))).
Proof.
  intros Hv Hwf HC.
  destruct (forward_data_lookup m x Hv Hwf HC) as (y & E & L & V).
  exists y. split; [done |]. split; [done |].
  intros k Hk. cbv zeta. rewrite (V k Hk).
  assert (Hi : (channel_of x k < num_activations m)%nat)
    by (rewrite <- HC; by apply channel_of_lt).
  split; intros H.
  - by apply spline_at_left.
  - by apply spline_at_right.
Qed.

(** On the layer of two activations: the element -3 is left of the range,
    the element 7 right of it *)
Lemma forward_linear_extrapolation_witness :
  exists y,
    forward_data two_unit_module two_unit_batch = Ok y /\
    y !!! 0%nat == coefficient two_unit_module 0 0
                   + (coefficient two_unit_module 0 1
                      - coefficient two_unit_module 0 0) / (1 # 2)
                     * (-3 + (1 # 2) * 1) /\
    y !!! 2%nat == coefficient two_unit_module 0 1
                   + (coefficient two_unit_module 0 2
                      - coefficient two_unit_module 0 1) / (1 # 2)
                     * (7 - (1 # 2) * 0).
Proof.
  destruct (forward_linear_extrapolation two_unit_module two_unit_batch
              two_unit_module_valid eq_refl eq_refl) as (y & E & _ & H).
  exists y. split; [exact E |]. split.
  - apply (H 0%nat); [simpl; lia | vm_compute; discriminate].
  - apply (H 2%nat); [simpl; lia | vm_compute; discriminate].
Defined.

(** X2.  Inside the range the activation is the linear interpolation of
    its coefficients: an element [v] of channel [i] lies between two
    neighbouring knots [t = grid*(col - size//2)] and [t + grid], and the
    output is [c[i,col] + (c[i,col+1] - c[i,col]) * (v - t)/grid], a value
    between the two coefficients. *)
Theorem forward_interpolates_between_knots (m : DeepBSplineBase) (x : Tensor) :
  valid_state m -> wf_tensor x -> dimC x = num_activations m ->
  exists y,
    forward_data m x = Ok y /\
    forall k, (k < length (data x))%nat ->
      let v := data x !!! k in
      let i := channel_of x k in
      in_range (grid m) (size m) v ->
      exists col : nat,
        (col <= size m - 2)%nat /\
        let t := grid m * (inject_Z (Z.of_nat col) - half (size m)) in
        t <= v < t + grid m /\
        y !!! k == coefficient m i col
                   + (coefficient m i (col + 1) - coefficient m i col)
                     * ((v - t) / grid m) /\
        Qmin (coefficient m i col) (coefficient m i (col + 1)) <= y !!! k
          <= Qmax (coefficient m i col) (coefficient m i (col + 1)).
Proof.
  intros Hv Hwf HC.
  destruct (forward_data_lookup m x Hv Hwf HC) as (y & E & L & V).
  exists y. split; [done |].
  intros k Hk. cbv zeta. intros Hin. rewrite (V k Hk).
  assert (Hi : (channel_of x k < num_activations m)%nat)
    by (rewrite <- HC; by apply channel_of_lt).
  destruct (spline_at_inside m Hv _ Hi _ Hin) as (col & Hc & _ & Ev & Esp).
  pose proof (fracs_range (grid m) (size m) (data x !!! k)) as [Hf0 Hf1].
  pose proof (valid_grid m Hv) as Hg.
  set (fr := fracs (grid m) (size m) (data x !!! k)) in *.
  set (c0 := coefficient m (channel_of x k) col) in *.
  set (c1 := coefficient m (channel_of x k) (col + 1)) in *.
  exists col. fold c0 c1. split; [done |]. split; [| split].
  - rewrite Ev at 1 2. split; nra.
  - rewrite Esp.
    assert (Efr : (data x !!! k
                   - grid m * (inject_Z (Z.of_nat col) - half (size m))) / grid m
                  == fr) by (rewrite Ev at 1; field; lra).
    rewrite Efr. reflexivity.
  - rewrite Esp.
    destruct (Q.min_spec c0 c1) as [[H1 E1]|[H1 E1]];
      destruct (Q.max_spec c0 c1) as [[H2 E2]|[H2 E2]];
      (split; [rewrite E1 | rewrite E2]); nra.
Qed.

(** The element -1/4 of the second activation, between the knots -1/2
    and 0 *)
Lemma forward_interpolates_between_knots_witness :
  exists y,
    forward_data two_unit_module two_unit_batch = Ok y /\
    exists col : nat,
      (col <= 3 - 2)%nat /\
      (1 # 2) * (inject_Z (Z.of_nat col) - 1) <= -1 # 4
        < (1 # 2) * (inject_Z (Z.of_nat col) - 1) + (1 # 2) /\
      y !!! 1%nat
      == coefficient two_unit_module 1 col
         + (coefficient two_unit_module 1 (col + 1)
            - coefficient two_unit_module 1 col)
           * (((-1 # 4) - (1 # 2) * (inject_Z (Z.of_nat col) - 1)) / (1 # 2)) /\
      Qmin (coefficient two_unit_module 1 col)
           (coefficient two_unit_module 1 (col + 1)) <= y !!! 1%nat
        <= Qmax (coefficient two_unit_module 1 col)
                (coefficient two_unit_module 1 (col + 1)).
Proof.
  destruct (forward_interpolates_between_knots two_unit_module two_unit_batch
              two_unit_module_valid eq_refl eq_refl) as (y & E & H).
  exists y. split; [exact E |].
  apply (H 1%nat); [simpl; lia |].
  split; vm_compute; discriminate.
Defined.

(** X3.  Coefficients that sample an affine function are evaluated as that
    function everywhere, inside the range and in both extrapolation
    regions: if [c[i,s] = a_i * t_s + b_i] at every knot
    [t_s = grid*(s - size//2)], then [forward] maps every element [v] of
    channel [i] to [a_i * v + b_i]. *)
Theorem forward_reproduces_affine (m : DeepBSplineBase) (x : Tensor)
    (a b : nat -> Q) :
  valid_state m -> wf_tensor x -> dimC x = num_activations m ->
  (forall i s, (i < num_activations m)%nat -> (s < size m)%nat ->
     coefficient m i s
     == a i * (grid m * (inject_Z (Z.of_nat s) - half (size m))) + b i) ->
  exists y,
    forward_data m x = Ok y /\ length y = length (data x) /\
    forall k, (k < length (data x))%nat ->
      y !!! k == a (channel_of x k) * data x !!! k + b (channel_of x k).
Proof.
  intros Hv Hwf HC Haff.
  destruct (forward_data_lookup m x Hv Hwf HC) as (y & E & L & V).
  exists y. split; [done |]. split; [done |].
  intros k Hk. rewrite (V k Hk).
  assert (Hi : (channel_of x k < num_activations m)%nat)
    by (rewrite <- HC; by apply channel_of_lt).
  pose proof (valid_grid m Hv) as Hg. pose proof (valid_size m Hv) as Hs.
  destruct (spline_at_segment m Hv _ Hi (data x !!! k)) as (col & Hc & _ & ->).
  rewrite (Haff _ col Hi) by lia. rewrite (Haff _ (col + 1)%nat Hi) by lia.
  rewrite Nat2Z.inj_add, inject_Z_plus. change (inject_Z (Z.of_nat 1)) with 1.
  field. lra.
Qed.

(** The coefficients [0,1,2,3,4] on the knots -2..2 sample [x + 2] *)
Lemma forward_reproduces_affine_witness :
  exists y,
    forward_data (example_module false) batch_one_channel = Ok y /\
    length y = 2%nat /\
    forall k, (k < 2)%nat -> y !!! k == 1 * data batch_one_channel !!! k + 2.
Proof.
  apply (forward_reproduces_affine (example_module false) batch_one_channel
           (fun _ => 1) (fun _ => 2) (example_module_valid false) eq_refl eq_refl).
  intros i s Hi Hs.
  destruct i as [|i]; [| simpl in Hi; lia].
  destruct s as [|[|[|[|[|s]]]]]; [vm_compute; reflexivity .. | simpl in Hs; lia].
Defined.




(** ** The knot locations and the sampled activations *)

Lemma arange_length lo hi : length (arange lo hi) = Z.to_nat (hi - lo).
Proof. unfold arange. by rewrite length_fmap, length_seq. Qed.

Lemma arange_lookup lo hi (s : nat) :
  (Z.of_nat s < hi - lo)%Z -> arange lo hi !!! s = (lo + Z.of_nat s)%Z.
Proof.
  intros Hs. unfold arange. rewrite fmap_total by (rewrite length_seq; lia).
  rewrite lookup_total_seq_lt by lia. reflexivity.
Qed.

Lemma knot_row_length size grid : length (knot_row size grid) = (2 * (size / 2) + 1)%nat.
Proof. unfold knot_row. rewrite length_fmap, arange_length. lia. Qed.

Lemma knot_row_lookup size grid s :
  (s <= 2 * (size / 2))%nat ->
  knot_row size grid !!! s
  = inject_Z (- Z.of_nat (size / 2) + Z.of_nat s) * grid.
Proof.
  intros Hs. unfold knot_row.
  rewrite fmap_total by (rewrite arange_length; lia).
  rewrite arange_lookup by lia. reflexivity.
Qed.

Lemma grid_tensor_odd m :
  (size m mod 2 = 1)%nat ->
  grid_tensor m = Ok (replicate (num_activations m) (knot_row (size m) (grid m))).
Proof.
  intros Ho. unfold grid_tensor, get_grid_tensor, expand_rows.
  fold (knot_row (size m) (grid m)). rewrite knot_row_length.
  destruct (decide _) as [_|Hne]; [reflexivity | lia].
Qed.

Lemma grid_tensor_even m :
  (size m mod 2 = 0)%nat -> (2 <= size m)%nat ->
  grid_tensor m = Raise RuntimeError.
Proof.
  intros He Hs. unfold grid_tensor, get_grid_tensor, expand_rows.
  fold (knot_row (size m) (grid m)). rewrite knot_row_length.
  destruct (decide _) as [Heq|_]; [lia |].
  destruct (decide _) as [Heq|_]; [lia | reflexivity].
Qed.

Lemma knots_input_wf m : wf_tensor (knots_input m).
Proof.
  unfold wf_tensor, numel, knots_input, transposed_input. simpl.
  rewrite length_fmap, length_seq. lia.
Qed.

Lemma knots_input_length m :
  length (data (knots_input m)) = (size m * num_activations m)%nat.
Proof.
  unfold knots_input, transposed_input. simpl. by rewrite length_fmap, length_seq.
Qed.

Lemma knots_input_lookup m s i :
  (size m mod 2 = 1)%nat -> (s < size m)%nat -> (i < num_activations m)%nat ->
  channel_of (knots_input m) (s * num_activations m + i) = i /\
  data (knots_input m) !!! (s * num_activations m + i)%nat
  = inject_Z (- Z.of_nat (size m / 2) + Z.of_nat s) * grid m.
Proof.
  intros Ho Hs Hi. split.
  - unfold channel_of, knots_input, transposed_input. cbn [dimH dimW dimC].
    change (1 * 1)%nat with 1%nat.
    rewrite Nat.div_1_r, Nat.add_comm, Nat.Div0.mod_add. by apply Nat.mod_small.
  - unfold knots_input, transposed_input. cbn [data].
    rewrite fmap_total by (rewrite length_seq; nia).
    rewrite lookup_total_seq_lt by nia. cbn [Nat.add].
    rewrite (Nat.add_comm (s * _)), Nat.Div0.mod_add, Nat.mod_small by done.
    rewrite Nat.div_add by lia. rewrite Nat.div_small by done. cbn [Nat.add].
    rewrite lookup_total_replicate_2 by done.
    apply knot_row_lookup. lia.
Qed.

Lemma deepspline_activation_eval m :
  valid_state m -> deepspline_activation m = Ok (sampled m).
Proof.
  intros Hv. unfold deepspline_activation.
  rewrite (grid_tensor_odd m (valid_odd m Hv)), bind_Ok.
  fold (knots_input m).
  rewrite (forward_eval m Hv (knots_input m) (knots_input_wf m) eq_refl), bind_Ok.
  reflexivity.
Qed.

Lemma sampled_lookup m r s :
  valid_state m -> (r < num_activations m)%nat -> (s < size m)%nat ->
  ((sampled m).1 !!! r) !!! s
    = inject_Z (- Z.of_nat (size m / 2) + Z.of_nat s) * grid m /\
  ((sampled m).2 !!! r) !!! s == coefficient m r s.
Proof.
  intros Hv Hr Hs. pose proof Hv as [Hg Ho Hs3 Hl]. unfold sampled. cbn [fst snd]. split.
  - rewrite lookup_total_replicate_2 by done. apply knot_row_lookup. lia.
  - unfold transposed_output. cbn [dimC dimB with_data data].
    change (dimC (knots_input m)) with (num_activations m).
    change (dimB (knots_input m)) with (size m).
    rewrite fmap_total by (rewrite length_seq; lia).
    rewrite lookup_total_seq_lt by done.
    rewrite fmap_total by (rewrite length_seq; lia).
    rewrite lookup_total_seq_lt by done. cbn [Nat.add].
    destruct (knots_input_lookup m s r Ho Hs Hr) as [Ech Ev].
    rewrite forward_lookup by (rewrite knots_input_length; nia).
    rewrite Ech, Ev.
    rewrite (spline_at_knot m Hv r Hr) by lia.
    replace (Z.to_nat (Z.of_nat (size m / 2) + (- Z.of_nat (size m / 2) + Z.of_nat s)))
      with s by lia.
    reflexivity.
Qed.

(** X5.  [grid_tensor] holds the knot locations: for an odd [size] it has
    one row per activation, each row being [grid * (s - size//2)] for
    [s = 0 .. size-1], so that the entry at [size//2] is the knot 0.  For an
    even [size >= 2] the [arange] has [size + 1] entries and the [expand]
    raises a runtime error. *)
Theorem grid_tensor_knots (m : DeepBSplineBase) :
  ((size m mod 2 = 1)%nat ->
   exists rows,
     grid_tensor m = Ok rows /\ length rows = num_activations m /\
     forall r, (r < num_activations m)%nat ->
       length (rows !!! r) = size m /\
       (rows !!! r) !!! (size m / 2)%nat == 0 /\
       forall s, (s < size m)%nat ->
         (rows !!! r) !!! s == grid m * (inject_Z (Z.of_nat s) - half (size m))) /\
  ((size m mod 2 = 0)%nat -> (2 <= size m)%nat ->
   grid_tensor m = Raise RuntimeError).
Proof.
  split.
  - intros Ho. eexists. split; [by apply grid_tensor_odd |].
    split; [by rewrite length_replicate |].
    intros r Hr. rewrite lookup_total_replicate_2 by done.
    split; [rewrite knot_row_length; lia |]. split.
    + rewrite knot_row_lookup by lia.
      replace (- Z.of_nat (size m / 2) + Z.of_nat (size m / 2))%Z with 0%Z by lia.
      change (inject_Z 0) with 0. ring.
    + intros s Hs. rewrite knot_row_lookup by lia.
      rewrite inject_Z_plus, inject_Z_opp. unfold half. ring.
  - apply grid_tensor_even.
Qed.

(** The grid of a layer with five coefficients, and a layer with four *)
Lemma grid_tensor_knots_witness :
  (exists rows,
     grid_tensor (example_module false) = Ok rows /\
     Forall2 (Forall2 Qeq) rows [[-2; -1; 0; 1; 2]]) /\
  grid_tensor even_module = Raise RuntimeError.
Proof.
  destruct (grid_tensor_knots (example_module false)) as [H _].
  destruct (grid_tensor_knots even_module) as [_ H'].
  split.
  - destruct (H eq_refl) as (rows & E & L & V).
    exists rows. split; [exact E |].
    destruct rows as [|row [|? ?]]; try discriminate L.
    destruct (V 0%nat ltac:(simpl; lia)) as (Lr & _ & Vr).
    change ([row] !!! 0%nat) with row in Lr, Vr.
    do 6 (destruct row as [|? row]; try discriminate Lr).
    repeat constructor.
    + rewrite (Vr 0%nat) by (simpl; lia). reflexivity.
    + rewrite (Vr 1%nat) by (simpl; lia). reflexivity.
    + rewrite (Vr 2%nat) by (simpl; lia). reflexivity.
    + rewrite (Vr 3%nat) by (simpl; lia). reflexivity.
    + rewrite (Vr 4%nat) by (simpl; lia). reflexivity.
  - apply H'; [reflexivity | simpl; lia].
Defined.

(** X6.  The activations sampled by [get_deepspline_activations] are the
    coefficients themselves: for every spline module of the network (valid
    state), the recorded ['x'] is the grid of knots and the recorded ['y'],
    the output of [forward] on those knots, equals the coefficient matrix
    entry by entry.  A B-spline activation interpolates its coefficients,
    the last knot included, which lies in the right extrapolation
    region. *)
Theorem sampled_activations_are_coefficients (modules : list Module) :
  Forall valid_state (splines_of modules) ->
  exists acts,
    get_deepspline_activations modules = Ok acts /\
    length acts = length (splines_of modules) /\
    forall p m xs ys,
      splines_of modules !! p = Some m -> acts !! p = Some (xs, ys) ->
      forall r s, (r < num_activations m)%nat -> (s < size m)%nat ->
        (xs !!! r) !!! s == grid m * (inject_Z (Z.of_nat s) - half (size m)) /\
        (ys !!! r) !!! s == coefficient m r s.
Proof.
  intros Hall. exists (sampled <$> splines_of modules). split; [| split].
  - unfold get_deepspline_activations. apply mapM_Ok.
    intros m Hm. apply deepspline_activation_eval.
    rewrite Forall_forall in Hall. by apply Hall.
  - by rewrite length_fmap.
  - intros p m xs ys Hm Hp r s Hr Hs.
    rewrite list_lookup_fmap, Hm in Hp. cbn [fmap option_fmap option_map] in Hp.
    assert (Hxy : sampled m = (xs, ys)) by congruence. clear Hp.
    assert (Hv : valid_state m).
    { by apply (Forall_lookup_1 _ _ p m Hall). }
    pose proof (sampled_lookup m r s Hv Hr Hs) as Hxs.
    rewrite Hxy in Hxs. cbn [fst snd] in Hxs. destruct Hxs as [Ex Ey].
    split; [| exact Ey].
    rewrite Ex, inject_Z_plus, inject_Z_opp. unfold half. ring.
Qed.

(** On the small network, whose only spline module is the layer of two
    activations *)
Lemma sampled_activations_are_coefficients_witness :
  exists acts,
    get_deepspline_activations example_network = Ok acts /\
    length acts = 1%nat /\
    forall xs ys, acts !! 0%nat = Some (xs, ys) ->
      forall r s, (r < 2)%nat -> (s < 3)%nat ->
        (xs !!! r) !!! s == (1 # 2) * (inject_Z (Z.of_nat s) - 1) /\
        (ys !!! r) !!! s == coefficient two_unit_module r s.
Proof.
  assert (Hall : Forall valid_state (splines_of example_network))
    by (repeat constructor; simpl; lia || lra).
  destruct (sampled_activations_are_coefficients example_network Hall)
    as (acts & E & L & H).
  exists acts. split; [exact E |]. split; [exact L |].
  intros xs ys Hp. exact (H 0%nat two_unit_module xs ys eq_refl Hp).
Defined.

(** ** The output as a linear map of the coefficients *)

Lemma sumQ_app l1 l2 : sumQ (l1 ++ l2) == sumQ l1 + sumQ l2.
Proof.
  induction l1 as [|a l1 IH]; cbn [app].
  - rewrite sumQ_nil. ring.
  - rewrite !sumQ_cons, IH. ring.
Qed.

Lemma psum_S N F : psum (S N) F == psum N F + F N.
Proof.
  unfold psum. rewrite seq_S, fmap_app, sumQ_app. cbn [fmap list_fmap Nat.add].
  rewrite sumQ_cons, sumQ_nil. ring.
Qed.



Section Weights.

Variable m : DeepBSplineBase.

Hypothesis Hvalid : valid_state m.

Variable x : Tensor.

Hypothesis Hwf : wf_tensor x.

Hypothesis HC : dimC x = num_activations m.


End Weights.







(** ** Slopes and coefficients: the other direction *)

Lemma valid_set_coefficients m c :
  valid_state m -> length c = length (coefficients_vect_ m) ->
  valid_state (set_coefficients m c).
Proof.
  intros [Hg Ho Hs Hl] Hc. constructor; cbn [set_coefficients grid size
    num_activations coefficients_vect_]; [done | done | done | by rewrite Hc].
Qed.

Lemma conv1d_D1 (input : list Q) grid :
  (2 <= length input)%nat -> ~ grid == 0 ->
  exists d1,
    conv1d input (D1_filter grid) = Ok d1 /\
    length d1 = (length input - 1)%nat /\
    forall s, (s < length input - 1)%nat ->
      d1 !!! s == (input !!! (s + 1)%nat - input !!! s) / grid.
Proof.
  intros Hlen Hg. unfold conv1d. cbn [D1_filter fmap list_fmap length].
  destruct (decide _) as [_|?]; [| lia].
  eexists. split; [reflexivity |]. split.
  - rewrite length_fmap, length_seq. lia.
  - intros s Hs. rewrite fmap_total by (rewrite length_seq; lia).
    rewrite lookup_total_seq_lt by lia.
    cbn [imap]. unfold compose. rewrite !sumQ_cons, sumQ_nil. cbn [Nat.add].
    replace (s + 0)%nat with s by lia. field. done.
Qed.

Lemma row_length cv size r : length (row cv size r) = size.
Proof. unfold row. by rewrite length_fmap, length_seq. Qed.

Lemma row_lookup cv size r s :
  (s < size)%nat -> row cv size r !!! s = cv !!! (r * size + s)%nat.
Proof.
  intros Hs. unfold row. rewrite fmap_total by (by rewrite length_seq).
  by rewrite lookup_total_seq_lt.
Qed.

(** X9.  The other round trip, the one [apply_threshold] relies on
    ("(b0,b1,[a])->[c]->[a'] while keeping the same zero slopes in [a] and
    [a']"): converting any slopes of shape [(num_activations, size - 2)] to
    coefficients and taking [relu_slopes] of the result gives the slopes
    back, entry by entry. *)
Theorem coefficients_of_slopes_round_trip (m : DeepBSplineBase)
    (slopes : list (list Q)) :
  valid_state m ->
  slopes_shape (num_activations m) (size m) slopes ->
  exists c slopes',
    iterative_relu_slopes_to_coefficients m slopes
      = Ok (set_coefficients m c, c) /\
    relu_slopes (set_coefficients m c) = Ok slopes' /\
    forall r j, (r < num_activations m)%nat -> (j < size m - 2)%nat ->
      (slopes' !!! r) !!! j == (slopes !!! r) !!! j.
Proof.
  intros Hv Hshape. pose proof Hv as [Hg Ho Hs Hl].
  destruct (iterative_total m slopes Hl ltac:(lia) Hshape)
    as (c & E & Hlen & Hfr & Hrec).
  assert (Hv' : valid_state (set_coefficients m c))
    by (apply valid_set_coefficients; [done | by rewrite Hlen, Hl]).
  exists c, (slopes_of (set_coefficients m c)).
  split; [exact E |]. split; [by apply relu_slopes_eval |].
  intros r j Hr Hj.
  rewrite (slopes_of_lookup (set_coefficients m c) r j) by done.
  cbn [set_coefficients coefficients_vect_ size grid].
  pose proof (Hrec r (j + 2)%nat Hr ltac:(lia)) as Hrq. unfold rec_eq in Hrq.
  replace (j + 2 - 1)%nat with (j + 1)%nat in Hrq by lia.
  replace (j + 2 - 2)%nat with j in Hrq by lia.
  rewrite Hrq. field. lra.
Qed.

(** The slopes 3 and 0 on the layer of two activations *)
Lemma coefficients_of_slopes_round_trip_witness :
  exists c slopes',
    iterative_relu_slopes_to_coefficients two_unit_module [[3]; [0]]
      = Ok (set_coefficients two_unit_module c, c) /\
    relu_slopes (set_coefficients two_unit_module c) = Ok slopes' /\
    forall r j, (r < 2)%nat -> (j < 3 - 2)%nat ->
      (slopes' !!! r) !!! j == ([[3]; [0]] !!! r) !!! j.
Proof.
  apply (coefficients_of_slopes_round_trip two_unit_module [[3]; [0]]
           two_unit_module_valid).
  split; [reflexivity |]. by repeat constructor.
Defined.

(** X10.  The linear term is in the nullspace of the second finite
    difference: two coefficient vectors related by a linear term, [c'[r,s]
    = c[r,s] + a_r * s + b_r], give the same [relu_slopes]. *)
Theorem relu_slopes_ignore_linear_term (m : DeepBSplineBase) (c' : list Q)
    (a b : nat -> Q) :
  valid_state m ->
  length c' = length (coefficients_vect_ m) ->
  (forall r s, (r < num_activations m)%nat -> (s < size m)%nat ->
     c' !!! (r * size m + s)%nat
     == coefficient m r s + a r * inject_Z (Z.of_nat s) + b r) ->
  exists slopes slopes',
    relu_slopes m = Ok slopes /\
    relu_slopes (set_coefficients m c') = Ok slopes' /\
    forall r j, (r < num_activations m)%nat -> (j < size m - 2)%nat ->
      (slopes' !!! r) !!! j == (slopes !!! r) !!! j.
Proof.
  intros Hv Hlen Hrel. pose proof Hv as [Hg Ho Hs Hl].
  exists (slopes_of m), (slopes_of (set_coefficients m c')).
  split; [by apply relu_slopes_eval |].
  split; [by apply relu_slopes_eval, valid_set_coefficients |].
  intros r j Hr Hj.
  rewrite (slopes_of_lookup (set_coefficients m c') r j) by done.
  rewrite (slopes_of_lookup m r j) by done.
  cbn [set_coefficients coefficients_vect_ size grid].
  rewrite !Hrel by lia. unfold coefficient.
  rewrite !Nat2Z.inj_add, !inject_Z_plus.
  change (inject_Z (Z.of_nat 1)) with 1. change (inject_Z (Z.of_nat 2)) with 2.
  field. lra.
Qed.

(** [0,1,5] and [7,5,6] differ by the linear term [7 - 3s] *)
Lemma relu_slopes_ignore_linear_term_witness :
  exists slopes slopes',
    relu_slopes bent_module = Ok slopes /\
    relu_slopes tilted_module = Ok slopes' /\
    forall r j, (r < 1)%nat -> (j < 3 - 2)%nat ->
      (slopes' !!! r) !!! j == (slopes !!! r) !!! j.
Proof.
  assert (Hv : valid_state bent_module)
    by (constructor; simpl; [lra | reflexivity | lia | reflexivity]).
  apply (relu_slopes_ignore_linear_term bent_module [7; 5; 6]
           (fun _ => -3) (fun _ => 7) Hv eq_refl).
  intros r s Hr Hs. destruct r as [|r]; [| simpl in Hr; lia].
  destruct s as [|[|[|s]]]; [vm_compute; reflexivity .. | simpl in Hs; lia].
Defined.

(** X11.  The two derivative filters compose: the first-difference filter
    [D1_filter] turns a row of coefficients into the slopes of its
    [size - 1] segments, [(c[s+1] - c[s]) / grid], and [relu_slopes] (the
    [D2_filter]) are the jumps of those slopes at the interior knots,
    i.e. [grid] times [D1_filter] applied twice. *)
Theorem relu_slopes_are_slope_jumps (m : DeepBSplineBase) (r : nat) :
  valid_state m -> (r < num_activations m)%nat ->
  exists slopes d1 d2,
    relu_slopes m = Ok slopes /\
    conv1d (row (coefficients_vect_ m) (size m) r) (D1_filter (grid m)) = Ok d1 /\
    conv1d d1 (D1_filter (grid m)) = Ok d2 /\
    length d1 = (size m - 1)%nat /\ length d2 = (size m - 2)%nat /\
    (forall s, (s < size m - 1)%nat ->
       d1 !!! s == (coefficient m r (s + 1) - coefficient m r s) / grid m) /\
    (forall j, (j < size m - 2)%nat ->
       (slopes !!! r) !!! j == d1 !!! (j + 1)%nat - d1 !!! j /\
       (slopes !!! r) !!! j == grid m * d2 !!! j).
Proof.
  intros Hv Hr. pose proof Hv as [Hg Ho Hs Hl].
  assert (Hg0 : ~ grid m == 0) by lra.
  destruct (conv1d_D1 (row (coefficients_vect_ m) (size m) r) (grid m))
    as (d1 & E1 & L1 & V1); [rewrite row_length; lia | done |].
  rewrite row_length in L1, V1.
  destruct (conv1d_D1 d1 (grid m)) as (d2 & E2 & L2 & V2); [lia | done |].
  rewrite L1 in L2, V2.
  exists (slopes_of m), d1, d2.
  split; [by apply relu_slopes_eval |]. split; [done |]. split; [done |].
  split; [done |]. split; [lia |].
  assert (V1' : forall s, (s < size m - 1)%nat ->
            d1 !!! s == (coefficient m r (s + 1) - coefficient m r s) / grid m).
  { intros s Hlt. rewrite (V1 s Hlt), !row_lookup by lia. reflexivity. }
  split; [exact V1' |].
  intros j Hj. rewrite (slopes_of_lookup m r j) by done.
  rewrite (V2 j) by lia. rewrite !V1' by lia. unfold coefficient.
  rewrite <- !Nat.add_assoc. cbn [Nat.add]. split; field; lra.
Qed.

(** The second activation of the layer of two activations *)
Lemma relu_slopes_are_slope_jumps_witness :
  exists slopes d1 d2,
    relu_slopes two_unit_module = Ok slopes /\
    conv1d (row (coefficients_vect_ two_unit_module) 3 1) (D1_filter (1 # 2))
      = Ok d1 /\
    conv1d d1 (D1_filter (1 # 2)) = Ok d2 /\
    forall j, (j < 3 - 2)%nat ->
      (slopes !!! 1%nat) !!! j == d1 !!! (j + 1)%nat - d1 !!! j /\
      (slopes !!! 1%nat) !!! j == (1 # 2) * d2 !!! j.
Proof.
  destruct (relu_slopes_are_slope_jumps two_unit_module 1 two_unit_module_valid)
    as (slopes & d1 & d2 & H1 & H2 & H3 & _ & _ & _ & H4); [simpl; lia |].
  exists slopes, d1, d2. split; [exact H1 |]. split; [exact H2 |].
  split; [exact H3 | exact H4].
Defined.

(** ** The ReLU representation *)

Lemma knot_succ grid size s : knot grid size (s + 1) == knot grid size s + grid.
Proof.
  unfold knot. rewrite Nat2Z.inj_add, inject_Z_plus.
  change (inject_Z (Z.of_nat 1)) with 1. ring.
Qed.

Lemma knot_0 grid size : knot grid size 0 == - (grid * half size).
Proof. unfold knot. change (inject_Z (Z.of_nat 0)) with 0. ring. Qed.

Lemma knot_mono grid size s t :
  0 < grid -> (s <= t)%nat -> knot grid size s <= knot grid size t.
Proof.
  intros Hg Hst. unfold knot.
  assert (inject_Z (Z.of_nat s) <= inject_Z (Z.of_nat t))
    by (rewrite <- Zle_Qle; lia).
  nra.
Qed.

Lemma knot_last grid size :
  (size mod 2 = 1)%nat -> (3 <= size)%nat ->
  knot grid size (size - 2) == grid * half_m1 size.
Proof.
  intros Ho Hs. unfold knot, half, half_m1. rewrite <- inject_Z_sub.
  replace (Z.of_nat (size - 2) - Z.of_nat (size / 2))%Z
    with (Z.of_nat (size / 2) - 1)%Z by lia.
  reflexivity.
Qed.

Lemma relu_pos q : 0 <= q -> relu q == q.
Proof.
  intros H. unfold relu.
  destruct (Q.max_spec q 0) as [[H1 E]|[H1 E]]; rewrite E; lra.
Qed.

Lemma relu_neg q : q <= 0 -> relu q == 0.
Proof.
  intros H. unfold relu.
  destruct (Q.max_spec q 0) as [[H1 E]|[H1 E]]; rewrite E; lra.
Qed.

(** A sum whose terms vanish from position [c] on *)
Lemma psum_trunc M c F :
  (c <= M)%nat -> (forall j, (c <= j < M)%nat -> F j == 0) ->
  psum M F == psum c F.
Proof.
  induction M as [|M IH]; intros Hc Hz.
  - by replace c with 0%nat by lia.
  - destruct (decide (c = S M)) as [->|Hne]; [reflexivity |].
    rewrite psum_S, IH, Hz by (try lia; intros; apply Hz; lia). ring.
Qed.

Section Segments.

Variable m : DeepBSplineBase.

Hypothesis Hvalid : valid_state m.

Variable i : nat.

Hypothesis Hi : (i < num_activations m)%nat.

(** The segment an element lies on, with its position relative to the
    knots: the first segment extends to the left, the last one to the
    right. *)
Lemma spline_at_segment_region v :
  exists col : nat,
    (col <= size m - 2)%nat /\
    ((1 <= col)%nat -> knot (grid m) (size m) col <= v) /\
    ((col < size m - 2)%nat -> v < knot (grid m) (size m) (col + 1)) /\
    spline_at m i v
    == coefficient m i col
       + (coefficient m i (col + 1) - coefficient m i col) / grid m
         * (v - knot (grid m) (size m) col).
Proof.
  pose proof Hvalid as [Hg Ho Hs Hl].
  destruct (spline_at_segment m Hvalid i Hi v) as (col & Hc & EI & Esp).
  exists col. split; [done |]. unfold knot at 3. split; [| split; [| exact Esp]].
  - intros Hcol.
    destruct (clamped_cases (grid m) (size m) Hg Ho Hs v)
      as [(Hv & E & _)|[(Hin & E & _)|(Hv & E & _)]].
    + assert (E' : x_clamped (grid m) (size m) v
                   == grid m * inject_Z (- Z.of_nat (size m / 2)))
        by (rewrite E, inject_Z_opp; unfold half; ring).
      pose proof (indexes_of_clamped (grid m) (size m) Hg i v _ E') as EI'.
      unfold zero_knot_index in EI'. lia.
    + rewrite (indexes_eq (grid m) (size m) Ho Hs) in EI.
      pose proof (Qfloor_le (x_clamped (grid m) (size m) v / grid m)) as Hfl.
      replace (Qfloor (x_clamped (grid m) (size m) v / grid m))
        with (Z.of_nat col - Z.of_nat (size m / 2))%Z in Hfl by lia.
      rewrite inject_Z_sub in Hfl. fold (half (size m)) in Hfl.
      assert (Hq : x_clamped (grid m) (size m) v / grid m == v / grid m)
        by (rewrite E; reflexivity).
      rewrite Hq in Hfl. unfold knot.
      assert (Ev : v == grid m * (v / grid m)) by (field; lra).
      rewrite Ev at 1. nra.
    + assert (E' : x_clamped (grid m) (size m) v
                   == grid m * inject_Z (Z.of_nat (size m / 2) - 1))
        by (rewrite E; reflexivity).
      pose proof (indexes_of_clamped (grid m) (size m) Hg i v _ E') as EI'.
      assert (col = (size m - 2)%nat) as ->
        by (unfold zero_knot_index in EI'; lia).
      rewrite knot_last by done. exact Hv.
  - intros Hcol. rewrite knot_succ.
    destruct (clamped_cases (grid m) (size m) Hg Ho Hs v)
      as [(Hv & E & _)|[(Hin & E & _)|(Hv & E & _)]].
    + pose proof (knot_mono (grid m) (size m) 0 col Hg ltac:(lia)) as Hk.
      rewrite knot_0 in Hk. lra.
    + rewrite (indexes_eq (grid m) (size m) Ho Hs) in EI.
      pose proof (Qlt_floor (x_clamped (grid m) (size m) v / grid m)) as Hfl.
      replace (Qfloor (x_clamped (grid m) (size m) v / grid m) + 1)%Z
        with (Z.of_nat col - Z.of_nat (size m / 2) + 1)%Z in Hfl by lia.
      rewrite inject_Z_plus, inject_Z_sub in Hfl. fold (half (size m)) in Hfl.
      change (inject_Z 1) with 1 in Hfl.
      assert (Hq : x_clamped (grid m) (size m) v / grid m == v / grid m)
        by (rewrite E; reflexivity).
      rewrite Hq in Hfl. unfold knot.
      assert (Ev : v == grid m * (v / grid m)) by (field; lra).
      rewrite Ev at 1. nra.
    + assert (E' : x_clamped (grid m) (size m) v
                   == grid m * inject_Z (Z.of_nat (size m / 2) - 1))
        by (rewrite E; reflexivity).
      pose proof (indexes_of_clamped (grid m) (size m) Hg i v _ E') as EI'.
      unfold zero_knot_index in EI'. lia.
Qed.

(** The partial sums of the expansion reach the line of each segment. *)
Lemma expansion_telescopes v (col : nat) :
  (col <= size m - 2)%nat ->
  coefficient m i 0
    + (coefficient m i 1 - coefficient m i 0) / grid m
      * (v - knot (grid m) (size m) 0)
    + psum col (fun j => (slopes_of m !!! i) !!! j
                         * (v - knot (grid m) (size m) (j + 1)))
  == coefficient m i col
     + (coefficient m i (col + 1) - coefficient m i col) / grid m
       * (v - knot (grid m) (size m) col).
Proof.
  pose proof Hvalid as [Hg Ho Hs Hl].
  induction col as [|col IH]; intros Hc.
  - unfold psum. cbn [seq fmap list_fmap]. rewrite sumQ_nil.
    change (0 + 1)%nat with 1%nat. ring.
  - rewrite psum_S, Qplus_assoc, IH by lia.
    rewrite (slopes_of_lookup m i col) by lia. fold (coefficient m i col).
    fold (coefficient m i (col + 1)). fold (coefficient m i (col + 2)).
    replace (S col) with (col + 1)%nat by lia.
    replace (col + 1 + 1)%nat with (col + 2)%nat by lia.
    rewrite (knot_succ (grid m) (size m) col). field. lra.
Qed.

(** The ReLU expansion with the slopes of the state is the activation. *)
Lemma spline_at_relu_expansion v :
  spline_at m i v
  == relu_expansion (grid m) (size m) (coefficient m i 0) (coefficient m i 1)
       (slopes_of m !!! i) v.
Proof.
  pose proof Hvalid as [Hg Ho Hs Hl].
  destruct (spline_at_segment_region v) as (col & Hc & Hlo & Hhi & ->).
  rewrite <- (expansion_telescopes v col Hc). unfold relu_expansion.
  apply Qplus_comp; [reflexivity |].
  rewrite (psum_trunc (size m - 2) col
             (fun j => (slopes_of m !!! i) !!! j
                       * relu (v - knot (grid m) (size m) (j + 1)))).
  - apply psum_ext. intros j Hj. rewrite relu_pos; [reflexivity |].
    pose proof (Hlo ltac:(lia)).
    pose proof (knot_mono (grid m) (size m) (j + 1) col Hg ltac:(lia)). lra.
  - done.
  - intros j Hj. rewrite relu_neg; [ring |].
    pose proof (Hhi ltac:(lia)).
    pose proof (knot_mono (grid m) (size m) (col + 1) (j + 1) Hg ltac:(lia)).
    lra.
Qed.

End Segments.

Lemma relu_expansion_ext grid size c0 c1 (a a' : list Q) v :
  (forall j, (j < size - 2)%nat -> a !!! j == a' !!! j) ->
  relu_expansion grid size c0 c1 a v == relu_expansion grid size c0 c1 a' v.
Proof.
  intros H. unfold relu_expansion. apply Qplus_comp; [reflexivity |].
  apply psum_ext. intros j Hj. rewrite (H j Hj). reflexivity.
Qed.

(** The slopes of a converted state are the slopes it was converted from. *)
Lemma converted_slopes m slopes c :
  valid_state m ->
  loop_inv (num_activations m) (size m) (grid m) slopes (coefficients_vect_ m)
    (size m) c ->
  forall r j, (r < num_activations m)%nat -> (j < size m - 2)%nat ->
    (slopes_of (set_coefficients m c) !!! r) !!! j == (slopes !!! r) !!! j.
Proof.
  intros [Hg Ho Hs Hl] (Hlen & Hfr & Hrec) r j Hr Hj.
  rewrite (slopes_of_lookup (set_coefficients m c) r j) by done.
  cbn [set_coefficients coefficients_vect_ size grid].
  pose proof (Hrec r (j + 2)%nat Hr ltac:(lia)) as Hrq. unfold rec_eq in Hrq.
  replace (j + 2 - 1)%nat with (j + 1)%nat in Hrq by lia.
  replace (j + 2 - 2)%nat with j in Hrq by lia.
  rewrite Hrq. field. lra.
Qed.

Lemma converted_first_two m slopes c r s :
  loop_inv (num_activations m) (size m) (grid m) slopes (coefficients_vect_ m)
    (size m) c ->
  (2 <= size m)%nat -> (s < 2)%nat ->
  coefficient (set_coefficients m c) r s = coefficient m r s.
Proof.
  intros (_ & Hfr & _) Hs Hlt. unfold coefficient.
  cbn [set_coefficients coefficients_vect_ size].
  rewrite !list_lookup_total_alt, Hfr; [reflexivity |].
  rewrite Nat.add_comm, Nat.Div0.mod_add. rewrite Nat.mod_small; lia.
Qed.

(** X12.  The ReLU representation of the module docstring,
    [deepspline(x) = sum_k a_k * ReLU(x - kT) + (b1*x + b0)]: on a valid
    state, the output of [forward] at every element [v] of channel [i] is
    the line through the first two coefficients of the channel plus the sum,
    over the interior knots, of [relu_slopes[i, j] * ReLU(v - knot (j+1))],
    inside the range and in both extrapolation regions. *)
Theorem forward_is_relu_expansion (m : DeepBSplineBase) (x : Tensor) :
  valid_state m -> wf_tensor x -> dimC x = num_activations m ->
  exists y slopes,
    forward_data m x = Ok y /\ relu_slopes m = Ok slopes /\
    length y = length (data x) /\
    forall k, (k < length (data x))%nat ->
      let i := channel_of x k in
      y !!! k == relu_expansion (grid m) (size m)
                   (coefficient m i 0) (coefficient m i 1) (slopes !!! i)
                   (data x !!! k).
Proof.
  intros Hv Hwf HC.
  destruct (forward_data_lookup m x Hv Hwf HC) as (y & E & L & V).
  exists y, (slopes_of m). split; [done |].
  split; [by apply relu_slopes_eval |]. split; [done |].
  intros k Hk. cbv zeta. rewrite (V k Hk).
  apply spline_at_relu_expansion; [done |].
  rewrite <- HC. by apply channel_of_lt.
Qed.

(** On the layer of two activations and its batch of four elements *)
Lemma forward_is_relu_expansion_witness :
  exists y slopes,
    forward_data two_unit_module two_unit_batch = Ok y /\
    relu_slopes two_unit_module = Ok slopes /\
    forall k, (k < 4)%nat ->
      y !!! k == relu_expansion (1 # 2) 3
                   (coefficient two_unit_module (channel_of two_unit_batch k) 0)
                   (coefficient two_unit_module (channel_of two_unit_batch k) 1)
                   (slopes !!! channel_of two_unit_batch k)
                   (data two_unit_batch !!! k).
Proof.
  destruct (forward_is_relu_expansion two_unit_module two_unit_batch
              two_unit_module_valid eq_refl eq_refl) as (y & s & H1 & H2 & _ & H3).
  exists y, s. split; [exact H1 |]. split; [exact H2 | exact H3].
Defined.

(** X13.  What [apply_threshold] does to the activation: whatever slopes
    [a_hat] of shape [(num_activations, size - 2)] the parent's thresholding
    returns, the module afterwards computes
    [sum_k a_hat_k * ReLU(x - kT) + (b1*x + b0)] with the linear term of the
    state before the call (the line through its first two coefficients). *)
Theorem apply_threshold_relu_expansion
    (super_apply_threshold : DeepBSplineBase -> Q -> result (list (list Q)))
    (m : DeepBSplineBase) (threshold : Q) (a_hat : list (list Q)) (x : Tensor) :
  valid_state m -> wf_tensor x -> dimC x = num_activations m ->
  super_apply_threshold m threshold = Ok a_hat ->
  slopes_shape (num_activations m) (size m) a_hat ->
  exists m' y,
    apply_threshold super_apply_threshold m threshold = Ok m' /\
    forward_data m' x = Ok y /\ length y = length (data x) /\
    forall k, (k < length (data x))%nat ->
      let i := channel_of x k in
      y !!! k == relu_expansion (grid m) (size m)
                   (coefficient m i 0) (coefficient m i 1) (a_hat !!! i)
                   (data x !!! k).
Proof.
  intros Hv Hwf HC Es Hshape. pose proof Hv as [Hg Ho Hs Hl].
  destruct (iterative_total m a_hat Hl ltac:(lia) Hshape) as (c & E & Hinv).
  assert (Hv' : valid_state (set_coefficients m c)).
  { apply valid_set_coefficients; [done |]. destruct Hinv as [Hlen _].
    by rewrite Hlen, Hl. }
  destruct (forward_data_lookup (set_coefficients m c) x Hv' Hwf HC)
    as (y & Ey & L & V).
  exists (set_coefficients m c), y. split; [| split; [done | split; [done |]]].
  - unfold apply_threshold. rewrite Es, bind_Ok, E, bind_Ok. reflexivity.
  - intros k Hk. cbv zeta. rewrite (V k Hk).
    assert (Hi : (channel_of x k < num_activations m)%nat)
      by (rewrite <- HC; by apply channel_of_lt).
    rewrite (spline_at_relu_expansion (set_coefficients m c) Hv' _ Hi).
    cbn [set_coefficients grid size].
    rewrite !(converted_first_two m a_hat c) by (done || lia).
    apply relu_expansion_ext. intros j Hj. by apply converted_slopes.
Qed.

(** With the thresholding the specification describes, at threshold 15:
    the slopes 18 and -14 become 18 and 0 *)
Lemma apply_threshold_relu_expansion_witness :
  exists m' y,
    apply_threshold threshold_slopes two_unit_module 15 = Ok m' /\
    forward_data m' two_unit_batch = Ok y /\
    forall k, (k < 4)%nat ->
      y !!! k == relu_expansion (1 # 2) 3
                   (coefficient two_unit_module (channel_of two_unit_batch k) 0)
                   (coefficient two_unit_module (channel_of two_unit_batch k) 1)
                   ([[18]; [0]] !!! channel_of two_unit_batch k)
                   (data two_unit_batch !!! k).
Proof.
  destruct (apply_threshold_relu_expansion threshold_slopes two_unit_module 15
              [[18]; [0]] two_unit_batch two_unit_module_valid eq_refl eq_refl)
    as (m' & y & H1 & H2 & _ & H3).
  - vm_compute. reflexivity.
  - split; [reflexivity |]. by repeat constructor.
  - exists m', y. split; [exact H1 |]. split; [exact H2 | exact H3].
Defined.

(** X14.  Zero slopes give an affine activation: after the conversion of
    all-zero slopes the module computes, for every input, the line through
    the first two coefficients of each activation. *)
Theorem zero_slopes_give_affine_activation (m : DeepBSplineBase)
    (slopes : list (list Q)) (x : Tensor) :
  valid_state m -> wf_tensor x -> dimC x = num_activations m ->
  slopes_shape (num_activations m) (size m) slopes ->
  Forall (Forall (fun a => a == 0)) slopes ->
  exists c y,
    iterative_relu_slopes_to_coefficients m slopes
      = Ok (set_coefficients m c, c) /\
    forward_data (set_coefficients m c) x = Ok y /\
    length y = length (data x) /\
    forall k, (k < length (data x))%nat ->
      let i := channel_of x k in
      y !!! k == coefficient m i 0
                 + (coefficient m i 1 - coefficient m i 0) / grid m
                   * (data x !!! k + grid m * half (size m)).
Proof.
  intros Hv Hwf HC Hshape Hzero. pose proof Hv as [Hg Ho Hs Hl].
  destruct (iterative_total m slopes Hl ltac:(lia) Hshape) as (c & E & Hinv).
  assert (Hv' : valid_state (set_coefficients m c)).
  { apply valid_set_coefficients; [done |]. destruct Hinv as [Hlen _].
    by rewrite Hlen, Hl. }
  destruct (forward_data_lookup (set_coefficients m c) x Hv' Hwf HC)
    as (y & Ey & L & V).
  exists c, y. split; [done |]. split; [done |]. split; [done |].
  intros k Hk. cbv zeta. rewrite (V k Hk).
  assert (Hi : (channel_of x k < num_activations m)%nat)
    by (rewrite <- HC; by apply channel_of_lt).
  rewrite (spline_at_relu_expansion (set_coefficients m c) Hv' _ Hi).
  cbn [set_coefficients grid size].
  rewrite !(converted_first_two m slopes c) by (done || lia).
  unfold relu_expansion. rewrite psum_zero, knot_0; [ring |].
  intros j Hj. rewrite (converted_slopes m slopes c Hv Hinv) by done.
  destruct Hshape as [Hn Hrows].
  assert (Hrow : Forall (fun a => a == 0) (slopes !!! channel_of x k)).
  { apply (Forall_lookup_1 _ _ (channel_of x k) _ Hzero).
    apply list_lookup_lookup_total_lt. lia. }
  assert (Hlenr : length (slopes !!! channel_of x k) = (size m - 2)%nat).
  { apply (Forall_lookup_1 _ _ (channel_of x k) _ Hrows).
    apply list_lookup_lookup_total_lt. lia. }
  assert (Ez : (slopes !!! channel_of x k) !!! j == 0).
  { apply (Forall_lookup_1 _ _ j _ Hrow).
    apply list_lookup_lookup_total_lt. lia. }
  rewrite Ez. ring.
Qed.

(** The layer of two activations with both slopes set to zero *)
Lemma zero_slopes_give_affine_activation_witness :
  exists c y,
    iterative_relu_slopes_to_coefficients two_unit_module [[0]; [0]]
      = Ok (set_coefficients two_unit_module c, c) /\
    forward_data (set_coefficients two_unit_module c) two_unit_batch = Ok y /\
    forall k, (k < 4)%nat ->
      y !!! k
      == coefficient two_unit_module (channel_of two_unit_batch k) 0
         + (coefficient two_unit_module (channel_of two_unit_batch k) 1
            - coefficient two_unit_module (channel_of two_unit_batch k) 0)
           / (1 # 2)
           * (data two_unit_batch !!! k + (1 # 2) * 1).
Proof.
  destruct (zero_slopes_give_affine_activation two_unit_module [[0]; [0]]
              two_unit_batch two_unit_module_valid eq_refl eq_refl)
    as (c & y & H1 & H2 & _ & H3).
  - split; [reflexivity |]. by repeat constructor.
  - by repeat constructor.
  - exists c, y. split; [exact H1 |]. split; [exact H2 | exact H3].
Defined.

(** ** States outside the invariant *)

Lemma relu_slopes_returns m :
  length (coefficients_vect_ m) = (num_activations m * size m)%nat ->
  (3 <= size m)%nat ->
  relu_slopes m = Ok (slopes_of m).
Proof.
  intros Hl Hs. unfold relu_slopes, view_check.
  destruct (decide _) as [_|Hn]; [| by destruct Hn]. rewrite bind_Ok.
  apply mapM_Ok. intros r _. unfold conv1d, row.
  rewrite length_fmap, length_seq. cbn [D2_filter fmap list_fmap length].
  destruct (decide _) as [_|?]; [| lia].
  by replace (size m - 3 + 1)%nat with (size m - 2)%nat by lia.
Qed.

Lemma boundary_slopes_wrong_length cv n size grid :
  length cv <> (n * size)%nat ->
  boundary_slopes cv n size grid = Raise RuntimeError.
Proof.
  intros H. unfold boundary_slopes, view_check.
  destruct (decide _); [done | reflexivity].
Qed.

(** X15.  When [relu_slopes] returns: with a coefficient vector of
    [num_activations * size] entries and [size >= 3] it returns one row of
    [size - 2] slopes per activation (whatever [grid] is); a vector of any
    other length fails in the [view], and a layer with fewer than three
    coefficients per activation fails in the convolution, both with a
    runtime error. *)
Theorem relu_slopes_shape_and_errors (m : DeepBSplineBase) :
  (length (coefficients_vect_ m) = (num_activations m * size m)%nat ->
   (3 <= size m)%nat ->
   exists slopes, relu_slopes m = Ok slopes /\
                  slopes_shape (num_activations m) (size m) slopes) /\
  (length (coefficients_vect_ m) <> (num_activations m * size m)%nat ->
   relu_slopes m = Raise RuntimeError) /\
  (length (coefficients_vect_ m) = (num_activations m * size m)%nat ->
   (size m < 3)%nat -> (1 <= num_activations m)%nat ->
   relu_slopes m = Raise RuntimeError).
Proof.
  split; [| split].
  - intros Hl Hs. exists (slopes_of m).
    split; [by apply relu_slopes_returns | apply slopes_of_shape].
  - intros Hl. unfold relu_slopes, view_check.
    destruct (decide _); [done | reflexivity].
  - intros Hl Hs Hn. unfold relu_slopes, view_check.
    destruct (decide _) as [_|?]; [| done]. rewrite bind_Ok.
    destruct (num_activations m) as [|n]; [lia |].
    cbn [seq mapM].
    assert (E : conv1d (row (coefficients_vect_ m) (size m) 0)
                  (D2_filter (grid m)) = Raise RuntimeError).
    { unfold conv1d. rewrite row_length.
      cbn [D2_filter fmap list_fmap length].
      destruct (decide _); [lia | reflexivity]. }
    rewrite E. reflexivity.
Qed.

(** A valid layer, a vector one entry short, and a layer of size 2 *)
Lemma relu_slopes_shape_and_errors_witness :
  (exists slopes, relu_slopes two_unit_module = Ok slopes /\
                  slopes_shape 2 3 slopes) /\
  relu_slopes short_module = Raise RuntimeError /\
  relu_slopes two_knot_module = Raise RuntimeError.
Proof.
  destruct (relu_slopes_shape_and_errors two_unit_module) as (H1 & _ & _).
  destruct (relu_slopes_shape_and_errors short_module) as (_ & H2 & _).
  destruct (relu_slopes_shape_and_errors two_knot_module) as (_ & _ & H3).
  split; [apply H1; [reflexivity | simpl; lia] |].
  split; [apply H2; simpl; lia | apply H3; [reflexivity | simpl; lia ..]].
Defined.

(** X16.  [forward] never returns a value on a state whose coefficient
    vector does not have [num_activations * size] entries: in either memory
    mode the [view] of the coefficients as a [(num_activations, size)]
    matrix is reached unless an earlier step has already failed, and it
    raises. *)
Theorem forward_rejects_wrong_length (m : DeepBSplineBase) (x : Tensor) :
  length (coefficients_vect_ m) <> (num_activations m * size m)%nat ->
  exists e, forward m x = Raise e.
Proof.
  intros Hl. unfold forward.
  destruct (decide _) as [HC|_]; [| by eexists].
  unfold Func_forward.
  destruct (fracs_indexes _ _ _ _) as [[fr idx]|e]; [| by eexists].
  rewrite bind_Ok. cbv beta iota.
  destruct (gather _ (Z.succ <$> idx)) as [right|e]; [| by eexists].
  rewrite bind_Ok.
  destruct (gather _ idx) as [left|e]; [| by eexists].
  rewrite bind_Ok. cbv zeta.
  destruct (save_memory m).
  - rewrite HC, boundary_slopes_wrong_length by done. by eexists.
  - rewrite bind_Ok. cbv beta iota.
    rewrite boundary_slopes_wrong_length by done. by eexists.
Qed.

(** A vector of two entries for a layer of size 3 *)
Lemma forward_rejects_wrong_length_witness :
  exists e, forward short_module (scalar_input 0) = Raise e.
Proof.
  apply (forward_rejects_wrong_length short_module (scalar_input 0)).
  simpl. lia.
Defined.

(** ** The regularisers over a network *)

Lemma module_tv_bv_returns lipschitz m :
  valid_state m -> exists v, module_tv_bv lipschitz m = Ok v.
Proof.
  intros Hv. unfold module_tv_bv.
  destruct (totalVariation_eval m Hv) as (tv & Etv & _).
  rewrite Etv, bind_Ok. destruct lipschitz; [| by eexists].
  destruct (fZerofOneAbs_returns m Hv) as (fz & Efz).
  rewrite Efz, bind_Ok. by eexists.
Qed.

Lemma norm1_nonneg v : 0 <= norm1 v.
Proof. apply sumQ_abs_nonneg. Qed.

(** The loop of [TV_BV] adds [lmbda] times what it adds to the unweighted
    sum, and only spline modules add anything. *)
Lemma TV_BV_loop_spec lipschitz lmbda modules : forall w u,
  Forall valid_state (splines_of modules) ->
  exists w' u',
    TV_BV_loop lipschitz lmbda modules w u = Ok (w', u') /\
    TV_BV_loop lipschitz lmbda (DeepSpline <$> splines_of modules) w u
      = Ok (w', u') /\
    w' - w == lmbda * (u' - u) /\ u <= u'.
Proof.
  induction modules as [|[m|wt|wt|] modules IH]; intros w u Hall;
    cbn [TV_BV_loop splines_of omap list_omap fmap list_fmap] in *.
  - exists w, u. repeat split; [ring | lra].
  - fold (splines_of modules) in *. cbn [TV_BV_loop].
    inversion Hall as [|? ? Hm Hrest]; subst.
    destruct (module_tv_bv_returns lipschitz m Hm) as (v & Ev).
    rewrite Ev, !bind_Ok.
    destruct (IH (w + lmbda * norm1 v) (u + norm1 v) Hrest)
      as (w' & u' & E1 & E2 & Hw & Hu).
    exists w', u'. split; [done |]. split; [done |].
    pose proof (norm1_nonneg v). split; lra.
  - fold (splines_of modules) in *. by apply IH.
  - fold (splines_of modules) in *. by apply IH.
  - fold (splines_of modules) in *. by apply IH.
Qed.

(** X17.  The two values [TV_BV] returns are consistent: on a network whose
    spline modules are valid states it returns, the weighted value is
    [lmbda] times the unweighted one, the unweighted one is non-negative,
    and the modules that are not spline activations contribute nothing. *)
Theorem TV_BV_weighted_and_unweighted (lipschitz : bool) (lmbda : Q)
    (modules : list Module) :
  Forall valid_state (splines_of modules) ->
  exists tv_bv tv_bv_unweighted,
    TV_BV lipschitz lmbda modules = Ok (tv_bv, tv_bv_unweighted) /\
    TV_BV lipschitz lmbda (DeepSpline <$> splines_of modules)
      = Ok (tv_bv, tv_bv_unweighted) /\
    tv_bv == lmbda * tv_bv_unweighted /\ 0 <= tv_bv_unweighted.
Proof.
  intros Hall. unfold TV_BV.
  destruct (TV_BV_loop_spec lipschitz lmbda modules 0 0 Hall)
    as (w & u & E1 & E2 & Hw & Hu).
  exists w, u. split; [done |]. split; [done |]. split; lra.
Qed.

(** On the small network with [lmbda = 1/10] *)
Lemma TV_BV_weighted_and_unweighted_witness :
  exists tv_bv tv_bv_unweighted,
    TV_BV true (1 # 10) example_network = Ok (tv_bv, tv_bv_unweighted) /\
    TV_BV true (1 # 10) [DeepSpline two_unit_module]
      = Ok (tv_bv, tv_bv_unweighted) /\
    tv_bv == (1 # 10) * tv_bv_unweighted /\ 0 <= tv_bv_unweighted.
Proof.
  apply (TV_BV_weighted_and_unweighted true (1 # 10) example_network).
  constructor; [apply two_unit_module_valid | constructor].
Defined.

(** The loop of [lipschitz_bound] multiplies its two accumulators by
    factors that depend on the modules only. *)
Lemma lipschitz_loop_factors net : forall bv mw B M,
  lipschitz_loop net bv mw = Ok (B, M) ->
  exists P W,
    0 <= P /\ 0 <= W /\ B == bv * P /\ M == mw * W /\
    forall bv' mw', exists B' M',
      lipschitz_loop net bv' mw' = Ok (B', M') /\
      B' == bv' * P /\ M' == mw' * W.
Proof.
  induction net as [|[m|w|w|] net IH]; intros bv mw B M H;
    cbn [lipschitz_loop] in H.
  - inversion H; subst. exists 1, 1. repeat split; try lra; try ring.
    intros bv' mw'. exists bv', mw'. repeat split; ring.
  - apply bind_Ok_inv in H as (tv & Etv & H).
    apply bind_Ok_inv in H as (fz & Efz & H).
    destruct (IH _ _ _ _ H) as (P & W & HP & HW & EB & EM & Hall).
    pose proof (totalVariation_nonneg m tv Etv) as Htv.
    pose proof (sumQ_nonneg fz (boundary_abs_nonneg 0 1 m fz Efz)) as Hfz.
    exists ((sumQ tv + sumQ fz) * P), W.
    split; [apply Qmult_le_0_compat; lra |]. split; [done |].
    split; [rewrite EB; ring |]. split; [done |].
    intros bv' mw'. cbn [lipschitz_loop]. rewrite Etv, bind_Ok, Efz, bind_Ok.
    destruct (Hall (bv' * (sumQ tv + sumQ fz)) mw') as (B' & M' & E & EB' & EM').
    exists B', M'. split; [done |]. split; [rewrite EB'; ring | done].
  - apply bind_Ok_inv in H as (mx & Emx & H).
    destruct (IH _ _ _ _ H) as (P & W & HP & HW & EB & EM & Hall).
    pose proof (abs_max_nonneg w mx Emx) as Hmx.
    exists P, (mx * W).
    split; [done |]. split; [apply Qmult_le_0_compat; lra |].
    split; [done |]. split; [rewrite EM; ring |].
    intros bv' mw'. cbn [lipschitz_loop]. rewrite Emx, bind_Ok.
    destruct (Hall bv' (mw' * mx)) as (B' & M' & E & EB' & EM').
    exists B', M'. split; [done |]. split; [done | rewrite EM'; ring].
  - apply bind_Ok_inv in H as (mx & Emx & H).
    destruct (IH _ _ _ _ H) as (P & W & HP & HW & EB & EM & Hall).
    pose proof (abs_max_nonneg w mx Emx) as Hmx.
    exists P, (mx * W).
    split; [done |]. split; [apply Qmult_le_0_compat; lra |].
    split; [done |]. split; [rewrite EM; ring |].
    intros bv' mw'. cbn [lipschitz_loop]. rewrite Emx, bind_Ok.
    destruct (Hall bv' (mw' * mx)) as (B' & M' & E & EB' & EM').
    exists B', M'. split; [done |]. split; [done | rewrite EM'; ring].
  - destruct (IH _ _ _ _ H) as (P & W & HP & HW & EB & EM & Hall).
    exists P, W. repeat (split; [done |]). intros bv' mw'. cbn [lipschitz_loop].
    apply Hall.
Qed.

Lemma lipschitz_loop_app net1 net2 bv mw :
  lipschitz_loop (net1 ++ net2) bv mw
  = '(B, M) ← lipschitz_loop net1 bv mw; lipschitz_loop net2 B M.
Proof.
  revert bv mw. induction net1 as [|[m|w|w|] net1 IH]; intros bv mw;
    cbn [app lipschitz_loop].
  - by rewrite bind_Ok.
  - destruct (totalVariation m) as [tv|e]; [| reflexivity]. rewrite !bind_Ok.
    destruct (fZerofOneAbs m) as [fz|e]; [| reflexivity]. rewrite !bind_Ok.
    apply IH.
  - destruct (abs_max w) as [mx|e]; [| reflexivity]. rewrite !bind_Ok. apply IH.
  - destruct (abs_max w) as [mx|e]; [| reflexivity]. rewrite !bind_Ok. apply IH.
  - apply IH.
Qed.

(** X18.  The bound of a network built from two parts is the product of the
    bounds of the parts, and every bound is non-negative; a part on which
    [lipschitz_bound] raises makes the whole raise. *)
Theorem lipschitz_bound_of_concatenation (net1 net2 : list Module) :
  (forall b1 b2,
     lipschitz_bound net1 = Ok b1 -> lipschitz_bound net2 = Ok b2 ->
     0 <= b1 /\ 0 <= b2 /\
     exists b, lipschitz_bound (net1 ++ net2) = Ok b /\ b == b1 * b2) /\
  (forall e, lipschitz_bound net1 = Raise e ->
     lipschitz_bound (net1 ++ net2) = Raise e).
Proof.
  unfold lipschitz_bound. split.
  - intros b1 b2 H1 H2.
    apply bind_Ok_inv in H1 as ([B1 M1] & E1 & H1). inversion H1; subst.
    apply bind_Ok_inv in H2 as ([B2 M2] & E2 & H2). inversion H2; subst.
    destruct (lipschitz_loop_factors _ _ _ _ _ E1)
      as (P1 & W1 & HP1 & HW1 & EB1 & EM1 & _).
    destruct (lipschitz_loop_factors _ _ _ _ _ E2)
      as (P2 & W2 & HP2 & HW2 & EB2 & EM2 & Hall).
    destruct (Hall B1 M1) as (B & M & E & EB & EM).
    split; [rewrite EB1, EM1; apply Qmult_le_0_compat; lra |].
    split; [rewrite EB2, EM2; apply Qmult_le_0_compat; lra |].
    exists (M * B). rewrite lipschitz_loop_app, E1, bind_Ok. cbv beta iota.
    rewrite E, bind_Ok. split; [reflexivity |].
    rewrite EB, EM, EB2, EM2. ring.
  - intros e H. rewrite lipschitz_loop_app.
    destruct (lipschitz_loop net1 1 1) as [[B M]|e']; [discriminate |].
    inversion H; subst. reflexivity.
Qed.

(** The small network split in two, and a linear layer without entries *)
Lemma lipschitz_bound_of_concatenation_witness :
  exists b1 b2 b,
    lipschitz_bound [Linear [1; -3; 2]; DeepSpline two_unit_module] = Ok b1 /\
    lipschitz_bound [OtherModule; Conv2d [1 # 2]] = Ok b2 /\
    lipschitz_bound example_network = Ok b /\ b == b1 * b2 /\
    lipschitz_bound ([Linear []] ++ [Conv2d [1 # 2]]) = Raise RuntimeError.
Proof.
  destruct (lipschitz_bound_returns [Linear [1; -3; 2]; DeepSpline two_unit_module])
    as (b1 & E1).
  { repeat constructor; simpl; (done || lia || lra). }
  destruct (lipschitz_bound_returns [OtherModule; Conv2d [1 # 2]]) as (b2 & E2).
  { by repeat constructor. }
  destruct (lipschitz_bound_of_concatenation
              [Linear [1; -3; 2]; DeepSpline two_unit_module]
              [OtherModule; Conv2d [1 # 2]]) as [H _].
  destruct (H b1 b2 E1 E2) as (_ & _ & b & E & Hb).
  destruct (lipschitz_bound_of_concatenation [Linear []] [Conv2d [1 # 2]])
    as [_ H'].
  exists b1, b2, b. split; [exact E1 |]. split; [exact E2 |].
  split; [exact E |]. split; [exact Hb |].
  apply H'. reflexivity.
Defined.

(** ** Sparsification *)

Lemma apply_threshold_frame super m threshold m' :
  apply_threshold super m threshold = Ok m' -> same_linear_term m m'.
Proof.
  intros H. unfold apply_threshold in H.
  apply bind_Ok_inv in H as (s & _ & H).
  apply bind_Ok_inv in H as ([m1 c] & Hit & H). inversion H; subst.
  apply iterative_frame in Hit as (-> & Hlen & Hfr).
  unfold same_linear_term.
  cbn [set_coefficients num_activations size grid coefficients_vect_].
  repeat (split; [done |]).
  intros r i Hi Hs. apply Hfr.
  rewrite Nat.add_comm, Nat.Div0.mod_add. rewrite Nat.mod_small; lia.
Qed.

Lemma threshold_row_length threshold r :
  length (threshold_row threshold r) = length r.
Proof. unfold threshold_row. by rewrite length_fmap. Qed.

Lemma threshold_row_lookup threshold (r : list Q) j :
  (j < length r)%nat ->
  threshold_row threshold r !!! j
  = if Qlt_le_dec (Qabs (r !!! j)) threshold then 0 else r !!! j.
Proof. intros Hj. unfold threshold_row. by rewrite fmap_total. Qed.

Lemma slopes_of_row_length m r :
  (r < num_activations m)%nat -> length (slopes_of m !!! r) = (size m - 2)%nat.
Proof.
  intros Hr. destruct (slopes_of_shape m) as [Hn Hrows].
  apply (Forall_lookup_1 _ _ r _ Hrows).
  apply list_lookup_lookup_total_lt. lia.
Qed.

(** The thresholded slopes of a state, entry by entry *)
Lemma thresholded_lookup m threshold r j :
  (r < num_activations m)%nat -> (j < size m - 2)%nat ->
  ((threshold_row threshold <$> slopes_of m) !!! r) !!! j
  = if Qlt_le_dec (Qabs ((slopes_of m !!! r) !!! j)) threshold then 0
    else (slopes_of m !!! r) !!! j.
Proof.
  intros Hr Hj. destruct (slopes_of_shape m) as [Hn _].
  rewrite fmap_total by lia.
  apply threshold_row_lookup. rewrite slopes_of_row_length by done. lia.
Qed.

Lemma thresholded_shape m threshold :
  slopes_shape (num_activations m) (size m) (threshold_row threshold <$> slopes_of m).
Proof.
  destruct (slopes_of_shape m) as [Hn Hrows]. split.
  - by rewrite length_fmap.
  - apply Forall_fmap. eapply Forall_impl; [exact Hrows |].
    intros r Hr. simpl. by rewrite threshold_row_length.
Qed.

(** [apply_threshold] with the thresholding of the parent class, on a
    valid state *)
Lemma apply_threshold_eval m threshold :
  valid_state m ->
  exists c,
    apply_threshold threshold_slopes m threshold = Ok (set_coefficients m c) /\
    valid_state (set_coefficients m c) /\
    loop_inv (num_activations m) (size m) (grid m)
      (threshold_row threshold <$> slopes_of m) (coefficients_vect_ m) (size m) c.
Proof.
  intros Hv. pose proof Hv as [Hg Ho Hs Hl].
  destruct (iterative_total m (threshold_row threshold <$> slopes_of m) Hl
              ltac:(lia) (thresholded_shape m threshold)) as (c & E & Hinv).
  exists c. split; [| split; [| done]].
  - unfold apply_threshold, threshold_slopes.
    rewrite (relu_slopes_eval m Hv), !bind_Ok, E, bind_Ok. reflexivity.
  - apply valid_set_coefficients; [done |]. destruct Hinv as [Hlen _].
    by rewrite Hlen, Hl.
Qed.

(** Coefficients rebuilt from the slopes of the state itself (up to [==])
    are the coefficients of the state. *)
Lemma rebuilt_from_own_slopes m slopes c :
  valid_state m ->
  (forall r j, (r < num_activations m)%nat -> (j < size m - 2)%nat ->
     (slopes !!! r) !!! j == (slopes_of m !!! r) !!! j) ->
  loop_inv (num_activations m) (size m) (grid m) slopes
    (coefficients_vect_ m) (size m) c ->
  Forall2 Qeq c (coefficients_vect_ m).
Proof.
  intros Hv Hsl (Hlen & Hfr & Hrec). pose proof Hv as [Hg Ho Hs Hl].
  assert (Hcols : forall r, (r < num_activations m)%nat ->
            forall t col, (col <= t)%nat -> (col < size m)%nat ->
              c !!! (r * size m + col)%nat
              == coefficients_vect_ m !!! (r * size m + col)%nat).
  { intros r Hr.
    assert (Hlow : forall col, (col < 2)%nat ->
              c !!! (r * size m + col)%nat
              = coefficients_vect_ m !!! (r * size m + col)%nat).
    { intros col Hc. rewrite !list_lookup_total_alt.
      rewrite Hfr; [reflexivity |].
      rewrite Nat.add_comm, Nat.Div0.mod_add. rewrite Nat.mod_small; lia. }
    induction t as [|t IH]; intros col Hct Hcol.
    - rewrite Hlow by lia. reflexivity.
    - destruct (decide (col < 2)%nat) as [Hc2|Hc2].
      + rewrite Hlow by lia. reflexivity.
      + rewrite (Hrec r col Hr) by lia.
        rewrite (IH (col - 1)%nat) by lia. rewrite (IH (col - 2)%nat) by lia.
        rewrite (Hsl r (col - 2)%nat Hr) by lia.
        rewrite (slopes_of_lookup m r (col - 2)) by lia.
        replace (col - 2 + 1)%nat with (col - 1)%nat by lia.
        replace (col - 2 + 2)%nat with col by lia.
        field. lra. }
  apply Forall2_Qeq_lookup; [by rewrite Hlen, Hl |].
  intros k Hk. rewrite Hlen in Hk.
  assert (Hr : (k / size m < num_activations m)%nat)
    by (apply Nat.Div0.div_lt_upper_bound; lia).
  assert (Hc : (k mod size m < size m)%nat)
    by (apply Nat.mod_upper_bound; lia).
  pose proof (Hcols (k / size m)%nat Hr (k mod size m) (k mod size m)
                (Nat.le_refl _) Hc) as Hrt.
  replace (k / size m * size m + k mod size m)%nat with k in Hrt; [done |].
  pose proof (Nat.div_mod_eq k (size m)). lia.
Qed.

Lemma psum_le N F G :
  (forall k, (k < N)%nat -> F k <= G k) -> psum N F <= psum N G.
Proof.
  induction N as [|N IH]; intros H.
  - unfold psum. cbn [seq fmap list_fmap]. rewrite sumQ_nil. lra.
  - rewrite !psum_S. pose proof (H N ltac:(lia)).
    assert (psum N F <= psum N G) by (apply IH; intros; apply H; lia). lra.
Qed.

Lemma totalVariation_lookup m r :
  valid_state m -> (r < num_activations m)%nat ->
  exists tv, totalVariation m = Ok tv /\ length tv = num_activations m /\
    tv !!! r == psum (size m - 2) (fun j => Qabs ((slopes_of m !!! r) !!! j)).
Proof.
  intros Hv Hr. unfold totalVariation.
  rewrite (relu_slopes_eval m Hv), bind_Ok.
  destruct (slopes_of_shape m) as [Hn _].
  eexists. split; [reflexivity |]. split; [by rewrite length_fmap |].
  rewrite fmap_total by lia.
  apply sumQ_psum; [by rewrite length_fmap, slopes_of_row_length |].
  intros j Hj. rewrite fmap_total by (rewrite slopes_of_row_length; done).
  reflexivity.
Qed.

Lemma threshold_abs_le threshold a :
  Qabs (if Qlt_le_dec (Qabs a) threshold then 0 else a) <= Qabs a.
Proof.
  destruct (Qlt_le_dec _ _); [| lra].
  change (Qabs 0) with 0. apply Qabs_nonneg.
Qed.

(** One thresholded module: the call returns a valid state whose TV(2)
    values are at most those before the call. *)
Lemma thresholded_TV m threshold :
  valid_state m ->
  exists c tv tv',
    apply_threshold threshold_slopes m threshold = Ok (set_coefficients m c) /\
    valid_state (set_coefficients m c) /\
    totalVariation m = Ok tv /\
    totalVariation (set_coefficients m c) = Ok tv' /\
    (forall r, (r < num_activations m)%nat -> tv' !!! r <= tv !!! r) /\
    norm1 tv' <= norm1 tv.
Proof.
  intros Hv.
  destruct (apply_threshold_eval m threshold Hv) as (c & E & Hv' & Hinv).
  destruct (totalVariation_eval m Hv) as (tv & Etv & Ltv & Ptv).
  destruct (totalVariation_eval _ Hv') as (tv' & Etv' & Ltv' & Ptv').
  cbn [set_coefficients num_activations] in Ltv'.
  exists c, tv, tv'. repeat (split; [done |]).
  assert (Hle : forall r, (r < num_activations m)%nat -> tv' !!! r <= tv !!! r).
  { intros r Hr.
    destruct (totalVariation_lookup m r Hv Hr) as (t1 & E1 & _ & V1).
    destruct (totalVariation_lookup _ r Hv' Hr) as (t2 & E2 & _ & V2).
    rewrite Etv in E1. rewrite Etv' in E2.
    inversion E1; subst t1. inversion E2; subst t2.
    rewrite V1, V2. cbn [set_coefficients size]. apply psum_le.
    intros j Hj.
    rewrite (converted_slopes m _ c Hv Hinv r j Hr Hj).
    rewrite thresholded_lookup by done. apply threshold_abs_le. }
  split; [exact Hle |].
  unfold norm1.
  rewrite (sumQ_psum (Qabs <$> tv') (num_activations m) (fun r => tv' !!! r)).
  - rewrite (sumQ_psum (Qabs <$> tv) (num_activations m) (fun r => tv !!! r)).
    + by apply psum_le.
    + by rewrite length_fmap.
    + intros r Hr. rewrite fmap_total by lia. apply Qabs_pos.
      apply (Forall_lookup_1 _ _ r _ Ptv).
      apply list_lookup_lookup_total_lt. lia.
  - by rewrite length_fmap.
  - intros r Hr. rewrite fmap_total by lia. apply Qabs_pos.
    apply (Forall_lookup_1 _ _ r _ Ptv').
    apply list_lookup_lookup_total_lt. lia.
Qed.

Lemma sparsified_TV lmbda threshold modules : forall w u w0 u0,
  Forall valid_state (splines_of modules) -> u0 <= u ->
  exists modules' w' u' w0' u0',
    sparsify_activations threshold_slopes threshold modules = Ok modules' /\
    Forall valid_state (splines_of modules') /\
    TV_BV_loop false lmbda modules w u = Ok (w', u') /\
    TV_BV_loop false lmbda modules' w0 u0 = Ok (w0', u0') /\
    u0' <= u'.
Proof.
  induction modules as [|[m|wt|wt|] modules IH]; intros w u w0 u0 Hall Hu;
    cbn [sparsify_activations TV_BV_loop splines_of omap list_omap] in *.
  - exists [], w, u, w0, u0. repeat split; [constructor | done].
  - fold (splines_of modules) in *.
    inversion Hall as [|? ? Hm Hrest]; subst.
    destruct (thresholded_TV m threshold Hm)
      as (c & tv & tv' & E & Hv' & Etv & Etv' & _ & Hn).
    destruct (IH (w + lmbda * norm1 tv) (u + norm1 tv)
                (w0 + lmbda * norm1 tv') (u0 + norm1 tv') Hrest ltac:(lra))
      as (modules' & w' & u' & w0' & u0' & Es & Hvs & E1 & E2 & Hle).
    exists (DeepSpline (set_coefficients m c) :: modules'), w', u', w0', u0'.
    rewrite E, bind_Ok, Es, bind_Ok.
    split; [reflexivity |]. split; [by constructor |].
    unfold module_tv_bv. rewrite Etv, !bind_Ok.
    split; [done |]. cbn [TV_BV_loop]. unfold module_tv_bv.
    rewrite Etv', !bind_Ok. by split.
  - fold (splines_of modules) in *.
    destruct (IH w u w0 u0 Hall Hu)
      as (modules' & w' & u' & w0' & u0' & Es & Hvs & E1 & E2 & Hle).
    exists (Linear wt :: modules'), w', u', w0', u0'. rewrite Es, bind_Ok.
    by repeat split.
  - fold (splines_of modules) in *.
    destruct (IH w u w0 u0 Hall Hu)
      as (modules' & w' & u' & w0' & u0' & Es & Hvs & E1 & E2 & Hle).
    exists (Conv2d wt :: modules'), w', u', w0', u0'. rewrite Es, bind_Ok.
    by repeat split.
  - fold (splines_of modules) in *.
    destruct (IH w u w0 u0 Hall Hu)
      as (modules' & w' & u' & w0' & u0' & Es & Hvs & E1 & E2 & Hle).
    exists (OtherModule :: modules'), w', u', w0', u0'. rewrite Es, bind_Ok.
    by repeat split.
Qed.

Lemma sparsify_frame super threshold modules : forall modules',
  sparsify_activations super threshold modules = Ok modules' ->
  length modules' = length modules /\
  weights_of modules' = weights_of modules /\
  Forall2 same_linear_term (splines_of modules) (splines_of modules').
Proof.
  induction modules as [|[m|wt|wt|] modules IH]; intros modules' H;
    cbn [sparsify_activations] in H.
  - inversion H; subst. repeat split. constructor.
  - apply bind_Ok_inv in H as (m' & Em & H).
    apply bind_Ok_inv in H as (rest' & Er & H). inversion H; subst.
    destruct (IH _ Er) as (Hlen & Hw & Hs).
    cbn [length weights_of splines_of omap list_omap].
    fold (weights_of modules) (weights_of rest').
    fold (splines_of modules) (splines_of rest').
    split; [by rewrite Hlen |]. split; [done |].
    constructor; [by eapply apply_threshold_frame | done].
  - apply bind_Ok_inv in H as (rest' & Er & H). inversion H; subst.
    destruct (IH _ Er) as (Hlen & Hw & Hs).
    cbn [length weights_of splines_of omap list_omap].
    fold (weights_of modules) (weights_of rest').
    fold (splines_of modules) (splines_of rest').
    split; [by rewrite Hlen |]. split; [by rewrite Hw | done].
  - apply bind_Ok_inv in H as (rest' & Er & H). inversion H; subst.
    destruct (IH _ Er) as (Hlen & Hw & Hs).
    cbn [length weights_of splines_of omap list_omap].
    fold (weights_of modules) (weights_of rest').
    fold (splines_of modules) (splines_of rest').
    split; [by rewrite Hlen |]. split; [by rewrite Hw | done].
  - apply bind_Ok_inv in H as (rest' & Er & H). inversion H; subst.
    destruct (IH _ Er) as (Hlen & Hw & Hs).
    cbn [length weights_of splines_of omap list_omap].
    fold (weights_of modules) (weights_of rest').
    fold (splines_of modules) (splines_of rest').
    split; [by rewrite Hlen |]. split; [done | done].
Qed.

Lemma sparsify_returns super threshold modules :
  Forall valid_state (splines_of modules) ->
  (forall m, m ∈ splines_of modules ->
     exists s, super m threshold = Ok s /\
               slopes_shape (num_activations m) (size m) s) ->
  exists modules', sparsify_activations super threshold modules = Ok modules'.
Proof.
  induction modules as [|[m|wt|wt|] modules IH]; intros Hall Hsup;
    cbn [sparsify_activations splines_of omap list_omap] in *.
  - by eexists.
  - fold (splines_of modules) in *.
    inversion Hall as [|? ? Hm Hrest]; subst.
    destruct (Hsup m ltac:(left)) as (s & Es & Hshape).
    destruct Hm as [Hg Ho Hs Hl].
    destruct (iterative_total m s Hl ltac:(lia) Hshape) as (c & E & _).
    destruct (IH Hrest) as (rest' & Er).
    { intros m0 Hm0. apply Hsup. by right. }
    unfold apply_threshold. rewrite Es, bind_Ok, E, !bind_Ok, Er, bind_Ok.
    by eexists.
  - fold (splines_of modules) in *.
    destruct (IH Hall Hsup) as (rest' & Er). rewrite Er, bind_Ok. by eexists.
  - fold (splines_of modules) in *.
    destruct (IH Hall Hsup) as (rest' & Er). rewrite Er, bind_Ok. by eexists.
  - fold (splines_of modules) in *.
    destruct (IH Hall Hsup) as (rest' & Er). rewrite Er, bind_Ok. by eexists.
Qed.

(** X19.  [sparsify_activations] touches the spline modules only, and of
    those only the coefficients from index 2 on: a call that returns leaves
    the number of modules and every weight tensor as they were, and each
    spline module keeps its shape, its grid and the first two coefficients
    of every activation.  When the spline modules are valid states and the
    parent's thresholding returns slopes of shape [(num_activations,
    size - 2)], the call returns. *)
Theorem sparsify_activations_frame
    (super_apply_threshold : DeepBSplineBase -> Q -> result (list (list Q)))
    (slope_diff_threshold : Q) (modules : list Module) :
  (forall modules',
     sparsify_activations super_apply_threshold slope_diff_threshold modules
       = Ok modules' ->
     length modules' = length modules /\
     weights_of modules' = weights_of modules /\
     Forall2 same_linear_term (splines_of modules) (splines_of modules')) /\
  (Forall valid_state (splines_of modules) ->
   (forall m, m ∈ splines_of modules ->
      exists s, super_apply_threshold m slope_diff_threshold = Ok s /\
                slopes_shape (num_activations m) (size m) s) ->
   exists modules',
     sparsify_activations super_apply_threshold slope_diff_threshold modules
       = Ok modules').
Proof.
  split; [apply sparsify_frame | apply sparsify_returns].
Qed.

(** On the small network at threshold 15 *)
Lemma sparsify_activations_frame_witness :
  exists modules',
    sparsify_activations threshold_slopes 15 example_network = Ok modules' /\
    length modules' = 4%nat /\
    weights_of modules' = [[1; -3; 2]; [1 # 2]] /\
    Forall2 same_linear_term [two_unit_module] (splines_of modules').
Proof.
  destruct (sparsify_activations_frame threshold_slopes 15 example_network)
    as [Hframe Hret].
  destruct Hret as (modules' & E).
  - constructor; [apply two_unit_module_valid | constructor].
  - intros m Hm. apply list_elem_of_singleton in Hm as ->.
    apply threshold_slopes_shape, two_unit_module_valid.
  - exists modules'. split; [exact E |]. exact (Hframe modules' E).
Defined.

(** X20.  Sparsification never increases the TV(2) regulariser: with the
    thresholding that sets [a_k] to zero if [|a_k| < slope_diff_threshold],
    on a network whose spline modules are valid states,
    [sparsify_activations] returns, and the unweighted TV(2) sum that
    [TV_BV] computes afterwards is at most the one before. *)
Theorem sparsify_never_increases_TV (slope_diff_threshold lmbda : Q)
    (modules : list Module) :
  Forall valid_state (splines_of modules) ->
  exists modules' tv tv_unweighted tv' tv_unweighted',
    sparsify_activations threshold_slopes slope_diff_threshold modules
      = Ok modules' /\
    TV_BV false lmbda modules = Ok (tv, tv_unweighted) /\
    TV_BV false lmbda modules' = Ok (tv', tv_unweighted') /\
    tv_unweighted' <= tv_unweighted.
Proof.
  intros Hall. unfold TV_BV.
  destruct (sparsified_TV lmbda slope_diff_threshold modules 0 0 0 0 Hall
              ltac:(lra))
    as (modules' & w' & u' & w0' & u0' & Es & _ & E1 & E2 & Hle).
  by exists modules', w', u', w0', u0'.
Qed.

(** On the small network at threshold 15, which removes the slope -14 *)
Lemma sparsify_never_increases_TV_witness :
  exists modules' tv tv_unweighted tv' tv_unweighted',
    sparsify_activations threshold_slopes 15 example_network = Ok modules' /\
    TV_BV false 1 example_network = Ok (tv, tv_unweighted) /\
    TV_BV false 1 modules' = Ok (tv', tv_unweighted') /\
    tv_unweighted' <= tv_unweighted.
Proof.
  apply (sparsify_never_increases_TV 15 1 example_network).
  constructor; [apply two_unit_module_valid | constructor].
Defined.

(** X21.  A threshold that is not positive removes nothing: with
    [threshold <= 0] no slope has [|a_k| < threshold], and [apply_threshold]
    stores coefficients equal to the ones it found. *)
Theorem nonpositive_threshold_keeps_coefficients (m : DeepBSplineBase)
    (threshold : Q) :
  valid_state m -> threshold <= 0 ->
  exists m',
    apply_threshold threshold_slopes m threshold = Ok m' /\
    Forall2 Qeq (coefficients_vect_ m') (coefficients_vect_ m).
Proof.
  intros Hv Hthr.
  destruct (apply_threshold_eval m threshold Hv) as (c & E & Hv' & Hinv).
  exists (set_coefficients m c). split; [done |].
  cbn [set_coefficients coefficients_vect_].
  apply (rebuilt_from_own_slopes m (threshold_row threshold <$> slopes_of m)
           c Hv); [| done].
  intros r j Hr Hj. rewrite thresholded_lookup by done.
  destruct (Qlt_le_dec _ _) as [Hlt|_]; [| reflexivity].
  pose proof (Qabs_nonneg ((slopes_of m !!! r) !!! j)). lra.
Qed.

(** Threshold 0 on the layer of two activations *)
Lemma nonpositive_threshold_keeps_coefficients_witness :
  exists m',
    apply_threshold threshold_slopes two_unit_module 0 = Ok m' /\
    Forall2 Qeq (coefficients_vect_ m') (coefficients_vect_ two_unit_module).
Proof.
  apply (nonpositive_threshold_keeps_coefficients two_unit_module 0
           two_unit_module_valid).
  lra.
Defined.

(** X22.  Thresholding is idempotent: applying [apply_threshold] a second
    time with the same threshold leaves the coefficients equal to those
    after the first call, because the slopes of the rebuilt coefficients are
    the thresholded slopes. *)
Theorem apply_threshold_idempotent (m : DeepBSplineBase) (threshold : Q) :
  valid_state m ->
  exists m' m'',
    apply_threshold threshold_slopes m threshold = Ok m' /\
    apply_threshold threshold_slopes m' threshold = Ok m'' /\
    Forall2 Qeq (coefficients_vect_ m'') (coefficients_vect_ m').
Proof.
  intros Hv.
  destruct (apply_threshold_eval m threshold Hv) as (c & E & Hv' & Hinv).
  destruct (apply_threshold_eval _ threshold Hv') as (c' & E' & _ & Hinv').
  exists (set_coefficients m c), (set_coefficients (set_coefficients m c) c').
  split; [done |]. split; [done |].
  cbn [set_coefficients coefficients_vect_].
  apply (rebuilt_from_own_slopes (set_coefficients m c)
           (threshold_row threshold <$> slopes_of (set_coefficients m c))
           c' Hv'); [| done].
  cbn [set_coefficients num_activations size].
  intros r j Hr Hj.
  rewrite (thresholded_lookup (set_coefficients m c)) by done.
  destruct (Qlt_le_dec _ _) as [Hlt|_]; [| reflexivity].
  pose proof (converted_slopes m _ c Hv Hinv r j Hr Hj) as Ea.
  rewrite thresholded_lookup in Ea by done.
  destruct (Qlt_le_dec (Qabs ((slopes_of m !!! r) !!! j)) threshold) as [_|Hge].
  - symmetry. exact Ea.
  - exfalso. rewrite Ea in Hlt. lra.
Qed.

(** Threshold 15 on the layer of two activations *)
Lemma apply_threshold_idempotent_witness :
  exists m' m'',
    apply_threshold threshold_slopes two_unit_module 15 = Ok m' /\
    apply_threshold threshold_slopes m' 15 = Ok m'' /\
    Forall2 Qeq (coefficients_vect_ m'') (coefficients_vect_ m').
Proof.
  exact (apply_threshold_idempotent two_unit_module 15 two_unit_module_valid).
Defined.

(** ** The support of the coefficient gradient *)



(** ** Weight decay and the parameter generators *)

Lemma foldl_num_params l : forall a,
  foldl (fun num_params (p : NamedParameter) => (num_params + length p.2)%nat) a l
  = (a + get_num_params l)%nat.
Proof.
  unfold get_num_params. induction l as [|p l IH]; intros a; cbn [foldl].
  - lia.
  - rewrite IH, (IH (0 + _)%nat). lia.
Qed.

Lemma get_num_params_cons p l :
  get_num_params (p :: l) = (length p.2 + get_num_params l)%nat.
Proof. unfold get_num_params at 1. cbn [foldl]. rewrite foldl_num_params. lia. Qed.

Lemma pow2_sum_nonneg t : 0 <= pow2_sum t.
Proof.
  unfold pow2_sum. apply sumQ_nonneg, Forall_fmap, Forall_forall.
  intros w _. simpl. nra.
Qed.

Lemma pow2_sum_nil : pow2_sum [] = 0.
Proof. reflexivity. Qed.

Lemma pow2_sum_app t u : pow2_sum (t ++ u) == pow2_sum t + pow2_sum u.
Proof. unfold pow2_sum. by rewrite fmap_app, sumQ_app. Qed.

Lemma weight_decay_loop_spec c modules : forall wd,
  weight_decay_loop c modules wd
  == wd + c / 2 * pow2_sum (penalised_entries modules).
Proof.
  induction modules as [|[w b] modules IH]; intros wd;
    cbn [weight_decay_loop penalised_entries mbind list_bind weight bias].
  - rewrite pow2_sum_nil. ring.
  - fold (penalised_entries modules). rewrite IH, !pow2_sum_app.
    destruct w as [w|], b as [b|]; cbn [default from_option]; unfold id;
      rewrite ?pow2_sum_nil; ring.
Qed.

(** X24.  [weight_decay] is [weight_decay / 2] times the sum of the squares
    of every weight and bias entry of the network.  So it is zero when
    [params['weight_decay']] is zero (the case in which
    [weight_decay_regularization] is false), non-negative when it is
    positive, and modules without parameters do not count. *)
Theorem weight_decay_closed_form (params_weight_decay : Q)
    (modules : list Penalised) :
  weight_decay params_weight_decay modules
    == params_weight_decay / 2 * pow2_sum (penalised_entries modules) /\
  (params_weight_decay == 0 -> weight_decay params_weight_decay modules == 0) /\
  (0 <= params_weight_decay -> 0 <= weight_decay params_weight_decay modules) /\
  weight_decay params_weight_decay (mkPenalised None None :: modules)
    = weight_decay params_weight_decay modules.
Proof.
  assert (E : weight_decay params_weight_decay modules
              == params_weight_decay / 2 * pow2_sum (penalised_entries modules)).
  { unfold weight_decay. rewrite weight_decay_loop_spec. ring. }
  split; [exact E |]. split; [| split].
  - intros H0. rewrite E, H0. unfold Qdiv. ring.
  - intros Hpos. rewrite E.
    pose proof (pow2_sum_nonneg (penalised_entries modules)).
    apply Qmult_le_0_compat; [| done].
    unfold Qdiv. change (/ 2) with (1 # 2). lra.
  - reflexivity.
Qed.

(** Three modules with the entries 1, -2, 3 and 1/2 *)
Lemma weight_decay_closed_form_witness :
  weight_decay (1 # 10) example_penalised
    == (1 # 10) / 2 * pow2_sum [1; -2; 3; 1 # 2] /\
  0 <= weight_decay (1 # 10) example_penalised.
Proof.
  destruct (weight_decay_closed_form (1 # 10) example_penalised)
    as (H1 & _ & H2 & _).
  split; [exact H1 | apply H2; lra].
Defined.

(** X25.  The two parameter generators split the parameters of the network:
    with a spline activation class, every named parameter is yielded by
    exactly one of [named_parameters_deepspline] (the names that end with
    one of the class's parameter names) and
    [named_parameters_no_deepspline] (the others), in the original order, so
    the parameter counts add up.  Without a spline activation class,
    [named_parameters_no_deepspline] yields every parameter, and
    [named_parameters_deepspline] raises [AttributeError] as soon as there
    is a parameter to look at (an empty network yields nothing). *)
Theorem named_parameters_split (deepspline : option (list String.string))
    (named_parameters : list NamedParameter) :
  (forall parameter_names, deepspline = Some parameter_names ->
     exists ds nds,
       named_parameters_deepspline deepspline named_parameters = Yields ds /\
       named_parameters_no_deepspline deepspline named_parameters = Yields nds /\
       ds = List.filter (fun p => deepspline_param parameter_names p.1)
              named_parameters /\
       nds = List.filter (fun p => negb (deepspline_param parameter_names p.1))
               named_parameters /\
       ds ++ nds ≡ₚ named_parameters /\
       (get_num_params ds + get_num_params nds = get_num_params named_parameters)%nat) /\
  (deepspline = None ->
     named_parameters_no_deepspline deepspline named_parameters
       = Yields named_parameters /\
     (named_parameters <> [] ->
      named_parameters_deepspline deepspline named_parameters
        = Fails AttributeError) /\
     (named_parameters = [] ->
      named_parameters_deepspline deepspline named_parameters = Yields [])).
Proof.
  split.
  - intros names ->.
    induction named_parameters as [|[name param] l IH].
    + exists [], []. by repeat split.
    + destruct IH as (ds & nds & E1 & E2 & -> & -> & Hp & Hn).
      cbn [named_parameters_deepspline named_parameters_no_deepspline].
      rewrite E1, E2. cbn [List.filter fst].
      destruct (deepspline_param names name); cbn [negb];
        eexists _, _; (split; [reflexivity |]); (split; [reflexivity |]);
        (split; [reflexivity |]); (split; [reflexivity |]).
      * split; [cbn [app]; by constructor |].
        rewrite !get_num_params_cons. lia.
      * split; [rewrite <- Permutation_middle; by constructor |].
        rewrite !get_num_params_cons. lia.
  - intros ->. split; [| split].
    + induction named_parameters as [|[name param] l IH]; [reflexivity |].
      cbn [named_parameters_no_deepspline]. by rewrite IH.
    + intros Hne. destruct named_parameters as [|[name param] l]; [done |].
      reflexivity.
    + intros ->. reflexivity.
Qed.

(** Three named parameters, one of them the coefficient vector of a spline
    activation *)
Lemma named_parameters_split_witness :
  (exists ds nds,
     named_parameters_deepspline (Some ["coefficients_vect"%string])
       example_named_parameters = Yields ds /\
     named_parameters_no_deepspline (Some ["coefficients_vect"%string])
       example_named_parameters = Yields nds /\
     ds ++ nds ≡ₚ example_named_parameters /\
     (get_num_params ds + get_num_params nds = 6)%nat) /\
  named_parameters_deepspline None example_named_parameters
    = Fails AttributeError.
Proof.
  destruct (named_parameters_split (Some ["coefficients_vect"%string])
              example_named_parameters) as [H _].
  destruct (named_parameters_split None example_named_parameters) as [_ H'].
  split.
  - destruct (H _ eq_refl) as (ds & nds & E1 & E2 & _ & _ & Hp & Hn).
    exists ds, nds. split; [exact E1 |]. split; [exact E2 |].
    split; [exact Hp | exact Hn].
  - destruct (H' eq_refl) as (_ & Hf & _). apply Hf. discriminate.
Defined.

(** ** Lipschitz continuity of an activation *)

Lemma Qabs_bounds q : q <= Qabs q /\ - q <= Qabs q /\ 0 <= Qabs q.
Proof.
  split; [apply Qle_Qabs |]. split; [| apply Qabs_nonneg].
  rewrite <- Qabs_opp. apply Qle_Qabs.
Qed.

Lemma relu_lipschitz p q : Qabs (relu p - relu q) <= Qabs (p - q).
Proof.
  destruct (Qabs_bounds (p - q)) as (H1 & H2 & H3).
  apply Qabs_Qle_condition. unfold relu.
  destruct (Q.max_spec p 0) as [[Hp Ep]|[Hp Ep]];
    destruct (Q.max_spec q 0) as [[Hq Eq]|[Hq Eq]];
    rewrite Ep, Eq; split; lra.
Qed.

Lemma psum_abs N F : Qabs (psum N F) <= psum N (fun k => Qabs (F k)).
Proof.
  induction N as [|N IH].
  - unfold psum. cbn [seq fmap list_fmap]. rewrite sumQ_nil.
    change (Qabs 0) with 0. lra.
  - rewrite !psum_S. pose proof (Qabs_triangle (psum N F) (F N)). lra.
Qed.

Lemma psum_minus N F G : psum N F - psum N G == psum N (fun k => F k - G k).
Proof.
  unfold Qminus. rewrite psum_opp, <- psum_plus. reflexivity.
Qed.

(** X26.  Every activation is Lipschitz, with a constant read off its
    parameters: for two elements [v], [v'] of the same channel, the outputs
    of [forward] differ by at most
    [(|b1| + sum_k |a_k|) * |v - v'|], where [b1 = (c[1] - c[0]) / grid] is
    the leftmost slope and [sum_k |a_k|] the L1 norm of the channel's
    [relu_slopes], its TV(2). *)
Theorem activation_lipschitz_in_TV (m : DeepBSplineBase) (x : Tensor) :
  valid_state m -> wf_tensor x -> dimC x = num_activations m ->
  exists y slopes,
    forward_data m x = Ok y /\ relu_slopes m = Ok slopes /\
    forall k k', (k < length (data x))%nat -> (k' < length (data x))%nat ->
      channel_of x k = channel_of x k' ->
      let i := channel_of x k in
      Qabs (y !!! k - y !!! k')
      <= (Qabs ((coefficient m i 1 - coefficient m i 0) / grid m)
          + psum (size m - 2) (fun j => Qabs ((slopes !!! i) !!! j)))
         * Qabs (data x !!! k - data x !!! k').
Proof.
  intros Hv Hwf HC.
  destruct (forward_data_lookup m x Hv Hwf HC) as (y & E & L & V).
  exists y, (slopes_of m). split; [done |].
  split; [by apply relu_slopes_eval |].
  intros k k' Hk Hk' Hch. cbv zeta. rewrite (V k Hk), (V k' Hk'), <- Hch.
  assert (Hi : (channel_of x k < num_activations m)%nat)
    by (rewrite <- HC; by apply channel_of_lt).
  rewrite !(spline_at_relu_expansion m Hv _ Hi). unfold relu_expansion.
  set (i := channel_of x k). set (v := data x !!! k). set (v' := data x !!! k').
  set (b1 := (coefficient m i 1 - coefficient m i 0) / grid m).
  set (sl := slopes_of m !!! i).
  set (P := psum (size m - 2)
              (fun j => sl !!! j * relu (v - knot (grid m) (size m) (j + 1)))).
  set (P' := psum (size m - 2)
               (fun j => sl !!! j * relu (v' - knot (grid m) (size m) (j + 1)))).
  assert (EP : P - P'
               == psum (size m - 2)
                    (fun j => sl !!! j
                              * (relu (v - knot (grid m) (size m) (j + 1))
                                 - relu (v' - knot (grid m) (size m) (j + 1))))).
  { unfold P, P'. rewrite psum_minus. apply psum_ext. intros; ring. }
  assert (Ediff :
    coefficient m i 0 + b1 * (v - knot (grid m) (size m) 0) + P
    - (coefficient m i 0 + b1 * (v' - knot (grid m) (size m) 0) + P')
    == b1 * (v - v') + (P - P')) by ring.
  rewrite Ediff, EP.
  eapply Qle_trans; [apply Qabs_triangle |].
  rewrite Qmult_plus_distr_l, Qabs_Qmult.
  apply Qplus_le_compat; [lra |].
  eapply Qle_trans; [apply psum_abs |].
  rewrite <- psum_scale. apply psum_le. intros j Hj.
  rewrite Qabs_Qmult.
  pose proof (relu_lipschitz (v - knot (grid m) (size m) (j + 1))
                (v' - knot (grid m) (size m) (j + 1))) as Hr.
  assert (Ev : v - knot (grid m) (size m) (j + 1)
               - (v' - knot (grid m) (size m) (j + 1)) == v - v') by ring.
  rewrite Ev in Hr.
  apply Qmult_le_compat_nonneg; split;
    [apply Qabs_nonneg | lra | apply Qabs_nonneg | exact Hr].
Qed.

(** The elements -3 and 7 of the first activation *)
Lemma activation_lipschitz_in_TV_witness :
  exists y slopes,
    forward_data two_unit_module two_unit_batch = Ok y /\
    relu_slopes two_unit_module = Ok slopes /\
    Qabs (y !!! 0%nat - y !!! 2%nat)
    <= (Qabs ((coefficient two_unit_module 0 1 - coefficient two_unit_module 0 0)
              / (1 # 2))
        + psum 1 (fun j => Qabs ((slopes !!! 0%nat) !!! j)))
       * Qabs (data two_unit_batch !!! 0%nat - data two_unit_batch !!! 2%nat).
Proof.
  destruct (activation_lipschitz_in_TV two_unit_module two_unit_batch
              two_unit_module_valid eq_refl eq_refl) as (y & s & H1 & H2 & H3).
  exists y, s. split; [exact H1 |]. split; [exact H2 |].
  apply (H3 0%nat 2%nat); [simpl; lia | simpl; lia | reflexivity].
Defined.

Lemma fZerofOneAbs_eval m :
  valid_state m ->
  exists fz, fZerofOneAbs m = Ok fz /\ length fz = num_activations m /\
             Forall (fun v => 0 <= v) fz.
Proof.
  intros Hv. unfold fZerofOneAbs.
  destruct (forward_data_eval m (constant_input (num_activations m) 0) Hv
              (constant_input_wf _ _) eq_refl) as (f0 & E0 & L0).
  destruct (forward_data_eval m (constant_input (num_activations m) 1) Hv
              (constant_input_wf _ _) eq_refl) as (f1 & E1 & L1).
  simpl in L0, L1. rewrite length_replicate in L0, L1.
  assert (E : boundary_abs 0 1 m
              = Ok (zip_with (fun u v => Qabs u + Qabs v) f0 f1))
    by (unfold boundary_abs; rewrite E0, bind_Ok, E1; reflexivity).
  eexists. split; [exact E |]. split.
  - rewrite length_zip_with. lia.
  - by apply (boundary_abs_nonneg 0 1 m).
Qed.

Lemma norm1_nonneg_entries (t : list Q) :
  Forall (fun v => 0 <= v) t -> norm1 t == psum (length t) (fun r => t !!! r).
Proof.
  intros H. unfold norm1. apply sumQ_psum; [by rewrite length_fmap |].
  intros r Hr. rewrite fmap_total by done. apply Qabs_pos.
  apply (Forall_lookup_1 _ _ r _ H). by apply list_lookup_lookup_total_lt.
Qed.

(** One spline module: its TV(2) value is at most its BV(2) value. *)
Lemma module_tv_le_bv m :
  valid_state m ->
  exists tv bv,
    module_tv_bv false m = Ok tv /\ module_tv_bv true m = Ok bv /\
    norm1 tv <= norm1 bv.
Proof.
  intros Hv. unfold module_tv_bv.
  destruct (totalVariation_eval m Hv) as (tv & Etv & Ltv & Ptv).
  destruct (fZerofOneAbs_eval m Hv) as (fz & Efz & Lfz & Pfz).
  rewrite Etv, !bind_Ok, Efz, bind_Ok.
  eexists _, _. split; [reflexivity |]. split; [reflexivity |].
  assert (Pz : Forall (fun v => 0 <= v) (zip_with Qplus tv fz)).
  { apply Forall_lookup_2. intros r v Hr.
    apply lookup_zip_with_Some in Hr as (a & b & -> & Ha & Hb).
    pose proof (Forall_lookup_1 _ _ _ _ Ptv Ha).
    pose proof (Forall_lookup_1 _ _ _ _ Pfz Hb). simpl in *. lra. }
  rewrite (norm1_nonneg_entries tv Ptv), (norm1_nonneg_entries _ Pz).
  rewrite length_zip_with, Ltv, Lfz, Nat.min_id.
  apply psum_le. intros r Hr. rewrite zip_with_total by lia.
  assert (0 <= fz !!! r).
  { apply (Forall_lookup_1 _ _ r _ Pfz).
    apply list_lookup_lookup_total_lt. lia. }
  lra.
Qed.

Lemma TV_le_BV_loop lmbda modules : forall w u w0 u0,
  Forall valid_state (splines_of modules) -> u <= u0 ->
  exists w' u' w0' u0',
    TV_BV_loop false lmbda modules w u = Ok (w', u') /\
    TV_BV_loop true lmbda modules w0 u0 = Ok (w0', u0') /\
    u' <= u0'.
Proof.
  induction modules as [|[m|wt|wt|] modules IH]; intros w u w0 u0 Hall Hu;
    cbn [TV_BV_loop splines_of omap list_omap] in *.
  - by exists w, u, w0, u0.
  - fold (splines_of modules) in *.
    inversion Hall as [|? ? Hm Hrest]; subst.
    destruct (module_tv_le_bv m Hm) as (tv & bv & Etv & Ebv & Hn).
    rewrite Etv, Ebv, !bind_Ok. apply IH; [done | lra].
  - fold (splines_of modules) in *. by apply IH.
  - fold (splines_of modules) in *. by apply IH.
  - fold (splines_of modules) in *. by apply IH.
Qed.

(** X27.  The BV(2) regulariser dominates the TV(2) regulariser: on a
    network whose spline modules are valid states, the unweighted value
    that [TV_BV] returns with [params['lipschitz']] set is at least the one
    it returns without it. *)
Theorem BV_dominates_TV (lmbda : Q) (modules : list Module) :
  Forall valid_state (splines_of modules) ->
  exists tv tv_unweighted bv bv_unweighted,
    TV_BV false lmbda modules = Ok (tv, tv_unweighted) /\
    TV_BV true lmbda modules = Ok (bv, bv_unweighted) /\
    tv_unweighted <= bv_unweighted.
Proof.
  intros Hall. unfold TV_BV.
  apply (TV_le_BV_loop lmbda modules 0 0 0 0 Hall). lra.
Qed.

(** On the small network *)
Lemma BV_dominates_TV_witness :
  exists tv tv_unweighted bv bv_unweighted,
    TV_BV false 1 example_network = Ok (tv, tv_unweighted) /\
    TV_BV true 1 example_network = Ok (bv, bv_unweighted) /\
    tv_unweighted <= bv_unweighted.
Proof.
  apply (BV_dominates_TV 1 example_network).
  constructor; [apply two_unit_module_valid | constructor].
Defined.
